(** * otp_api.c: the connection table, the line reader, the request
      dispatcher and the polling loop of the RRRR OTP REST gateway.

    The C program keeps its state in global arrays.  The embedding below
    threads that state explicitly through every function:

    - [conn_items], [n_conn], [buffers], [conn_remove_queue] and
      [conn_remove_n] are the globals of the same names;
    - [heap] holds the blocks returned by [malloc (BUFLEN)]; a [struct buffer]
      designates its block by number, so swapping two structs swaps the
      pointers and leaves the blocks in place, as in the source;
    - [log] records, in program order, the socket and broker operations the
      program performs, and every call of [remove_conn] made while the
      removal queue is applied.

    Table indices and the connection count are natural numbers:
    [n_conn++] is guarded by [n_conn < MAX_CONN] and [n_conn--] by
    [nc < n_conn], so neither wraps.  The [int size] of a buffer is an
    integer: a failing [recv] takes one off it, also at zero.  Offsets
    into a block are integers for the same reason.  Socket descriptors are
    integers. *)

From Stdlib Require Import ZArith Lia Strings.String Strings.Byte Sorting.Sorted.
From stdpp Require Import base list.

#[local] Open Scope nat_scope.

(** Counts and lengths are read as integers where an integer is expected. *)
#[global] Coercion Z.of_nat : nat >-> Z.

(** ** Constants of the source *)

#[global] Instance byte_eq_decision : EqDecision byte := Byte.byte_eq_dec.
#[global] Instance byte_inhabited : Inhabited byte := populate x00.
#[global] Arguments byte_eq_decision : simpl never.

Definition bytes (s : string) : list byte := list_byte_of_string s.

Definition OK_TEXT_PLAIN : list byte :=
  bytes "HTTP/1.0 200 OK" ++ [x0a] ++ bytes "Content-Type:text/plain" ++ [x0a; x0a].

Definition ERROR_404 : list byte :=
  bytes "HTTP/1.0 404 Not Found" ++ [x0a] ++ bytes "Content-Type:text/plain"
    ++ [x0a; x0a] ++ bytes "FOUR ZERO FOUR" ++ [x0a].

Definition BUFLEN : nat := 1024.
Definition MAX_CONN : nat := 100.

#[global] Arguments BUFLEN : simpl never.
#[global] Arguments MAX_CONN : simpl never.

(** [POLLIN] of <poll.h> and [ZMQ_POLLIN] of <zmq.h>. *)
Definition POLLIN : Z := 1.
Definition ZMQ_POLLIN : Z := 1.

(** ** Data *)

(** [struct buffer]: [buf] is the number of the heap block the [char *]
    points to, [size] the [int] that counts the bytes used. *)
Record buffer := Buffer { buf : nat; size : Z }.

(** [zmq_pollitem_t]; [socket] is 0 for a plain descriptor ([NULL]). *)
Record zmq_pollitem_t := PollItem {
  socket : Z;
  fd : Z;
  events : Z;
  revents : Z
}.

#[global] Instance buffer_inhabited : Inhabited buffer := populate (Buffer 0 0%Z).
#[global] Instance pollitem_inhabited : Inhabited zmq_pollitem_t :=
  populate (PollItem 0 0 0 0).

(** What the program does to the outside world. *)
Inductive event :=
| EvBrokerRecv (frames : list (list byte))   (* zmsg_recv *)
| EvBrokerSend (frames : list (list byte))   (* zmsg_send *)
| EvAccept (client_socket : Z)               (* accept *)
| EvRecv (sd : Z) (received : nat)           (* recv returning received >= 0 *)
| EvRecvFailed (sd : Z)                      (* recv returning -1 *)
| EvSend (sd : Z) (data : list byte)         (* send *)
| EvClose (sd : Z)                           (* close *)
| EvRemove (nc : nat) (removed : bool).      (* remove_conn (conn_remove_queue[i]) *)

#[global] Instance event_eq_dec : EqDecision event.
Proof. solve_decision. Defined.

Record state := State {
  conn_items : list zmq_pollitem_t;
  n_conn : nat;
  buffers : list buffer;
  heap : list (list byte);
  conn_remove_queue : list nat;
  conn_remove_n : nat;
  log : list event
}.

Definition set_conn_items (f : list zmq_pollitem_t → list zmq_pollitem_t) (st : state) :=
  State (f (conn_items st)) (n_conn st) (buffers st) (heap st)
        (conn_remove_queue st) (conn_remove_n st) (log st).
Definition set_n_conn (n : nat) (st : state) :=
  State (conn_items st) n (buffers st) (heap st)
        (conn_remove_queue st) (conn_remove_n st) (log st).
Definition set_buffers (f : list buffer → list buffer) (st : state) :=
  State (conn_items st) (n_conn st) (f (buffers st)) (heap st)
        (conn_remove_queue st) (conn_remove_n st) (log st).
Definition set_heap (f : list (list byte) → list (list byte)) (st : state) :=
  State (conn_items st) (n_conn st) (buffers st) (f (heap st))
        (conn_remove_queue st) (conn_remove_n st) (log st).
Definition emit (es : list event) (st : state) :=
  State (conn_items st) (n_conn st) (buffers st) (heap st)
        (conn_remove_queue st) (conn_remove_n st) (log st ++ es).

(** ** The connection table *)

(** [remove_conn_later]: store [nc] at [conn_remove_queue[conn_remove_n]]
    and advance [conn_remove_n]. *)
Definition remove_conn_later (nc : nat) (st : state) : state :=
  State (conn_items st) (n_conn st) (buffers st) (heap st)
        (<[conn_remove_n st := nc]> (conn_remove_queue st))
        (conn_remove_n st + 1) (log st).

(** [add_conn].  [revents] of the new item is left as it was.  The debug
    dump [conn_dump_all] that [add_conn] and [remove_conn] end with is not
    modelled. *)
Definition add_conn (sd : Z) (st : state) : state :=
  if decide (n_conn st < MAX_CONN) then
    set_n_conn (n_conn st + 1)
      (set_conn_items (λ items,
         <[n_conn st := PollItem 0 sd POLLIN (revents (items !!! n_conn st))]> items) st)
  else st.

(** [remove_conn]: [memcpy] of the last poll item over item [nc], swap of
    the two buffer structs, reset of the size of the struct now last. *)
Definition remove_conn (nc : nat) (st : state) : bool * state :=
  if decide (n_conn st ≤ nc) then (false, st) else
  let last_index := n_conn st - 1 in
  let items := <[nc := conn_items st !!! last_index]> (conn_items st) in
  let temp := buffers st !!! nc in
  let bs1 := <[nc := buffers st !!! last_index]> (buffers st) in
  let bs2 := <[last_index := temp]> bs1 in
  let bs3 := <[last_index := Buffer (buf (bs2 !!! last_index)) 0%Z]> bs2 in
  (true,
   State items (n_conn st - 1) bs3 (heap st)
         (conn_remove_queue st) (conn_remove_n st) (log st)).

(** The loop of [remove_conn_enqueued] over the first [conn_remove_n]
    entries of the queue. *)
Fixpoint remove_each (q : list nat) (st : state) : state :=
  match q with
  | [] => st
  | nc :: q' =>
      let '(ok, st') := remove_conn nc st in
      remove_each q' (emit [EvRemove nc ok] st')
  end.

Definition remove_conn_enqueued (st : state) : state :=
  let st' := remove_each (take (conn_remove_n st) (conn_remove_queue st)) st in
  State (conn_items st') (n_conn st') (buffers st') (heap st')
        (conn_remove_queue st') 0 (log st').

(** ** C strings in a block *)

(** [strlen]; running off the end of the block counts as reaching the end
    of the string (the C program would read past the block there). *)
Fixpoint strlen (s : list byte) : nat :=
  match s with
  | [] => 0
  | c :: s' => if decide (c = x00) then 0 else S (strlen s')
  end.

(** The string a [char *] at the start of [s] designates. *)
Definition cstring (s : list byte) : list byte := take (strlen s) s.

(** The byte at offset [p] from the start of a block.  The model holds
    the bytes of the blocks and nothing around them: an offset outside the
    block reads as NUL.  (In C an access outside the block is undefined;
    [touched] below records the offsets, so that it can be told.) *)
Definition byte_at (mem : list byte) (p : Z) : byte :=
  if decide (0 ≤ p)%Z then mem !!! Z.to_nat p else x00.

(** [*p = v].  A store outside the block is not kept. *)
Definition poke (mem : list byte) (p : Z) (v : byte) : list byte :=
  if decide (0 ≤ p)%Z then <[Z.to_nat p := v]> mem else mem.

(** The block after [data] is stored from offset [c] on: the bytes before
    [c], then the bytes of [data] that do not land before the block, then
    the bytes after them. *)
Definition store (mem : list byte) (c : Z) (data : list byte) : list byte :=
  take (Z.to_nat c) mem ++ drop (Z.to_nat (- c)) data ++
  drop (Z.to_nat (c + length data)) mem.

(** The offsets a [%s] conversion reads when handed the address of offset
    [p] of block [mem]: [p], [p+1], ... up to and including the first NUL.
    When the block holds no NUL from [p] on, the read leaves the block:
    offset [length mem] is in the list.  An offset before the block reads
    as NUL, so a read that starts there stops at once. *)
Definition str_reads (mem : list byte) (p : Z) : list Z :=
  if decide (0 ≤ p)%Z
  then Z.of_nat <$> seq (Z.to_nat p) (S (strlen (drop (Z.to_nat p) mem)))
  else [p].

(** [strspn (s, " ")] and [strcspn (s, " ")]. *)
Fixpoint strspn_sp (s : list byte) : nat :=
  match s with
  | [] => 0
  | c :: s' => if decide (c = x20) then S (strspn_sp s') else 0
  end.

Fixpoint strcspn_sp (s : list byte) : nat :=
  match s with
  | [] => 0
  | c :: s' =>
      if decide (c = x20) then 0
      else if decide (c = x00) then 0
      else S (strcspn_sp s')
  end.

(** [strtok (_, " ")] resumed at position [p] of the block ([p] is 0 for
    the first call, the saved pointer afterwards).  Returns the position of
    the token if there is one, the block (a NUL written over the delimiter
    that ends the token) and the new saved pointer. *)
Definition strtok (mem : list byte) (p : nat) : option nat * list byte * nat :=
  let p1 := p + strspn_sp (drop p mem) in
  if decide (mem !!! p1 = x00) then (None, mem, p1)
  else
    let p2 := p1 + strcspn_sp (drop p1 mem) in
    if decide (mem !!! p2 = x00) then (Some p1, mem, p2)
    else (Some p1, <[p2 := x00]> mem, p2 + 1).

(** [index (s, c)] for [c] other than NUL: offset of the first [c]. *)
Fixpoint index (s : list byte) (c : byte) : option nat :=
  match s with
  | [] => None
  | x :: s' =>
      if decide (x = c) then Some 0
      else if decide (x = x00) then None
      else S <$> index s' c
  end.

(** ** Reading a request line *)

(** The four ways out of [read_input]: [received == 0] (line 137), the
    [size >= BUFLEN] guard (line 143), and the final [return eol] with
    [eol] true or false. *)
Inductive read_status := PeerClosed | Overflow | LineComplete | NeedMore.

#[global] Instance read_status_eq_dec : EqDecision read_status.
Proof. solve_decision. Defined.

(** The [bool] the C function returns. *)
Definition read_status_ret (s : read_status) : bool :=
  match s with LineComplete => true | _ => false end.

Definition is_eol (c : byte) : bool :=
  bool_decide (c = x0a) || bool_decide (c = x0d).

(** The scan [for (end = c + received; c <= end; ++c)], with [k] the
    number of offsets from [c] to [end] inclusive.  Returns the offset of
    the terminator found, if any, and the offsets inspected. *)
Fixpoint scan_eol (mem : list byte) (c : Z) (k : nat) : option Z * list Z :=
  match k with
  | 0 => (None, [])
  | S k' =>
      if is_eol (byte_at mem c) then (Some c, [c])
      else let '(found, seen) := scan_eol mem (c + 1) k' in (found, c :: seen)
  end.

(** The offsets into the block one call of [read_input] touches: those
    [recv] fills, those the two [printf ("%s")] calls read, and those the
    scan inspects (the offset it overwrites is the last of them). *)
Record touched := Touched {
  filled : list Z;
  printed : list Z;
  seen : list Z
}.

Definition all_touched (t : touched) : list Z :=
  filled t ++ printed t ++ seen t.

(** What a call of [recv] on a socket comes to: the socket [Delivers] the
    bytes it holds, of which [recv] stores at most as many as it was asked
    for and returns their number (0 when there are none, the peer having
    closed), or [recv] [Fails] and returns -1 (a reset connection, a
    non-blocking socket with nothing to read). *)
Inductive recv_outcome := Delivers (incoming : list byte) | Fails.

(** [read_input].  [received] is the value of the [size_t] of that name as
    the program uses it: a -1 from [recv] makes [b->size += received] take
    one off [size], compares unequal to 0, and makes [end] the offset
    before [c], so that the scan inspects nothing.  With [size] below zero
    [c] is an offset before the block and [remaining] is more than
    [BUFLEN]. *)
Definition read_input (nc : nat) (input : recv_outcome) (st : state)
  : read_status * touched * state :=
  let b := buffers st !!! nc in
  let conn_sd := fd (conn_items st !!! nc) in
  let c := size b in
  let remaining := (BUFLEN - size b)%Z in
  let data := match input with
              | Delivers incoming => take (Z.to_nat remaining) incoming
              | Fails => []
              end in
  let received := match input with
                  | Delivers _ => Z.of_nat (length data)
                  | Fails => (-1)%Z
                  end in
  let ev := match input with
            | Delivers _ => EvRecv conn_sd (length data)
            | Fails => EvRecvFailed conn_sd
            end in
  let mem := heap st !!! buf b in
  let mem1 := store mem c data in
  let st1 := emit [ev] (set_heap (λ h, <[buf b := mem1]> h) st) in
  if decide (received = 0%Z)
  then (PeerClosed, Touched (seqZ c received) [] [], remove_conn_later nc st1)
  else
    let st2 := set_buffers (λ bs, <[nc := Buffer (buf b) (size b + received)]> bs) st1 in
    if decide (BUFLEN ≤ size b + received)%Z
    then (Overflow, Touched (seqZ c received) [] [], st2)
    else
      let k := Z.to_nat (received + 1) in
      let t := Touched (seqZ c received)
                       (str_reads mem1 c ++ str_reads mem1 0)
                       (scan_eol mem1 c k).2 in
      match (scan_eol mem1 c k).1 with
      | Some e =>
          (LineComplete, t, set_heap (λ h, <[buf b := poke mem1 e x00]> h) st2)
      | None => (NeedMore, t, st2)
      end.

(** ** Dispatching a request line *)

(** The object representation of a [uint32_t] depends on the machine. *)
Inductive byte_order := LittleEndian | BigEndian.

Definition byte_of_Z (z : Z) : byte :=
  default x00 (Byte.of_N (Z.to_N (z mod 256))).

Definition Z_of_byte (b : byte) : Z := Z.of_N (Byte.to_N b).

(** The four bytes [zmsg_pushmem (msg, &conn_sd, sizeof (conn_sd))] copies. *)
Definition uint32_bytes (o : byte_order) (v : Z) : list byte :=
  let le := [byte_of_Z v; byte_of_Z (v / 2 ^ 8);
             byte_of_Z (v / 2 ^ 16); byte_of_Z (v / 2 ^ 24)] in
  match o with
  | LittleEndian => le
  | BigEndian => rev le
  end.

(** The [cleanup:] label of [send_request]. *)
Definition send_request_cleanup (nc : nat) (conn_sd : Z) (st : state) : state :=
  remove_conn_later nc (emit [EvSend conn_sd ERROR_404; EvClose conn_sd] st).

(** [send_request].  [req] stands for the [router_request_t] that
    [router_request_initialize] and [router_request_randomize] (router.h)
    fill in; [zmsg_pushmem] pushes to the front of the message, so the
    descriptor frame comes first. *)
Definition send_request (o : byte_order) (nc : nat) (req : list byte) (st : state)
  : state :=
  let b := buffers st !!! nc in
  let conn_sd := (fd (conn_items st !!! nc) mod 2 ^ 32)%Z in
  let mem := heap st !!! buf b in
  let '(tok, mem1, save1) := strtok mem 0 in
  let st1 := set_heap (λ h, <[buf b := mem1]> h) st in
  match tok with
  | None => send_request_cleanup nc conn_sd st1
  | Some token =>
      if decide (cstring (drop token mem1) = bytes "GET") then
        let '(tok2, mem2, save2) := strtok mem1 save1 in
        let st2 := set_heap (λ h, <[buf b := mem2]> h) st in
        match tok2 with
        | None => send_request_cleanup nc conn_sd st2
        | Some resource =>
            match index (drop resource mem2) x3f with
            | None => send_request_cleanup nc conn_sd st2
            | Some q =>
                if decide (mem2 !!! (resource + q + 1) = x00)
                then send_request_cleanup nc conn_sd st2
                else
                  remove_conn_later nc
                    (emit [EvBrokerSend [uint32_bytes o conn_sd; req]] st2)
            end
        end
      else send_request_cleanup nc conn_sd st1
  end.

(** ** The polling loop *)

(** What one turn of the loop gets from outside: the result of [zmq_poll]
    (its return value and the [revents] it stores), the message
    [zmsg_recv] would return, the descriptor [accept] would return, what
    [recv] would come to on each connection, and the request payload built
    for each connection. *)
Record poll_env := PollEnv {
  n_waiting : Z;
  broker_revents : Z;
  http_revents : Z;
  conn_revents : list Z;
  reply : list (list byte);
  client_socket : Z;
  incoming : nat → recv_outcome;
  request : nat → list byte
}.

(** [zmq_poll] stores [revents] in the items it was handed: the first
    [n_conn] connection items. *)
Fixpoint store_revents (rs : list Z) (items : list zmq_pollitem_t)
  : list zmq_pollitem_t :=
  match rs, items with
  | r :: rs', it :: items' =>
      PollItem (socket it) (fd it) (events it) r :: store_revents rs' items'
  | _, _ => items
  end.

(** Lines 253-265: the reply router.  [*(zframe_data (sd_frame))]
    dereferences the [byte *] that [zframe_data] returns (czmq.h): one
    byte, widened to [uint32_t]. *)
Definition route_reply (msg : list (list byte)) (st : state) : state :=
  let sd_frame := msg !!! 0 in
  let sd := Z_of_byte (sd_frame !!! 0) in
  let response := cstring (msg !!! 1) in
  emit [EvBrokerRecv msg; EvSend sd OK_TEXT_PLAIN; EvSend sd response; EvClose sd] st.

(** Lines 267-279: the listening socket. *)
Definition accept_conn (client_socket : Z) (st : state) : state :=
  let st1 := emit [EvAccept client_socket] st in
  if decide (client_socket < 0)%Z then st1 else add_conn client_socket st1.

(** Lines 283-285: what the loop does for a connection that is ready. *)
Definition conn_event (o : byte_order) (c : nat) (data : recv_outcome)
    (req : list byte) (st : state) : state :=
  let r := read_input c data st in
  if read_status_ret r.1.1 then send_request o c req r.2 else r.2.

(** Lines 281-287: the loop over the open connections; [k] bounds the
    number of turns. *)
Fixpoint read_loop (o : byte_order) (env : poll_env) (k c : nat) (n_waiting : Z)
    (st : state) : state :=
  match k with
  | 0 => st
  | S k' =>
      if decide (c < n_conn st ∧ (0 < n_waiting)%Z) then
        if decide (Z.land (revents (conn_items st !!! c)) ZMQ_POLLIN ≠ 0%Z) then
          read_loop o env k' (c + 1) (n_waiting - 1)
            (conn_event o c (incoming env c) (request env c) st)
        else read_loop o env k' (c + 1) n_waiting st
      else st
  end.

(** The three handlers of one turn, named after the steps of the loop. *)
Definition broker_step (env : poll_env) (nw : Z) (st : state) : Z * state :=
  if decide (Z.land (broker_revents env) ZMQ_POLLIN ≠ 0%Z)
  then ((nw - 1)%Z, route_reply (reply env) st)
  else (nw, st).

(** [zmq_poll] reports nothing for the listening socket when it was polled
    with [events] 0, which line 245 arranges when the table is full. *)
Definition http_step (env : poll_env) (http_events : Z) (nw : Z) (st : state)
  : Z * state :=
  if decide (Z.land (Z.land (http_revents env) http_events) ZMQ_POLLIN ≠ 0%Z)
  then ((nw - 1)%Z, accept_conn (client_socket env) st)
  else (nw, st).

(** Lines 245-287 of one turn: the poll and the three handlers, up to but
    not including the call of [remove_conn_enqueued]. *)
Definition handlers (o : byte_order) (env : poll_env) (st : state) : state :=
  let http_events := if decide (n_conn st < MAX_CONN) then ZMQ_POLLIN else 0%Z in
  let st0 :=
    set_conn_items (store_revents (resize (n_conn st) 0%Z (conn_revents env))) st in
  let '(nw1, st1) := broker_step env (n_waiting env) st0 in
  let '(nw2, st2) := http_step env http_events nw1 st1 in
  read_loop o env (n_conn st2) 0 nw2 st2.

(** One turn of [for (;;)]; [None] is the [break] after an interrupted
    poll. *)
Definition iteration (o : byte_order) (env : poll_env) (st : state) : option state :=
  if decide (n_waiting env < 1)%Z then None
  else Some (remove_conn_enqueued (handlers o env st)).

(** The state [main] sets up before the loop: globals zeroed, one block per
    buffer.  [malloc] does not initialise the blocks; [fill] is the byte
    they happen to hold. *)
Definition initial_state (fill : byte) : state :=
  State (replicate MAX_CONN (PollItem 0 0 0 0)) 0
        (map (λ i, Buffer i 0%Z) (seq 0 MAX_CONN))
        (replicate MAX_CONN (replicate BUFLEN fill))
        (replicate MAX_CONN 0) 0 [].

(** ** Vocabulary of the properties *)

(** Enqueue the indices of [q], in order. *)
Definition enqueue_all (q : list nat) (st : state) : state :=
  foldl (λ s nc, remove_conn_later nc s) st q.

(** The entries the removal queue holds. *)
Definition pending (st : state) : list nat :=
  take (conn_remove_n st) (conn_remove_queue st).

(** Operations on the connection table. *)
Inductive table_op := OpAdd (sd : Z) | OpRemove (nc : nat).

Definition apply_op (st : state) (op : table_op) : state :=
  match op with
  | OpAdd sd => add_conn sd st
  | OpRemove nc => (remove_conn nc st).2
  end.

(** The arrays have their declared sizes and the count fits. *)
Record table_ok (st : state) : Prop := TableOk {
  ok_items : length (conn_items st) = MAX_CONN;
  ok_buffers : length (buffers st) = MAX_CONN;
  ok_queue : length (conn_remove_queue st) = MAX_CONN;
  ok_n_conn : n_conn st ≤ MAX_CONN
}.

(** Splitting a line into the fields between separators, and into tokens
    (the fields that are not empty). *)
Fixpoint fields (sep : byte → bool) (s : list byte) : list (list byte) :=
  match s with
  | [] => [[]]
  | c :: s' =>
      if sep c then [] :: fields sep s'
      else match fields sep s' with
           | f :: fs => (c :: f) :: fs
           | [] => [[c]]
           end
  end.

Definition tokens (sep : byte → bool) (s : list byte) : list (list byte) :=
  filter (λ f, f ≠ []) (fields sep s).

(** The one delimiter [send_request] hands to [strtok]. *)
Definition is_space (c : byte) : bool := bool_decide (c = x20).

(** White space in the sense of [isspace]: space, tab, line feed, vertical
    tab, form feed, carriage return. *)
Definition is_whitespace (c : byte) : bool :=
  bool_decide (c ∈ [x20; x09; x0a; x0b; x0c; x0d]).

(** The token holds a question mark that is not its last byte. *)
Fixpoint has_query (tok : list byte) : bool :=
  match tok with
  | c :: (_ :: _) as tok' => bool_decide (c = x3f) || has_query tok'
  | _ => false
  end.

(** The dispatch rule over the tokens [sep] separates: forward when the
    first token is GET and the second has a query. *)
Definition forwards (sep : byte → bool) (line : list byte) : bool :=
  match tokens sep line with
  | verb :: resource :: _ => bool_decide (verb = bytes "GET") && has_query resource
  | _ => false
  end.

(** What [send_request] does in either case. *)
Definition forward_events (o : byte_order) (sd : Z) (req : list byte) : list event :=
  [EvBrokerSend [uint32_bytes o sd; req]].

Definition reject_events (sd : Z) : list event :=
  [EvSend sd ERROR_404; EvClose sd].

(** Events of the read phase: [recv] on a connection and what
    [send_request] emits. *)
Definition is_conn_event (e : event) : bool :=
  match e with
  | EvRecv _ _ | EvRecvFailed _ | EvSend _ _ | EvClose _ | EvBrokerSend _ => true
  | _ => false
  end.

Definition is_remove_event (e : event) : bool :=
  match e with EvRemove _ _ => true | _ => false end.

Definition removed_index (e : event) : option nat :=
  match e with EvRemove nc _ => Some nc | _ => None end.

(** A finite prefix of [for (;;)]: one [poll_env] per turn. *)
Fixpoint run (o : byte_order) (envs : list poll_env) (st : state) : option state :=
  match envs with
  | [] => Some st
  | env :: envs' =>
      match iteration o env st with
      | Some st' => run o envs' st'
      | None => None
      end
  end.

(** The rest of a block after a string: nothing, or a NUL and more. *)
Definition nul_head (rest : list byte) : Prop :=
  rest = [] ∨ ∃ r, rest = x00 :: r.

(** The first token of [s] and what follows its delimiter. *)
Definition next_token (s : list byte) : option (list byte * list byte) :=
  let s1 := drop (strspn_sp s) s in
  match s1 with
  | [] => None
  | _ :: _ => Some (take (strcspn_sp s1) s1, drop (S (strcspn_sp s1)) s1)
  end.

(** ** Sample states and inputs *)

(** A table with one connection whose buffer holds five bytes. *)
Definition one_conn_partial : state :=
  (read_input 0 (Delivers (bytes "GET /")) (add_conn 7 (initial_state x00))).2.

(** Three open connections, descriptors 10, 11 and 12. *)
Definition three_conns : state :=
  add_conn 12 (add_conn 11 (add_conn 10 (initial_state x00))).

(** One connection, descriptor 256, whose buffer holds a complete request
    line. *)
Definition conn_256_ready : state :=
  (read_input 0 (Delivers (bytes "GET /plan?0" ++ [x0a]))
     (add_conn 256 (initial_state x00))).2.

(** A turn in which only the listening socket is ready and [accept]
    returns [sd]. *)
Definition env_accept (sd : Z) : poll_env :=
  PollEnv 1 0 ZMQ_POLLIN [] [] sd (λ _, Delivers []) (λ _, []).

(** A turn in which only connection [nc] is ready and its socket has
    [data] to deliver. *)
Definition env_data (nc : nat) (data : list byte) : poll_env :=
  PollEnv 1 0 0 (replicate nc 0%Z ++ [ZMQ_POLLIN]) [] (-1) (λ _, Delivers data)
          (λ _, bytes "REQ").

(** One connection with an empty buffer. *)
Definition one_conn : state := add_conn 7 (initial_state x00).

(** A request line that fills the buffer exactly. *)
Definition full_line : list byte :=
  bytes "GET /plan?0" ++ [x0a] ++ replicate (BUFLEN - 12) x61.

(** The turns that lead to a reused block: a client is accepted and sends
    [BUFLEN] bytes without a terminator, its next read returns 0 and the
    slot is removed, then a second client is accepted into the same slot. *)
Definition reuse_turns : list poll_env :=
  [env_accept 7; env_data 0 (replicate BUFLEN x61); env_data 0 [x61];
   env_accept 8].

Definition reused_slot : state :=
  default (initial_state x00) (run LittleEndian reuse_turns (initial_state x00)).

(** A request line whose verb and resource are separated by a tab. *)
Definition tab_line : list byte :=
  bytes "GET" ++ [x09] ++ bytes "/plan?x HTTP/1.0".

(** One connection whose buffer holds [tab_line], complete. *)
Definition tab_line_ready : state :=
  (read_input 0 (Delivers (tab_line ++ [x0a])) one_conn).2.

(** One connection whose buffer holds a complete, well-formed line. *)
Definition get_line : list byte := bytes "GET /plan?from=A&to=B HTTP/1.0".

Definition get_line_ready : state :=
  (read_input 0 (Delivers (get_line ++ [x0d; x0a])) one_conn).2.

(** A turn in which everything is ready: the broker has a reply for
    descriptor 9, a client (descriptor 13) is waiting to be accepted, and
    connection 0 delivers a complete, well-formed line. *)
Definition busy_turn : poll_env :=
  PollEnv 3 ZMQ_POLLIN ZMQ_POLLIN [ZMQ_POLLIN; 0%Z; 0%Z]
          [uint32_bytes LittleEndian 9; bytes "route"] 13
          (λ _, Delivers (get_line ++ [x0a])) (λ _, bytes "REQ").

(** ** Further vocabulary: the table as a list, the store, the budget *)

(** The open connections in table order, each with its poll item and its
    buffer struct. *)
Definition active (st : state) : list (zmq_pollitem_t * buffer) :=
  take (n_conn st) (zip (conn_items st) (buffers st)).

(** The buffer pool: [MAX_CONN] blocks of [BUFLEN] bytes, every buffer
    struct pointing to a block of its own, with a size within the block. *)
Record store_ok (st : state) : Prop := StoreOk {
  ok_heap : length (heap st) = MAX_CONN;
  ok_blocks : Forall (λ m, length m = BUFLEN) (heap st);
  ok_owned : NoDup (map buf (buffers st));
  ok_bufs : Forall (λ b, buf b < MAX_CONN ∧ (size b ≤ BUFLEN)%Z) (buffers st)
}.

(** The buffers of the slots beyond the open connections are empty. *)
Definition inactive_empty (st : state) : Prop :=
  ∀ i b, n_conn st ≤ i → buffers st !! i = Some b → size b = 0%Z.

(** No buffer counts less than nothing. *)
Definition sizes_nonneg (st : state) : Prop :=
  Forall (λ b, (0 ≤ size b)%Z) (buffers st).

(** A turn in which no [recv] fails. *)
Definition delivering (env : poll_env) : Prop := ∀ c, incoming env c ≠ Fails.

(** The number of [recv] calls in a stretch of the log. *)
Definition is_recv (e : event) : bool :=
  match e with EvRecv _ _ | EvRecvFailed _ => true | _ => false end.

Fixpoint recv_count (l : list event) : nat :=
  match l with
  | [] => 0
  | e :: l' => (if is_recv e then 1 else 0) + recv_count l'
  end.

(** The number of [revents] that report input. *)
Fixpoint ready_count (rs : list Z) : Z :=
  match rs with
  | [] => 0
  | r :: rs' =>
      ((if decide (Z.land r ZMQ_POLLIN ≠ 0) then 1 else 0) + ready_count rs')%Z
  end.

(** What the first two handlers of a turn take from the count that
    [zmq_poll] returned. *)
Definition broker_share (env : poll_env) : Z :=
  if decide (Z.land (broker_revents env) ZMQ_POLLIN ≠ 0%Z) then 1%Z else 0%Z.

Definition http_share (env : poll_env) (st : state) : Z :=
  let http_events := if decide (n_conn st < MAX_CONN) then ZMQ_POLLIN else 0%Z in
  if decide (Z.land (Z.land (http_revents env) http_events) ZMQ_POLLIN ≠ 0%Z)
  then 1%Z else 0%Z.

(** A turn in which only connection 0 is ready: its socket delivers [data],
    and [req] is the request built if the line is forwarded. *)
Definition env_line (data req : list byte) : poll_env :=
  PollEnv 1 0 0 [ZMQ_POLLIN] [] (-1) (λ _, Delivers data) (λ _, req).

(** A turn in which only the broker socket is ready, with message [msg]. *)
Definition env_reply (msg : list (list byte)) : poll_env :=
  PollEnv 1 ZMQ_POLLIN 0 [] msg (-1) (λ _, Delivers []) (λ _, []).

(** The turns that leave a line feed behind in a block: a client sends a
    byte and two line feeds (the scan stops at the first one), is answered
    and removed, and a second client is accepted into the same slot. *)
Definition stale_turns : list poll_env :=
  [env_accept 7; env_data 0 (bytes "a" ++ [x0a; x0a]); env_accept 8].

Definition stale_slot : state :=
  default (initial_state x00) (run LittleEndian stale_turns (initial_state x00)).

(** Two turns after which the server is idle again: a client is accepted,
    sends a byte and two line feeds, is answered and removed.  Its block
    keeps what it sent. *)
Definition served_turns : list poll_env :=
  [env_accept 7; env_data 0 (bytes "a" ++ [x0a; x0a])].

Definition idle_again : state :=
  default (initial_state x00) (run LittleEndian served_turns (initial_state x00)).

(** * Properties *)

(** ** The connection table *)

Lemma initial_state_ok fill : table_ok (initial_state fill).
Proof.
  unfold initial_state.
  split; cbn [conn_items buffers conn_remove_queue n_conn].
  - apply length_replicate.
  - by rewrite length_map, length_seq.
  - apply length_replicate.
  - lia.
Qed.

Lemma add_conn_ok sd st : table_ok st → table_ok (add_conn sd st).
Proof.
  intros [Hi Hb Hq Hn]. unfold add_conn.
  case_decide; [|by split].
  split; simpl; rewrite ?length_insert; lia.
Qed.

Lemma remove_conn_ok nc st : table_ok st → table_ok (remove_conn nc st).2.
Proof.
  intros [Hi Hb Hq Hn]. unfold remove_conn.
  case_decide; [by split|].
  split; simpl; rewrite ?length_insert; lia.
Qed.

Lemma apply_op_ok op st : table_ok st → table_ok (apply_op st op).
Proof. destruct op; [apply add_conn_ok | apply remove_conn_ok]. Qed.

Create HintDb table discriminated.
#[global] Hint Resolve initial_state_ok add_conn_ok remove_conn_ok apply_op_ok : table.

Lemma run_ops_ok ops st : table_ok st → table_ok (foldl apply_op st ops).
Proof.
  revert st. induction ops as [|op ops IH]; intros st Hst; [done|].
  simpl. apply IH. auto with table.
Qed.

(** C8.  Whatever sequence of additions and removals is applied to a
    well-formed table, the number of open connections stays between 0 and
    [MAX_CONN].  Below capacity, [add_conn] stores the descriptor at index
    [n_conn] as a plain socket polled for input and increments the count,
    leaving the other slots and the buffers alone; at capacity it changes
    nothing. *)
Theorem table_count_within_capacity (ops : list table_op) (st : state) (sd : Z) :
  table_ok st →
  let st' := foldl apply_op st ops in
  0 ≤ n_conn st' ≤ MAX_CONN ∧
  (n_conn st' < MAX_CONN →
     n_conn (add_conn sd st') = n_conn st' + 1 ∧
     (∃ it, conn_items (add_conn sd st') !! n_conn st' = Some it ∧
            fd it = sd ∧ events it = POLLIN ∧ socket it = 0%Z) ∧
     (∀ i, i ≠ n_conn st' →
        conn_items (add_conn sd st') !! i = conn_items st' !! i) ∧
     buffers (add_conn sd st') = buffers st') ∧
  (n_conn st' = MAX_CONN → add_conn sd st' = st').
Proof.
  intros Hst st'.
  assert (Hok : table_ok st') by by apply run_ops_ok.
  destruct Hok as [Hi Hb Hq Hn].
  split; [lia|]. split.
  - intros Hlt. unfold add_conn. rewrite decide_True by done. simpl.
    repeat split.
    + eexists. split; [apply list_lookup_insert_eq; lia|]. done.
    + intros i Hne. by apply list_lookup_insert_ne.
  - intros Heq. unfold add_conn. rewrite decide_False by lia. done.
Qed.

(** C7, as amended.  [remove_conn] on an index outside the active range
    returns false and changes nothing.  On an active index [nc] it returns
    true and the count drops by exactly one; slot [nc] receives the poll
    item (descriptor, interest) of the formerly last slot and, when [nc] is
    not that slot, its buffer struct as well; the slot that was last ends
    up with the block [nc] had and size zero.  This reset happens also when
    [nc] is the last slot itself.  Nothing else changes. *)
Theorem remove_conn_swap_delete (nc : nat) (st : state) :
  table_ok st →
  (n_conn st ≤ nc → remove_conn nc st = (false, st)) ∧
  (nc < n_conn st →
     let last := n_conn st - 1 in
     let st' := (remove_conn nc st).2 in
     (remove_conn nc st).1 = true ∧
     n_conn st = S (n_conn st') ∧
     conn_items st' !! nc = conn_items st !! last ∧
     (∀ i, i ≠ nc → conn_items st' !! i = conn_items st !! i) ∧
     (nc ≠ last → buffers st' !! nc = buffers st !! last) ∧
     buffers st' !! last = Some (Buffer (buf (buffers st !!! nc)) 0%Z) ∧
     (∀ i, i ≠ nc → i ≠ last → buffers st' !! i = buffers st !! i) ∧
     heap st' = heap st ∧
     conn_remove_queue st' = conn_remove_queue st ∧
     conn_remove_n st' = conn_remove_n st ∧
     log st' = log st).
Proof.
  intros [Hi Hb Hq Hn]. split.
  - intros Hge. unfold remove_conn. by rewrite decide_True.
  - intros Hlt last st'. subst st'. unfold remove_conn.
    rewrite decide_False by lia. fold last. cbn [fst snd n_conn conn_items buffers heap conn_remove_queue conn_remove_n log].
    assert (Hlast : last < MAX_CONN) by (unfold last; lia).
    repeat split.
    + unfold last. lia.
    + rewrite list_lookup_insert_eq by lia.
      symmetry. apply list_lookup_lookup_total_lt. lia.
    + intros i Hne. by rewrite list_lookup_insert_ne.
    + intros Hne.
      rewrite !list_lookup_insert_ne by done.
      rewrite list_lookup_insert_eq by lia.
      symmetry. apply list_lookup_lookup_total_lt. lia.
    + rewrite list_lookup_insert_eq by (rewrite !length_insert; lia).
      rewrite list_lookup_total_insert_eq by (rewrite !length_insert; lia).
      done.
    + intros i Hnc Hl. by rewrite !list_lookup_insert_ne.
Qed.

(** C7 (counterexample).  One connection is open and its buffer holds five
    bytes.  Removing it, the last active slot, does more than decrement the
    count: the size of its buffer is reset to zero. *)
Lemma remove_last_resets_size :
  n_conn one_conn_partial = 1 ∧
  size (buffers one_conn_partial !!! 0) = 5%Z ∧
  (remove_conn 0 one_conn_partial).1 = true ∧
  size (buffers (remove_conn 0 one_conn_partial).2 !!! 0) = 0%Z ∧
  (remove_conn 0 one_conn_partial).2 ≠ set_n_conn 0 one_conn_partial.
Proof.
  repeat split; try (vm_compute; reflexivity).
  intros Heq.
  apply (f_equal (λ s, size (buffers s !!! 0))) in Heq.
  vm_compute in Heq. discriminate.
Qed.

(** ** The removal queue *)

(** Applied to indices in strictly decreasing order, all valid, the queue
    removes every one of them. *)
Lemma remove_each_n_conn_descending (q : list nat) (st : state) :
  StronglySorted (λ a b, b < a) q →
  Forall (λ nc, nc < n_conn st) q →
  n_conn (remove_each q st) + length q = n_conn st.
Proof.
  revert st. induction q as [|nc q IH]; intros st Hs Hlt; [simpl; lia|].
  apply StronglySorted_inv in Hs as [Hs Hall].
  apply Forall_cons in Hlt as [Hnc Hlt].
  cbn [remove_each length]. unfold remove_conn. rewrite decide_False by lia.
  match goal with |- n_conn (remove_each q ?s) + _ = _ =>
    specialize (IH s Hs) end.
  cbn [emit n_conn] in IH.
  assert (Hq : Forall (λ x, x < n_conn st - 1) q).
  { eapply Forall_impl; [apply Hall|]. cbn beta. lia. }
  specialize (IH Hq). lia.
Qed.

(** C1 (the code departs from the claim).  Three connections are open and
    the indices 0 and 2, distinct and both valid, are enqueued in that
    order, the order in which the read loop visits them.  [remove_conn 0]
    moves connection 2 into slot 0 and shrinks the table to two entries, so
    [remove_conn 2] fails its range check: the count drops by one, not two,
    and the connection with descriptor 12 stays in the table.  Enqueued in
    the order 2, 0 the same indices are both removed. *)
Theorem remove_conn_enqueued_skips_swapped_slot :
  let st := enqueue_all [0; 2] three_conns in
  n_conn st = 3 ∧ pending st = [0; 2] ∧
  n_conn (remove_conn_enqueued st) = 2 ∧
  map fd (take 2 (conn_items (remove_conn_enqueued st))) = [12; 11]%Z ∧
  n_conn (remove_conn_enqueued (enqueue_all [2; 0] three_conns)) = 1.
Proof. vm_compute. repeat split; reflexivity. Qed.

(** ** The reply router *)

Lemma Z_of_byte_of_Z (d : Z) : (0 ≤ d < 256)%Z → Z_of_byte (byte_of_Z d) = d.
Proof.
  intros Hd. unfold Z_of_byte, byte_of_Z.
  rewrite Z.mod_small by lia.
  destruct (Byte.of_N (Z.to_N d)) as [b|] eqn:Hb.
  - simpl. apply Byte.to_of_N in Hb. rewrite Hb. lia.
  - apply Byte.of_N_None_iff in Hb. lia.
Qed.

(** On a little-endian machine a descriptor below 256 comes back intact. *)
Lemma route_reply_small_descriptor (d : Z) (p : list byte) (st : state) :
  (0 ≤ d < 256)%Z →
  log (route_reply [uint32_bytes LittleEndian d; p] st) =
  log st ++ [EvBrokerRecv [uint32_bytes LittleEndian d; p];
             EvSend d OK_TEXT_PLAIN; EvSend d (cstring p); EvClose d].
Proof.
  intros Hd. unfold route_reply. cbn [log emit].
  change (([uint32_bytes LittleEndian d; p] !!! 0) !!! 0) with (byte_of_Z d).
  by rewrite Z_of_byte_of_Z.
Qed.

(** C2 (the code departs from the claim).  A connection with descriptor 256
    completes a request line; [send_request] embeds the four bytes of 256
    in the broker message.  When the broker echoes that frame, the router
    reads only its first byte and writes the header and the payload to
    descriptor 0, then closes descriptor 0, in either byte order. *)
Theorem reply_router_reads_one_byte (o : byte_order) :
  let sent := send_request o 0 (bytes "REQ") conn_256_ready in
  fd (conn_items conn_256_ready !!! 0) = 256%Z ∧
  log sent = log conn_256_ready ++ [EvBrokerSend [uint32_bytes o 256; bytes "REQ"]] ∧
  log (route_reply [uint32_bytes o 256; bytes "route-xyz"] sent) =
    log sent ++ [EvBrokerRecv [uint32_bytes o 256; bytes "route-xyz"];
                 EvSend 0 OK_TEXT_PLAIN; EvSend 0 (bytes "route-xyz"); EvClose 0].
Proof. destruct o; vm_compute; repeat split; reflexivity. Qed.

(** ** Reading a request line *)

Lemma strlen_le (s : list byte) : strlen s ≤ length s.
Proof. induction s as [|c s IH]; simpl; [lia|]. case_decide; lia. Qed.

Lemma strlen_app_nul (a r : list byte) :
  x00 ∉ a → strlen (a ++ x00 :: r) = length a.
Proof.
  induction a as [|c a IH]; intros Hnot; simpl.
  - done.
  - apply not_elem_of_cons in Hnot as [Hc Ha].
    rewrite decide_False by done. by rewrite IH.
Qed.

Lemma cstring_app_nul (a r : list byte) :
  x00 ∉ a → cstring (a ++ x00 :: r) = a.
Proof.
  intros Hnot. unfold cstring. rewrite strlen_app_nul by done.
  by rewrite take_app_length.
Qed.

Lemma byte_at_nat (mem : list byte) (n : nat) : byte_at mem n = mem !!! n.
Proof. unfold byte_at. rewrite decide_True by lia. by rewrite Nat2Z.id. Qed.

Lemma poke_nat (mem : list byte) (n : nat) (v : byte) : poke mem n v = <[n := v]> mem.
Proof. unfold poke. rewrite decide_True by lia. by rewrite Nat2Z.id. Qed.

Lemma store_nat (mem : list byte) (c : nat) (data : list byte) :
  store mem c data = take c mem ++ data ++ drop (c + length data) mem.
Proof.
  unfold store. rewrite Nat2Z.id.
  replace (Z.to_nat (- c)) with 0 by lia.
  replace (Z.to_nat (c + length data)) with (c + length data) by lia.
  done.
Qed.

Lemma store_nil (mem : list byte) (c : Z) : store mem c [] = mem.
Proof.
  unfold store. cbn [length app]. rewrite drop_nil. cbn [app].
  replace (Z.to_nat (c + 0%nat)) with (Z.to_nat c) by lia.
  apply take_drop.
Qed.

Lemma length_store (mem : list byte) (c : Z) (data : list byte) :
  (c + length data ≤ length mem)%Z →
  length (store mem c data) = length mem.
Proof.
  intros Hfit. unfold store.
  rewrite !length_app, length_take, !length_drop. lia.
Qed.

Lemma scan_eol_seen_bound (mem : list byte) (c : Z) (k : nat) :
  Forall (λ p, c ≤ p < c + k)%Z (scan_eol mem c k).2.
Proof.
  revert c. induction k as [|k IH]; intros c; simpl; [constructor|].
  destruct (is_eol (byte_at mem c)); simpl.
  - constructor; [lia|constructor].
  - specialize (IH (c + 1)%Z).
    destruct (scan_eol mem (c + 1) k) as [found seen]. simpl in *.
    constructor; [lia|]. eapply Forall_impl; [apply IH|]. simpl. lia.
Qed.

Lemma scan_eol_found_seen (mem : list byte) (c : Z) (k : nat) (e : Z) :
  (scan_eol mem c k).1 = Some e → e ∈ (scan_eol mem c k).2.
Proof.
  revert c. induction k as [|k IH]; intros c; simpl; [done|].
  destruct (is_eol (byte_at mem c)); simpl.
  - intros [= <-]. apply elem_of_cons. by left.
  - specialize (IH (c + 1)%Z).
    destruct (scan_eol mem (c + 1) k) as [found seen]. simpl in *.
    intros H. apply elem_of_cons. right. by apply IH.
Qed.

Lemma scan_eol_first (a pre rest : list byte) (t : byte) (k : nat) :
  Forall (λ c, is_eol c = false) pre →
  is_eol t = true →
  length pre < k →
  (scan_eol (a ++ pre ++ t :: rest) (length a) k).1 =
    Some (Z.of_nat (length a + length pre)).
Proof.
  revert a k. induction pre as [|x pre IH]; intros a k Hpre Ht Hk.
  - destruct k as [|k]; [simpl in Hk; lia|]. simpl.
    rewrite byte_at_nat, list_lookup_total_middle by done. rewrite Ht. simpl.
    f_equal. lia.
  - destruct k as [|k]; [simpl in Hk; lia|].
    apply Forall_cons in Hpre as [Hx Hpre]. simpl.
    rewrite byte_at_nat, list_lookup_total_middle by done. rewrite Hx.
    specialize (IH (a ++ [x]) k Hpre Ht).
    rewrite length_app in IH. simpl in IH.
    rewrite <- app_assoc in IH. simpl in IH.
    replace (Z.of_nat (length a) + 1)%Z with (Z.of_nat (length a + 1)) by lia.
    destruct (scan_eol (a ++ x :: pre ++ t :: rest) (length a + 1)%nat k)
      as [found seen].
    simpl in *. rewrite IH by lia. f_equal. lia.
Qed.

Lemma insert_middle {A} (l1 l2 : list A) (x y : A) :
  <[length l1 := x]> (l1 ++ y :: l2) = l1 ++ x :: l2.
Proof.
  rewrite insert_app_r_alt by lia. by rewrite Nat.sub_diag.
Qed.

Lemma buffers_lookup_total (st : state) (nc : nat) (b : buffer) :
  buffers st !! nc = Some b → buffers st !!! nc = b.
Proof. apply list_lookup_total_correct. Qed.

(** [read_input] on a buffer that holds [sz] bytes, when [recv] does not
    fail: every offset is a position in the block or just after it. *)
Lemma read_input_delivers (nc : nat) (incoming : list byte) (st : state) (sz : nat) :
  size (buffers st !!! nc) = sz →
  read_input nc (Delivers incoming) st =
    (let b := buffers st !!! nc in
     let conn_sd := fd (conn_items st !!! nc) in
     let data := take (BUFLEN - sz) incoming in
     let received := length data in
     let mem := heap st !!! buf b in
     let mem1 := take sz mem ++ data ++ drop (sz + received) mem in
     let st1 := emit [EvRecv conn_sd received] (set_heap (λ h, <[buf b := mem1]> h) st) in
     if decide (received = 0)
     then (PeerClosed, Touched (seqZ sz received) [] [], remove_conn_later nc st1)
     else
       let st2 :=
         set_buffers (λ bs, <[nc := Buffer (buf b) (sz + received)%nat]> bs) st1 in
       if decide (BUFLEN ≤ sz + received)
       then (Overflow, Touched (seqZ sz received) [] [], st2)
       else
         let t := Touched (seqZ sz received)
                          (str_reads mem1 sz ++ str_reads mem1 0)
                          (scan_eol mem1 sz (received + 1)).2 in
         match (scan_eol mem1 sz (received + 1)).1 with
         | Some e =>
             (LineComplete, t, set_heap (λ h, <[buf b := poke mem1 e x00]> h) st2)
         | None => (NeedMore, t, st2)
         end).
Proof.
  intros Hsz. unfold read_input. rewrite Hsz. cbv zeta.
  replace (Z.to_nat (BUFLEN - sz)) with (BUFLEN - sz) by lia.
  set (data := take (BUFLEN - sz) incoming).
  set (b := buffers st !!! nc).
  rewrite store_nat.
  replace (sz + length data)%Z with (Z.of_nat (sz + length data)) by lia.
  replace (Z.to_nat (length data + 1)) with (length data + 1) by lia.
  destruct (decide (length data = 0)) as [Hz|Hnz].
  - by rewrite decide_True by lia.
  - rewrite decide_False by lia.
    destruct (decide (BUFLEN ≤ sz + length data)).
    + by rewrite decide_True by lia.
    + by rewrite decide_False by lia.
Qed.

(** [read_input] when [recv] fails: nothing is stored and nothing is
    enqueued, [size] goes down by one, and the scan inspects nothing. *)
Lemma read_input_fails (nc : nat) (st : state) :
  read_input nc Fails st =
    (let b := buffers st !!! nc in
     let conn_sd := fd (conn_items st !!! nc) in
     let mem := heap st !!! buf b in
     let st2 :=
       set_buffers (λ bs, <[nc := Buffer (buf b) (size b - 1)]> bs)
         (emit [EvRecvFailed conn_sd] (set_heap (λ h, <[buf b := mem]> h) st)) in
     if decide (BUFLEN ≤ size b - 1)%Z
     then (Overflow, Touched [] [] [], st2)
     else (NeedMore, Touched [] (str_reads mem (size b) ++ str_reads mem 0) [], st2)).
Proof.
  unfold read_input. cbv zeta. rewrite store_nil.
  rewrite decide_False by done.
  replace (size (buffers st !!! nc) + -1)%Z with (size (buffers st !!! nc) - 1)%Z by lia.
  by destruct (decide _).
Qed.

(** C5, as amended.  A buffer holds [size b] accumulated bytes and a read
    is made.  If the bytes the socket delivers reach the capacity, the
    read yields [Overflow], whether or not a terminator is among them.  If
    the size stays below the capacity and a delivered byte is a line feed or
    a carriage return, the read yields [LineComplete], the first such byte
    is replaced by NUL, and the request line (the C string at the start of
    the block) is exactly the accumulated bytes before it, provided these
    hold no NUL byte. *)
Theorem read_input_line_accumulation
    (nc : nat) (incoming : list byte) (st : state) (b : buffer) (mem : list byte) :
  buffers st !! nc = Some b →
  heap st !! buf b = Some mem →
  length mem = BUFLEN →
  (0 ≤ size b < BUFLEN)%Z →
  incoming ≠ [] →
  ((BUFLEN ≤ size b + length incoming)%Z →
     (read_input nc (Delivers incoming) st).1.1 = Overflow) ∧
  (∀ pre t post,
     incoming = pre ++ t :: post →
     Forall (λ c, is_eol c = false) pre →
     is_eol t = true →
     (size b + length incoming < BUFLEN)%Z →
     let st' := (read_input nc (Delivers incoming) st).2 in
     let acc := take (Z.to_nat (size b)) mem ++ pre in
     let mem' :=
       acc ++ x00 :: post ++ drop (Z.to_nat (size b) + length incoming) mem in
     (read_input nc (Delivers incoming) st).1.1 = LineComplete ∧
     buffers st' !! nc = Some (Buffer (buf b) (size b + length incoming)) ∧
     heap st' !! buf b = Some mem' ∧
     (x00 ∉ acc → cstring mem' = acc)).
Proof.
  intros Hb Hmem Hlen Hsize Hne.
  assert (Hnc : nc < length (buffers st)) by (by eapply lookup_lt_Some).
  assert (Hblk : buf b < length (heap st)) by (by eapply lookup_lt_Some).
  pose proof (buffers_lookup_total _ _ _ Hb) as Hbt.
  assert (Hsz : size (buffers st !!! nc) = Z.to_nat (size b)) by (rewrite Hbt; lia).
  set (sz := Z.to_nat (size b)) in *.
  rewrite (read_input_delivers nc incoming st sz Hsz), Hbt.
  split.
  - intros Hover. cbv zeta.
    assert (Hrec : length (take (BUFLEN - sz) incoming) = BUFLEN - sz)
      by (rewrite length_take; lia).
    rewrite Hrec.
    rewrite decide_False by lia. rewrite decide_True by lia. done.
  - intros pre t post Hinc Hpre Ht Hfit st' acc mem'. subst st'. cbv zeta.
    rewrite (list_lookup_total_correct _ _ _ Hmem).
    rewrite take_ge by lia.
    assert (Hpos : length incoming ≠ 0) by (by destruct incoming).
    rewrite decide_False by done. rewrite decide_False by lia.
    assert (Hscan :
      (scan_eol (take sz mem ++ incoming ++ drop (sz + length incoming) mem)
                sz (length incoming + 1)).1 = Some (Z.of_nat (length acc))).
    { subst acc. rewrite length_app, length_take, Nat.min_l by lia.
      rewrite Hinc, <- app_assoc.
      pose proof (scan_eol_first (take sz mem) pre
        (post ++ drop (sz + length (pre ++ t :: post)) mem) t
        (length (pre ++ t :: post) + 1) Hpre Ht) as Hs.
      rewrite length_take, Nat.min_l in Hs by lia.
      simpl. simpl in Hs. apply Hs. rewrite length_app. simpl. lia. }
    rewrite Hscan. cbn [fst snd buffers heap set_heap set_buffers emit].
    rewrite poke_nat.
    repeat split.
    + rewrite list_lookup_insert_eq by done. do 2 f_equal. lia.
    + rewrite list_insert_insert_eq.
      rewrite list_lookup_insert_eq by done. f_equal.
      subst mem' acc. rewrite Hinc.
      replace (take sz mem ++ (pre ++ t :: post) ++
               drop (sz + length (pre ++ t :: post)) mem)
        with ((take sz mem ++ pre) ++ t :: post ++
               drop (sz + length (pre ++ t :: post)) mem)
        by (by rewrite <- !app_assoc).
      apply insert_middle.
    + intros Hnul. subst mem'. by apply cstring_app_nul.
Qed.

(** A read that asks for more has appended what the socket delivered to
    the accumulated bytes: the accumulated bytes of the next read are those
    of this one followed by [incoming]. *)
Lemma read_input_need_more_appends
    (nc : nat) (incoming : list byte) (st : state) (b : buffer) (mem : list byte) :
  buffers st !! nc = Some b →
  heap st !! buf b = Some mem →
  length mem = BUFLEN →
  (0 ≤ size b)%Z →
  (size b + length incoming < BUFLEN)%Z →
  let r := read_input nc (Delivers incoming) st in
  r.1.1 = NeedMore →
  buffers r.2 !! nc = Some (Buffer (buf b) (size b + length incoming)) ∧
  ∃ mem', heap r.2 !! buf b = Some mem' ∧
          length mem' = BUFLEN ∧
          take (Z.to_nat (size b) + length incoming) mem' =
            take (Z.to_nat (size b)) mem ++ incoming.
Proof.
  intros Hb Hmem Hlen Hpos Hfit r. subst r.
  assert (Hnc : nc < length (buffers st)) by (by eapply lookup_lt_Some).
  assert (Hblk : buf b < length (heap st)) by (by eapply lookup_lt_Some).
  pose proof (buffers_lookup_total _ _ _ Hb) as Hbt.
  assert (Hsz : size (buffers st !!! nc) = Z.to_nat (size b)) by (rewrite Hbt; lia).
  set (sz := Z.to_nat (size b)) in *.
  rewrite (read_input_delivers nc incoming st sz Hsz), Hbt. cbv zeta.
  rewrite (list_lookup_total_correct _ _ _ Hmem).
  rewrite take_ge by lia.
  case_decide; [done|]. case_decide; [done|].
  destruct (scan_eol _ _ _).1; [done|]. intros _.
  cbn [fst snd buffers heap set_heap set_buffers emit].
  split; [rewrite list_lookup_insert_eq by done; do 2 f_equal; lia|].
  eexists. split; [by apply list_lookup_insert_eq|]. split.
  - rewrite !length_app, length_take, length_drop. lia.
  - rewrite app_assoc.
    apply take_app_length'. rewrite length_app, length_take. lia.
Qed.

(** ** Frame properties of the two handlers *)

(** [send_request] rewrites the block of the connection, emits either the
    broker message or the 404 reply and the close, and enqueues the
    connection, once, on every path. *)
Lemma send_request_effect (o : byte_order) (nc : nat) (req : list byte) (st : state) :
  let sd := (fd (conn_items st !!! nc) mod 2 ^ 32)%Z in
  ∃ evs mem',
    send_request o nc req st =
      remove_conn_later nc
        (emit evs (set_heap (λ h, <[buf (buffers st !!! nc) := mem']> h) st)) ∧
    (evs = forward_events o sd req ∨ evs = reject_events sd).
Proof.
  intros sd. unfold send_request, send_request_cleanup. fold sd.
  destruct (strtok (heap st !!! buf (buffers st !!! nc)) 0) as [[tok mem1] save1].
  destruct tok as [token|]; [|eexists _, _; split; [reflexivity|by right]].
  case_decide; [|eexists _, _; split; [reflexivity|by right]].
  destruct (strtok mem1 save1) as [[tok2 mem2] save2].
  destruct tok2 as [resource|]; [|eexists _, _; split; [reflexivity|by right]].
  destruct (index (drop resource mem2) x3f) as [q|];
    [|eexists _, _; split; [reflexivity|by right]].
  case_decide; eexists _, _; (split; [reflexivity|]); [by right|by left].
Qed.

(** [read_input] performs one [recv]; it enqueues the connection exactly
    when that returned 0, and leaves the table itself alone. *)
Lemma read_input_effect (nc : nat) (input : recv_outcome) (st : state) :
  let r := read_input nc input st in
  let sd := fd (conn_items st !!! nc) in
  ∃ ev,
    log r.2 = log st ++ [ev] ∧
    match input with
    | Delivers _ => ∃ received, ev = EvRecv sd received
    | Fails => ev = EvRecvFailed sd
    end ∧
    conn_items r.2 = conn_items st ∧
    n_conn r.2 = n_conn st ∧
    length (buffers r.2) = length (buffers st) ∧
    (if decide (r.1.1 = PeerClosed)
     then conn_remove_queue r.2 = <[conn_remove_n st := nc]> (conn_remove_queue st) ∧
          conn_remove_n r.2 = conn_remove_n st + 1
     else conn_remove_queue r.2 = conn_remove_queue st ∧
          conn_remove_n r.2 = conn_remove_n st).
Proof.
  intros r sd. subst r. unfold read_input. fold sd.
  eexists.
  repeat case_decide;
    try destruct (scan_eol _ _ _).1;
    cbn [fst snd log conn_items n_conn buffers conn_remove_queue conn_remove_n
         emit set_heap set_buffers remove_conn_later];
    rewrite ?length_insert; (split; [reflexivity|]);
    (split; [destruct input; [by eexists|done]|]); repeat split; try done.
Qed.

(** ** The read phase and the removal queue *)

Lemma pending_remove_conn_later (nc : nat) (st : state) :
  conn_remove_n st < length (conn_remove_queue st) →
  pending (remove_conn_later nc st) = pending st ++ [nc].
Proof.
  intros Hlt. unfold pending, remove_conn_later.
  cbn [conn_remove_n conn_remove_queue].
  rewrite Nat.add_1_r.
  erewrite take_S_r by (by apply list_lookup_insert_eq).
  by rewrite take_insert_ge by lia.
Qed.

Lemma conn_event_effect (o : byte_order) (c : nat) (data : recv_outcome) (req : list byte) (st : state) :
  let r := read_input c data st in
  let st2 := conn_event o c data req st in
  conn_items st2 = conn_items st ∧
  n_conn st2 = n_conn st ∧
  length (conn_remove_queue st2) = length (conn_remove_queue st) ∧
  (∃ evs, log st2 = log st ++ evs ∧ Forall (λ e, is_conn_event e = true) evs) ∧
  (conn_remove_n st < length (conn_remove_queue st) →
     pending r.2 = pending st ++ (if decide (r.1.1 = PeerClosed) then [c] else []) ∧
     pending st2 =
       pending st ++
       (if decide (r.1.1 = PeerClosed ∨ r.1.1 = LineComplete) then [c] else []) ∧
     conn_remove_n st2 ≤ conn_remove_n st + 1).
Proof.
  intros r st2. subst st2. unfold conn_event. fold r.
  destruct (read_input_effect c data st) as (ev & Hlog & Hev & Hitems & Hn & Hlen & Hq).
  assert (Hevc : is_conn_event ev = true).
  { destruct data; [by destruct Hev as [? ->]|by rewrite Hev]. }
  fold r in Hlog, Hitems, Hn, Hlen, Hq.
  destruct (send_request_effect o c req r.2) as (evs & mem' & Hsend & Hevs).
  assert (Hpr : conn_remove_n st < length (conn_remove_queue st) →
      pending r.2 = pending st ++ (if decide (r.1.1 = PeerClosed) then [c] else [])).
  { intros Hroom. destruct (decide (r.1.1 = PeerClosed)) as [Hpc|Hpc].
    - destruct Hq as [Hq1 Hq2]. unfold pending at 1. rewrite Hq1, Hq2.
      by apply (pending_remove_conn_later c st).
    - destruct Hq as [Hq1 Hq2]. unfold pending. rewrite Hq1, Hq2.
      by rewrite app_nil_r. }
  destruct (decide (r.1.1 = LineComplete)) as [Hlc|Hlc].
  - rewrite Hlc in *. cbn [read_status_ret]. rewrite Hsend.
    rewrite decide_False in Hq by done. destruct Hq as [Hq1 Hq2].
    cbn [conn_items n_conn conn_remove_queue conn_remove_n log
         remove_conn_later emit set_heap].
    rewrite length_insert.
    split_and!; [done|done|by rewrite Hq1| |].
    + exists (ev :: evs).
      rewrite Hlog, <- app_assoc. split; [done|].
      constructor; [done|]. destruct Hevs as [->| ->]; by repeat constructor.
    + intros Hroom. split_and!; [by apply Hpr| |lia].
      rewrite decide_True by (by right).
      specialize (Hpr Hroom). rewrite decide_False in Hpr by done.
      rewrite app_nil_r in Hpr. rewrite <- Hpr.
      apply (pending_remove_conn_later c
        (emit evs (set_heap (λ h, <[buf (buffers r.2 !!! c):=mem']> h) r.2))).
      cbn [conn_remove_queue conn_remove_n emit set_heap]. rewrite Hq1, Hq2. done.
  - assert (Hret : read_status_ret r.1.1 = false) by (by destruct (r.1.1)).
    rewrite Hret.
    split_and!; [done|done| | |].
    + destruct (decide (r.1.1 = PeerClosed)); destruct Hq as [Hq1 Hq2];
        rewrite Hq1; by rewrite ?length_insert.
    + eexists. split; [done|]. by repeat constructor.
    + intros Hroom. split_and!; [by apply Hpr| |].
      * rewrite (Hpr Hroom).
        destruct (decide (r.1.1 = PeerClosed)) as [Hpc|Hpc].
        -- rewrite decide_True by (by left). done.
        -- rewrite decide_False by (by intros [|]). done.
      * destruct (decide (r.1.1 = PeerClosed)); destruct Hq as [Hq1 Hq2]; lia.
Qed.

(** The bound [n_conn st - c] on the turns of the read loop is never the
    reason it stops: more fuel gives the same result. *)
Lemma read_loop_fuel_enough (o : byte_order) (env : poll_env) (k c : nat) (nw : Z)
    (st : state) :
  n_conn st - c ≤ k →
  read_loop o env k c nw st = read_loop o env (n_conn st - c) c nw st.
Proof.
  revert c nw st. induction k as [|k IH]; intros c nw st Hk.
  - by replace (n_conn st - c) with 0 by lia.
  - cbn [read_loop]. destruct (n_conn st - c) as [|m] eqn:Hm.
    + cbn [read_loop]. rewrite decide_False by lia. done.
    + cbn [read_loop]. case_decide; [|done].
      pose proof (conn_event_effect o c (incoming env c) (request env c) st)
        as (_ & Hn & _).
      case_decide.
      * rewrite IH by lia. f_equal. lia.
      * rewrite IH by lia. f_equal. lia.
Qed.

Lemma read_loop_invariant (o : byte_order) (env : poll_env) (k c : nat) (nw : Z)
    (st : state) :
  length (conn_remove_queue st) = MAX_CONN →
  n_conn st ≤ MAX_CONN →
  conn_remove_n st ≤ c →
  Forall (λ x, x < c ∧ x < n_conn st) (pending st) →
  NoDup (pending st) →
  let st' := read_loop o env k c nw st in
  conn_items st' = conn_items st ∧
  n_conn st' = n_conn st ∧
  length (conn_remove_queue st') = MAX_CONN ∧
  (∃ evs, log st' = log st ++ evs ∧ Forall (λ e, is_conn_event e = true) evs) ∧
  NoDup (pending st') ∧
  Forall (λ x, x < n_conn st) (pending st').
Proof.
  revert c nw st. induction k as [|k IH]; intros c nw st Hlen Hn Hq Hall Hnd.
  - cbn [read_loop]. split_and!; try done.
    + exists []. by rewrite app_nil_r.
    + eapply Forall_impl; [apply Hall|]. cbn beta. lia.
  - cbn [read_loop]. case_decide as Hguard.
    2:{ split_and!; try done.
        + exists []. by rewrite app_nil_r.
        + eapply Forall_impl; [apply Hall|]. cbn beta. lia. }
    destruct Hguard as [Hc Hnw].
    case_decide as Hready.
    2:{ apply IH; try done; [lia|].
        eapply Forall_impl; [apply Hall|]. cbn beta. lia. }
    pose proof (conn_event_effect o c (incoming env c) (request env c) st)
      as (Hitems & Hn' & Hlen' & (evs & Hlog & Hevs) & Hpend).
    destruct Hpend as (_ & Hpend & Hcount); [lia|].
    set (st2 := conn_event o c (incoming env c) (request env c) st) in *.
    destruct (IH (c + 1) (nw - 1)%Z st2) as (Hi & Hn2 & Hl2 & (evs2 & Hlog2 & Hevs2) & Hnd2 & Hall2).
    + lia.
    + lia.
    + lia.
    + rewrite Hpend, Hn'. apply Forall_app. split.
      * eapply Forall_impl; [apply Hall|]. cbn beta. lia.
      * case_decide; repeat constructor; lia.
    + rewrite Hpend. apply NoDup_app. split_and!; [done| |].
      * intros x Hx Hx'. rewrite Forall_forall in Hall.
        apply Hall in Hx. case_decide; [|by apply elem_of_nil in Hx'].
        apply list_elem_of_singleton in Hx'. lia.
      * case_decide; [apply NoDup_singleton|apply NoDup_nil_2].
    + split_and!; try congruence.
      * exists (evs ++ evs2). rewrite Hlog2, Hlog, <- app_assoc. split; [done|].
        by apply Forall_app.
      * by rewrite <- Hn'.
Qed.

Lemma conn_event_buffers_length
    (o : byte_order) (c : nat) (data : recv_outcome) (req : list byte) (st : state) :
  length (buffers (conn_event o c data req st)) = length (buffers st).
Proof.
  unfold conn_event.
  destruct (read_input_effect c data st) as (_ & _ & _ & _ & _ & Hlen & _).
  destruct (send_request_effect o c req (read_input c data st).2)
    as (evs & mem' & Hsend & _).
  destruct (read_status_ret _); [|done]. by rewrite Hsend.
Qed.

Lemma read_loop_buffers_length
    (o : byte_order) (env : poll_env) (k c : nat) (nw : Z) (st : state) :
  length (buffers (read_loop o env k c nw st)) = length (buffers st).
Proof.
  revert c nw st. induction k as [|k IH]; intros c nw st; cbn [read_loop]; [done|].
  repeat case_decide; rewrite ?IH; try done.
  apply conn_event_buffers_length.
Qed.

Lemma store_revents_length (rs : list Z) (items : list zmq_pollitem_t) :
  length (store_revents rs items) = length items.
Proof.
  revert items. induction rs as [|r rs IH]; intros [|it items]; cbn; try done.
  by rewrite IH.
Qed.

Lemma emit_ok (es : list event) (st : state) : table_ok st → table_ok (emit es st).
Proof. intros [Hi Hb Hq Hn]. by split. Qed.

Lemma store_revents_ok (rs : list Z) (st : state) :
  table_ok st → table_ok (set_conn_items (store_revents rs) st).
Proof.
  intros [Hi Hb Hq Hn].
  split; cbn [set_conn_items conn_items buffers conn_remove_queue n_conn];
    rewrite ?store_revents_length; done.
Qed.

Lemma accept_conn_ok (sd : Z) (st : state) : table_ok st → table_ok (accept_conn sd st).
Proof.
  intros Hst. unfold accept_conn.
  destruct (decide (sd < 0)%Z); [by apply emit_ok|].
  by apply add_conn_ok, emit_ok.
Qed.

Lemma accept_conn_queue (sd : Z) (st : state) :
  conn_remove_n (accept_conn sd st) = conn_remove_n st ∧
  conn_remove_queue (accept_conn sd st) = conn_remove_queue st.
Proof.
  unfold accept_conn. destruct (decide (sd < 0)%Z); [done|].
  unfold add_conn. by destruct (decide _).
Qed.

(** The state in which the read loop of a turn starts: the table is still
    well formed and the removal queue is as the turn found it. *)
Lemma handlers_entry (o : byte_order) (env : poll_env) (st : state) :
  ∃ nw2 st2,
    handlers o env st = read_loop o env (n_conn st2) 0 nw2 st2 ∧
    (table_ok st → table_ok st2) ∧
    conn_remove_n st2 = conn_remove_n st ∧
    conn_remove_queue st2 = conn_remove_queue st.
Proof.
  unfold handlers.
  set (st0 := set_conn_items _ st).
  assert (Hok0 : table_ok st → table_ok st0) by apply store_revents_ok.
  destruct (broker_step env (n_waiting env) st0) as [nw1 st1] eqn:Hb.
  assert (H1 : (table_ok st → table_ok st1) ∧
               conn_remove_n st1 = conn_remove_n st ∧
               conn_remove_queue st1 = conn_remove_queue st).
  { unfold broker_step in Hb.
    destruct (decide (Z.land (broker_revents env) ZMQ_POLLIN ≠ 0%Z));
      inversion Hb; subst; (split; [|done]); intros Hst.
    - by apply emit_ok, Hok0.
    - by apply Hok0. }
  destruct H1 as (Hok1 & Hn1 & Hq1).
  destruct (http_step env _ nw1 st1) as [nw2 st2] eqn:Hh.
  exists nw2, st2. split; [done|].
  unfold http_step in Hh.
  match type of Hh with (if ?d then _ else _) = _ => destruct d end;
    inversion Hh; subst.
  - destruct (accept_conn_queue (client_socket env) st1) as [Hn2 Hq2].
    split; [|by rewrite Hn2, Hq2].
    intros Hst. by apply accept_conn_ok, Hok1.
  - by split.
Qed.

(** Every turn hands a well-formed table and an empty queue to the next. *)
Lemma iteration_ok (o : byte_order) (env : poll_env) (st st' : state) :
  table_ok st → conn_remove_n st = 0 →
  iteration o env st = Some st' →
  table_ok st' ∧ conn_remove_n st' = 0.
Proof.
  intros Hst Hq. unfold iteration. case_decide; [done|]. intros [= <-].
  split; [|done].
  destruct (handlers_entry o env st) as (nw2 & st2 & Hh & Hok & Hn & Hqq).
  specialize (Hok Hst). destruct Hok as [Hi Hb Hql Hnc].
  destruct (read_loop_invariant o env (n_conn st2) 0 nw2 st2)
    as (Hitems & Hn' & Hlen & _); try done.
  { lia. }
  { unfold pending. rewrite Hn, Hq. constructor. }
  { unfold pending. rewrite Hn, Hq. constructor. }
  assert (Hh_ok : table_ok (handlers o env st)).
  { rewrite Hh. split; [by rewrite Hitems|by rewrite read_loop_buffers_length|done|lia]. }
  unfold remove_conn_enqueued.
  assert (Hre : ∀ q s, table_ok s → table_ok (remove_each q s)).
  { induction q as [|nc q IH]; intros s Hs; cbn [remove_each]; [done|].
    pose proof (remove_conn_ok nc s Hs) as Hs'.
    destruct (remove_conn nc s) as [ok s']. apply IH.
    destruct Hs'. by split. }
  destruct (Hre (take (conn_remove_n (handlers o env st))
                   (conn_remove_queue (handlers o env st))) _ Hh_ok).
  by split.
Qed.

Lemma run_ok (o : byte_order) (envs : list poll_env) (st st' : state) :
  table_ok st → conn_remove_n st = 0 →
  run o envs st = Some st' →
  table_ok st' ∧ conn_remove_n st' = 0.
Proof.
  revert st. induction envs as [|env envs IH]; intros st Hst Hq; cbn [run].
  - by intros [= <-].
  - destruct (iteration o env st) as [st1|] eqn:Hit; [|done].
    destruct (iteration_ok o env st st1 Hst Hq Hit). by apply IH.
Qed.

(** C4.  One read event enqueues its connection at most once:
    [read_input] enqueues it exactly when the peer has closed, and then
    returns false, so [send_request] is not called; when [send_request] is
    called, [read_input] has enqueued nothing and [send_request] enqueues
    once.  Over a whole turn that starts with an empty queue, as every turn
    does, no index is in the queue twice when the handlers are done, and
    every enqueued index is a valid one. *)
Theorem read_phase_enqueues_each_index_once
    (o : byte_order) (env : poll_env) (st st0 : state) (c : nat) :
  table_ok st →
  conn_remove_n st = 0 →
  conn_remove_n st0 < length (conn_remove_queue st0) →
  (let r := read_input c (incoming env c) st0 in
   let st2 := conn_event o c (incoming env c) (request env c) st0 in
   pending r.2 = pending st0 ++ (if decide (r.1.1 = PeerClosed) then [c] else []) ∧
   (read_status_ret r.1.1 = true → pending r.2 = pending st0) ∧
   pending st2 =
     pending st0 ++
     (if decide (r.1.1 = PeerClosed ∨ r.1.1 = LineComplete) then [c] else [])) ∧
  (let st' := handlers o env st in
   NoDup (pending st') ∧ Forall (λ nc, nc < n_conn st') (pending st')).
Proof.
  intros Hst Hempty Hroom. split.
  - intros r st2.
    pose proof (conn_event_effect o c (incoming env c) (request env c) st0)
      as (_ & _ & _ & _ & Hpend).
    destruct (Hpend Hroom) as (Hp1 & Hp2 & _). fold r in Hp1, Hp2.
    split_and!; [done| |done].
    intros Hret. rewrite Hp1. rewrite decide_False; [by rewrite app_nil_r|].
    intros Hpc. by rewrite Hpc in Hret.
  - intros st'. subst st'.
    destruct (handlers_entry o env st) as (nw2 & st2 & Hh & Hok & Hn & Hqq).
    destruct (Hok Hst) as [Hi Hb Hql Hnc].
    assert (Hnil : pending st2 = []) by (unfold pending; by rewrite Hn, Hempty).
    destruct (read_loop_invariant o env (n_conn st2) 0 nw2 st2)
      as (_ & Hn' & _ & _ & Hnd & Hall); try done.
    + lia.
    + rewrite Hnil. constructor.
    + rewrite Hnil. constructor.
    + rewrite Hh. split; [done|]. by rewrite Hn'.
Qed.

(** ** The order of one turn *)

Lemma read_loop_log (o : byte_order) (env : poll_env) (k c : nat) (nw : Z) (st : state) :
  ∃ evs, log (read_loop o env k c nw st) = log st ++ evs ∧
         Forall (λ e, is_conn_event e = true) evs.
Proof.
  revert c nw st. induction k as [|k IH]; intros c nw st; cbn [read_loop].
  - exists []. by rewrite app_nil_r.
  - case_decide; [|exists []; by rewrite app_nil_r].
    case_decide; [|apply IH].
    pose proof (conn_event_effect o c (incoming env c) (request env c) st)
      as (_ & _ & _ & (evs & Hlog & Hevs) & _).
    destruct (IH (c + 1) (nw - 1)%Z
      (conn_event o c (incoming env c) (request env c) st)) as (evs2 & Hlog2 & Hevs2).
    exists (evs ++ evs2). rewrite Hlog2, Hlog, <- app_assoc. split; [done|].
    by apply Forall_app.
Qed.

Lemma remove_each_log (q : list nat) (st : state) :
  ∃ evs, log (remove_each q st) = log st ++ evs ∧
         omap removed_index evs = q ∧
         Forall (λ e, is_remove_event e = true) evs.
Proof.
  revert st. induction q as [|nc q IH]; intros st; cbn [remove_each].
  - exists []. by rewrite app_nil_r.
  - destruct (remove_conn nc st) as [ok st1] eqn:Hrm.
    assert (Hlog1 : log st1 = log st).
    { unfold remove_conn in Hrm. case_decide; by inversion Hrm. }
    destruct (IH (emit [EvRemove nc ok] st1)) as (evs & Hlog & Hq & Hevs).
    exists (EvRemove nc ok :: evs). rewrite Hlog. cbn [log emit].
    rewrite Hlog1, <- app_assoc. split_and!; [done| |by constructor].
    cbn. by rewrite Hq.
Qed.

(** [zmq_poll] stores [revents] and nothing else. *)
Lemma store_revents_fd (rs : list Z) (items : list zmq_pollitem_t) (i : nat) :
  fd (store_revents rs items !!! i) = fd (items !!! i).
Proof.
  revert items i. induction rs as [|r rs IH]; intros [|it items] i; cbn; try done.
  destruct i as [|i]; [done|]. apply (IH items i).
Qed.

Lemma fmap_buf_insert (bs : list buffer) (nc : nat) (sz : Z) :
  buf <$> <[nc := Buffer (buf (bs !!! nc)) sz]> bs = buf <$> bs.
Proof.
  rewrite list_fmap_insert. cbn [buf].
  destruct (decide (nc < length bs)) as [Hlt|Hge].
  - apply list_insert_id.
    by rewrite list_lookup_fmap, (list_lookup_lookup_total_lt bs) by done.
  - apply list_insert_ge. rewrite length_fmap. lia.
Qed.

(** [read_input] changes the size of a buffer struct, never the block it
    points to. *)
Lemma read_input_blocks (nc : nat) (input : recv_outcome) (st : state) :
  buf <$> buffers (read_input nc input st).2 = buf <$> buffers st.
Proof.
  unfold read_input. cbv zeta.
  repeat case_decide; try destruct (scan_eol _ _ _).1;
    cbn [fst snd buffers set_heap set_buffers emit remove_conn_later]; try done;
    apply fmap_buf_insert.
Qed.

(** What the loop does for a ready connection leaves the table as it is:
    the count, the poll items and the block of every buffer struct. *)
Lemma conn_event_table
    (o : byte_order) (c : nat) (data : recv_outcome) (req : list byte) (st : state) :
  let st2 := conn_event o c data req st in
  n_conn st2 = n_conn st ∧
  conn_items st2 = conn_items st ∧
  buf <$> buffers st2 = buf <$> buffers st.
Proof.
  intros st2.
  pose proof (conn_event_effect o c data req st) as (Hitems & Hn & _).
  split_and!; [done|done|]. subst st2. unfold conn_event.
  destruct (read_status_ret _); [|apply read_input_blocks].
  destruct (send_request_effect o c req (read_input c data st).2)
    as (evs & mem' & -> & _).
  cbn [buffers remove_conn_later emit set_heap]. apply read_input_blocks.
Qed.

Lemma read_loop_table (o : byte_order) (env : poll_env) (k c : nat) (nw : Z) (st : state) :
  let st' := read_loop o env k c nw st in
  n_conn st' = n_conn st ∧
  conn_items st' = conn_items st ∧
  buf <$> buffers st' = buf <$> buffers st.
Proof.
  revert c nw st. induction k as [|k IH]; intros c nw st; cbn [read_loop]; [done|].
  case_decide; [|done]. case_decide; [|apply IH].
  destruct (conn_event_table o c (incoming env c) (request env c) st)
    as (Hn & Hitems & Hbufs).
  destruct (IH (c + 1) (nw - 1)%Z
              (conn_event o c (incoming env c) (request env c) st))
    as (Hn2 & Hitems2 & Hbufs2).
  cbv zeta. by rewrite Hn2, Hitems2, Hbufs2.
Qed.

(** C9.  A turn whose poll is not interrupted completes, and what it does
    comes in this order: the broker reply if the broker socket is ready
    ([tb]), then the accept if the listening socket is ready ([ta], never
    when the table is full), then the reads and dispatches of the
    connections ([tr]), and last the removals ([tq]): one call of
    [remove_conn] for each entry of the queue, in queue order, after which
    the queue is empty.  No removal happens before the read loop has
    ended: when the handlers are done every connection that was open at
    the start of the turn is still in its slot, with its descriptor and
    its block, the count has not gone down, and no single read and
    dispatch changes the count, a poll item or the block of a buffer
    struct.  The state after the turn is that state with the queue
    applied. *)
Theorem iteration_order (o : byte_order) (env : poll_env) (st : state) :
  (1 ≤ n_waiting env)%Z →
  ∃ st' tb ta tr tq,
    iteration o env st = Some st' ∧
    log (handlers o env st) = log st ++ tb ++ ta ++ tr ∧
    log st' = log (handlers o env st) ++ tq ∧
    tb = (if decide (Z.land (broker_revents env) ZMQ_POLLIN ≠ 0%Z) then
            let sd := Z_of_byte ((reply env !!! 0) !!! 0) in
            [EvBrokerRecv (reply env); EvSend sd OK_TEXT_PLAIN;
             EvSend sd (cstring (reply env !!! 1)); EvClose sd]
          else []) ∧
    (ta = [] ∨ ta = [EvAccept (client_socket env)]) ∧
    (MAX_CONN ≤ n_conn st → ta = []) ∧
    Forall (λ e, is_conn_event e = true) tr ∧
    Forall (λ e, is_remove_event e = true) tq ∧
    omap removed_index tq = pending (handlers o env st) ∧
    conn_remove_n st' = 0 ∧
    st' = remove_conn_enqueued (handlers o env st) ∧
    n_conn st ≤ n_conn (handlers o env st) ∧
    (∀ i, i < n_conn st →
       fd (conn_items (handlers o env st) !!! i) = fd (conn_items st !!! i)) ∧
    buf <$> buffers (handlers o env st) = buf <$> buffers st ∧
    (∀ c data req s,
       n_conn (conn_event o c data req s) = n_conn s ∧
       conn_items (conn_event o c data req s) = conn_items s ∧
       buf <$> buffers (conn_event o c data req s) = buf <$> buffers s).
Proof.
  intros Hnw. unfold iteration. rewrite decide_False by lia.
  destruct (remove_each_log (pending (handlers o env st)) (handlers o env st))
    as (tq & Hlogq & Hq & Hevq).
  pose (st0 :=
    set_conn_items (store_revents (resize (n_conn st) 0%Z (conn_revents env))) st).
  pose (http_events := if decide (n_conn st < MAX_CONN) then ZMQ_POLLIN else 0%Z).
  destruct (broker_step env (n_waiting env) st0) as [nw1 st1] eqn:Hb.
  destruct (http_step env http_events nw1 st1) as [nw2 st2] eqn:Hh.
  destruct (read_loop_log o env (n_conn st2) 0 nw2 st2) as (tr & Hlogr & Hevr).
  assert (Hhand : handlers o env st = read_loop o env (n_conn st2) 0 nw2 st2).
  { unfold handlers. fold st0 http_events. by rewrite Hb, Hh. }
  eexists _, _, (drop (length (log st1)) (log st2)), tr, tq.
  split; [reflexivity|].
  assert (Hlog1 : log st1 = log st ++
    (if decide (Z.land (broker_revents env) ZMQ_POLLIN ≠ 0%Z) then
            let sd := Z_of_byte ((reply env !!! 0) !!! 0) in
            [EvBrokerRecv (reply env); EvSend sd OK_TEXT_PLAIN;
             EvSend sd (cstring (reply env !!! 1)); EvClose sd]
          else [])).
  { unfold broker_step in Hb.
    destruct (decide (Z.land (broker_revents env) ZMQ_POLLIN ≠ 0%Z));
      inversion Hb; subst.
    - done.
    - cbn. by rewrite app_nil_r. }
  assert (Hlog2 : ∃ ta, log st2 = log st1 ++ ta ∧
     (ta = [] ∨ ta = [EvAccept (client_socket env)]) ∧
     (MAX_CONN ≤ n_conn st → ta = [])).
  { unfold http_step in Hh.
    destruct (decide (Z.land (Z.land (http_revents env) http_events) ZMQ_POLLIN ≠ 0%Z))
      as [Hready|Hready]; inversion Hh; subst.
    - exists [EvAccept (client_socket env)]. split_and!.
      + unfold accept_conn.
        destruct (decide (client_socket env < 0)%Z); [done|].
        unfold add_conn.
        by destruct (decide (n_conn (emit [EvAccept (client_socket env)] st1) < MAX_CONN)).
      + by right.
      + intros Hfull. exfalso. apply Hready. unfold http_events.
        rewrite decide_False by lia. by rewrite Z.land_0_r.
    - exists []. rewrite app_nil_r. split_and!; [done|by left|done]. }
  destruct Hlog2 as (ta & Hlog2 & Hta & Hfull).
  replace (drop (length (log st1)) (log st2)) with ta
    by (by rewrite Hlog2, drop_app_length).
  destruct (read_loop_table o env (n_conn st2) 0 nw2 st2) as (Hn3 & Hitems3 & Hbufs3).
  rewrite <- Hhand in Hn3, Hitems3, Hbufs3.
  assert (Hst1 : n_conn st1 = n_conn st ∧ buffers st1 = buffers st ∧
                 conn_items st1 = conn_items st0).
  { unfold broker_step in Hb.
    destruct (decide (Z.land (broker_revents env) ZMQ_POLLIN ≠ 0%Z));
      by inversion Hb; subst. }
  destruct Hst1 as (Hn1 & Hbufs1 & Hitems1).
  assert (Hst2 : n_conn st ≤ n_conn st2 ∧ buffers st2 = buffers st ∧
                 ∀ i, i < n_conn st → conn_items st2 !!! i = conn_items st0 !!! i).
  { unfold http_step in Hh.
    destruct (decide (Z.land (Z.land (http_revents env) http_events) ZMQ_POLLIN ≠ 0%Z));
      inversion Hh; subst; [|split_and!; [lia|done|by rewrite Hitems1]].
    unfold accept_conn. destruct (decide (client_socket env < 0)%Z).
    { cbn [n_conn buffers conn_items emit]. split_and!; [lia|done|by rewrite Hitems1]. }
    unfold add_conn. cbn [n_conn emit].
    destruct (decide (n_conn st1 < MAX_CONN));
      cbn [n_conn buffers conn_items emit set_n_conn set_conn_items];
      [|split_and!; [lia|done|by rewrite Hitems1]].
    split_and!; [lia|done|]. intros i Hi.
    rewrite list_lookup_total_insert_ne by lia. by rewrite Hitems1. }
  destruct Hst2 as (Hn2 & Hbufs2 & Hitems2).
  split_and!; try done.
  - rewrite Hhand, Hlogr, Hlog2, Hlog1. by rewrite <- !app_assoc.
  - lia.
  - intros i Hi. rewrite Hitems3, (Hitems2 i Hi). apply store_revents_fd.
  - by rewrite Hbufs3, Hbufs2.
  - intros c data req s. apply conn_event_table.
Qed.

(** ** Overflow and the bounds of the block *)

(** C5 (counterexample).  The buffer is empty and the socket delivers
    [BUFLEN] bytes whose twelfth is a line feed.  The append that delivers
    the terminator yields [Overflow], not [LineComplete], and the line feed
    stays in the block. *)
Lemma read_input_terminator_at_capacity :
  let r := read_input 0 (Delivers full_line) one_conn in
  size (buffers one_conn !!! 0) = 0%Z ∧
  length full_line = BUFLEN ∧
  full_line !! 11 = Some x0a ∧
  r.1.1 = Overflow ∧
  r.1.1 ≠ LineComplete ∧
  (heap r.2 !!! 0) !! 11 = Some x0a.
Proof. vm_compute. split_and!; done. Qed.

(** A NUL among the accumulated bytes cuts the request line short. *)
Lemma read_input_line_cut_at_nul :
  let r := read_input 0 (Delivers (bytes "GET" ++ [x00] ++ bytes " /plan?0" ++ [x0a]))
             one_conn in
  r.1.1 = LineComplete ∧ cstring (heap r.2 !!! 0) = bytes "GET".
Proof. vm_compute. done. Qed.

(** On [Overflow] nothing is enqueued and nothing is sent. *)
Lemma read_input_overflow_effect (nc : nat) (incoming : list byte) (st : state) :
  let r := read_input nc (Delivers incoming) st in
  r.1.1 = Overflow →
  pending r.2 = pending st ∧
  ∃ received, log r.2 = log st ++ [EvRecv (fd (conn_items st !!! nc)) received].
Proof.
  intros r Hover.
  destruct (read_input_effect nc (Delivers incoming) st)
    as (ev & Hlog & [received ->] & _ & _ & _ & Hq).
  fold r in Hlog, Hq. rewrite Hover in Hq.
  rewrite decide_False in Hq by done. destruct Hq as [Hq1 Hq2].
  split; [unfold pending; by rewrite Hq1, Hq2|by exists received].
Qed.

(** C3 (the code departs from the claim).  One connection is open with an
    empty buffer and its socket delivers [BUFLEN] bytes without a
    terminator.  The read yields [Overflow]; when the handlers of that turn
    are done the removal queue is empty, and after the turn the connection
    is still in the table, its buffer full. *)
Theorem overflow_not_enqueued :
  let data := replicate BUFLEN x61 in
  let env := env_data 0 data in
  (read_input 0 (Delivers data) one_conn).1.1 = Overflow ∧
  pending (handlers LittleEndian env one_conn) = [] ∧
  ∃ st', iteration LittleEndian env one_conn = Some st' ∧
         log st' = [EvRecv 7 BUFLEN] ∧
         n_conn st' = 1 ∧
         fd (conn_items st' !!! 0) = 7%Z ∧
         size (buffers st' !!! 0) = BUFLEN.
Proof.
  split_and!; [by vm_compute|by vm_compute|].
  eexists. split; [reflexivity|]. vm_compute. done.
Qed.

(** The bytes [recv] stores and the offsets the scan inspects lie inside
    the block, whatever the block holds, when the buffer holds between 0
    and [BUFLEN] bytes. *)
Lemma read_input_fill_and_scan_in_bounds (nc : nat) (input : recv_outcome) (st : state) :
  (0 ≤ size (buffers st !!! nc) ≤ BUFLEN)%Z →
  let t := (read_input nc input st).1.2 in
  Forall (λ p, 0 ≤ p < BUFLEN)%Z (filled t ++ seen t).
Proof.
  intros Hsize t. subst t.
  destruct input as [incoming|]; [|rewrite read_input_fails; cbv zeta;
                                   by destruct (decide _)].
  assert (Hsz : size (buffers st !!! nc) = Z.to_nat (size (buffers st !!! nc)))
    by lia.
  rewrite (read_input_delivers nc incoming st _ Hsz). cbv zeta.
  set (b := buffers st !!! nc) in *.
  set (sz := Z.to_nat (size b)) in *.
  set (data := take (BUFLEN - sz) incoming).
  assert (Hrec : length data ≤ BUFLEN - sz).
  { unfold data. rewrite length_take. lia. }
  assert (Hfill : Forall (λ p, 0 ≤ p < BUFLEN)%Z (seqZ sz (length data))).
  { apply Forall_forall. intros p Hp. apply elem_of_seqZ in Hp. lia. }
  case_decide; [cbn; by rewrite app_nil_r|].
  case_decide; [cbn; by rewrite app_nil_r|].
  assert (Hseen : Forall (λ p, 0 ≤ p < BUFLEN)%Z
    (scan_eol (take sz (heap st !!! buf b) ++ data ++
               drop (sz + length data) (heap st !!! buf b))
              sz (length data + 1)).2).
  { eapply Forall_impl; [apply scan_eol_seen_bound|]. cbn beta. lia. }
  destruct (scan_eol _ _ _).1; cbn [fst snd filled seen]; by apply Forall_app.
Qed.

(** A read never pushes the size past the capacity. *)
Lemma read_input_size_le (nc : nat) (input : recv_outcome) (st : state) :
  length (buffers st) = MAX_CONN →
  Forall (λ b, size b ≤ BUFLEN)%Z (buffers st) →
  Forall (λ b, size b ≤ BUFLEN)%Z (buffers (read_input nc input st).2).
Proof.
  intros Hlen Hall. unfold read_input. cbv zeta.
  set (b := buffers st !!! nc) in *.
  assert (Hb : (size b ≤ BUFLEN)%Z).
  { destruct (decide (nc < length (buffers st))) as [Hlt|Hge].
    - unfold b. by apply (Forall_lookup_total_1 (λ b, size b ≤ BUFLEN)%Z).
    - unfold b. rewrite list_lookup_total_alt, lookup_ge_None_2 by lia.
      cbn. lia. }
  assert (Hins : ∀ r, (size b + r ≤ BUFLEN)%Z →
     Forall (λ b0, size b0 ≤ BUFLEN)%Z
       (<[nc := Buffer (buf b) (size b + r)]> (buffers st))).
  { intros r Hr. apply Forall_insert; [done|]. cbn. lia. }
  destruct input as [incoming|];
    repeat case_decide; try destruct (scan_eol _ _ _).1;
    cbn [fst snd buffers set_heap set_buffers emit remove_conn_later]; try done;
    apply Hins; rewrite ?length_take; lia.
Qed.

(** C10 (the code departs from the claim).  The turns [reuse_turns] of the
    loop, started from blocks full of NUL bytes, leave one open connection
    with an empty buffer whose block still holds the [BUFLEN] bytes of the
    previous client.  A read of one byte on it is within the capacity, yet
    the [printf ("%s")] calls read on until a NUL and reach position
    [BUFLEN], outside the block. *)
Theorem read_input_printf_leaves_block :
  let r := read_input 0 (Delivers [x62]) reused_slot in
  run LittleEndian reuse_turns (initial_state x00) = Some reused_slot ∧
  n_conn reused_slot = 1 ∧
  size (buffers reused_slot !!! 0) = 0%Z ∧
  length (heap reused_slot !!! buf (buffers reused_slot !!! 0)) = BUFLEN ∧
  r.1.1 = NeedMore ∧
  size (buffers r.2 !!! 0) = 1%Z ∧
  Z.of_nat BUFLEN ∈ printed r.1.2 ∧
  ¬ Forall (λ p, p < BUFLEN)%Z (all_touched r.1.2).
Proof.
  intros r.
  assert (Hin : Z.of_nat BUFLEN ∈ printed r.1.2).
  { apply (bool_decide_unpack _). by vm_compute. }
  split_and!; try (by vm_compute); try done.
  intros Hall. rewrite Forall_forall in Hall.
  assert (Hlt : (BUFLEN < BUFLEN)%Z); [|lia].
  apply Hall. unfold all_touched.
  apply elem_of_app. right. apply elem_of_app. by left.
Qed.

(** ** Dispatching a request line *)

Lemma nul_head_lookup (rest : list byte) : nul_head rest → rest !!! 0 = x00.
Proof. by intros [->|[r ->]]. Qed.

Lemma cstring_split (mem : list byte) :
  (mem = cstring mem ++ drop (strlen mem) mem) ∧
  (x00 ∉ cstring mem) ∧ nul_head (drop (strlen mem) mem).
Proof.
  unfold cstring. split; [by rewrite take_drop|].
  induction mem as [|c mem [IH1 IH2]]; cbn [strlen].
  - split; [apply not_elem_of_nil|by left].
  - case_decide as Hc.
    + subst c. split; [apply not_elem_of_nil|right; by eexists].
    + cbn [take drop]. split; [|done].
      apply not_elem_of_cons. split; [congruence|done].
Qed.

Lemma cstring_app_nul_head (a tail : list byte) :
  x00 ∉ a → nul_head tail → cstring (a ++ tail) = a.
Proof.
  intros Ha [->|[r ->]]; [|by apply cstring_app_nul].
  rewrite app_nil_r. unfold cstring.
  induction a as [|c a IH]; [done|]. cbn [strlen].
  apply not_elem_of_cons in Ha as [Hc Ha].
  rewrite decide_False by done. cbn [take]. by rewrite IH.
Qed.

Lemma strspn_sp_app (s rest : list byte) :
  nul_head rest → strspn_sp (s ++ rest) = strspn_sp s.
Proof.
  intros Hrest. induction s as [|c s IH]; cbn [app strspn_sp].
  - by destruct Hrest as [->|[r ->]].
  - case_decide; [by rewrite IH|done].
Qed.

Lemma strcspn_sp_app (s rest : list byte) :
  nul_head rest → strcspn_sp (s ++ rest) = strcspn_sp s.
Proof.
  intros Hrest. induction s as [|c s IH]; cbn [app strcspn_sp].
  - by destruct Hrest as [->|[r ->]].
  - repeat case_decide; by rewrite ?IH.
Qed.

Lemma strspn_sp_le (s : list byte) : strspn_sp s ≤ length s.
Proof. induction s as [|c s IH]; cbn; [lia|]. case_decide; lia. Qed.

Lemma strcspn_sp_le (s : list byte) : strcspn_sp s ≤ length s.
Proof. induction s as [|c s IH]; cbn; [lia|]. repeat case_decide; lia. Qed.

Lemma strspn_sp_head (s s' : list byte) (c : byte) :
  drop (strspn_sp s) s = c :: s' → c ≠ x20.
Proof.
  induction s as [|x s IH]; cbn [strspn_sp]; [done|].
  case_decide; [done|]. cbn [drop]. by intros [= -> _].
Qed.

Lemma strcspn_sp_stop (s s2 : list byte) (d : byte) :
  x00 ∉ s → drop (strcspn_sp s) s = d :: s2 → d = x20.
Proof.
  intros Hs. induction s as [|x s IH]; cbn [strcspn_sp]; [done|].
  apply not_elem_of_cons in Hs as [Hx Hs].
  case_decide; [cbn; by intros [= <- _]|].
  case_decide; [congruence|]. cbn [drop]. by apply IH.
Qed.

Lemma strcspn_sp_token (s : list byte) :
  Forall (λ c, is_space c = false) (take (strcspn_sp s) s).
Proof.
  induction s as [|x s IH]; cbn [strcspn_sp]; [constructor|].
  case_decide; [constructor|]. case_decide; [constructor|].
  cbn [take]. constructor; [|done]. unfold is_space. by rewrite bool_decide_eq_false.
Qed.

Lemma not_elem_of_take (s : list byte) (n : nat) (x : byte) : x ∉ s → x ∉ take n s.
Proof.
  intros Hs. rewrite <- (take_drop n s) in Hs.
  by apply not_elem_of_app in Hs as [? _].
Qed.

Lemma not_elem_of_drop (s : list byte) (n : nat) (x : byte) : x ∉ s → x ∉ drop n s.
Proof.
  intros Hs. rewrite <- (take_drop n s) in Hs.
  by apply not_elem_of_app in Hs as [_ ?].
Qed.

Lemma next_token_nul_free (s tok s2 : list byte) :
  x00 ∉ s → next_token s = Some (tok, s2) → (x00 ∉ tok) ∧ (x00 ∉ s2) ∧ tok ≠ [].
Proof.
  intros Hs. unfold next_token.
  destruct (drop (strspn_sp s) s) as [|c s1] eqn:Hs1; [done|].
  intros [= <- <-].
  assert (H1 : x00 ∉ c :: s1) by (rewrite <- Hs1; by apply not_elem_of_drop).
  apply strspn_sp_head in Hs1.
  pose proof H1 as [Hc Hs1']%not_elem_of_cons.
  split_and!.
  - by apply not_elem_of_take.
  - by apply not_elem_of_drop.
  - cbn [strcspn_sp]. rewrite !decide_False by done. done.
Qed.

Lemma lookup_total_app_length (l1 l2 : list byte) :
  (l1 ++ l2) !!! length l1 = l2 !!! 0.
Proof.
  rewrite !list_lookup_total_alt, lookup_app_r by lia.
  by rewrite Nat.sub_diag.
Qed.

(** [strtok] on a block that holds, from position [length pre] on, the
    NUL-free string [s]: it finds the first token of [s], and leaves the
    rest of [s] after the saved pointer. *)
Lemma strtok_spec (pre s rest : list byte) :
  x00 ∉ s → nul_head rest →
  match next_token s with
  | None =>
      ∃ save, strtok (pre ++ s ++ rest) (length pre) = (None, pre ++ s ++ rest, save)
  | Some (tok, s2) =>
      ∃ pre' tail,
        strtok (pre ++ s ++ rest) (length pre) =
          (Some (length pre + strspn_sp s), pre' ++ s2 ++ rest, length pre') ∧
        drop (length pre + strspn_sp s) (pre' ++ s2 ++ rest) = tok ++ tail ∧
        nul_head tail
  end.
Proof.
  intros Hs Hrest. unfold strtok, next_token.
  rewrite drop_app_length, strspn_sp_app by done.
  pose proof (strspn_sp_le s) as Hn1.
  set (n1 := strspn_sp s) in *.
  pose proof (take_drop n1 s) as Hsplit.
  assert (Hlen1 : length (pre ++ take n1 s) = length pre + n1).
  { rewrite length_app, length_take. lia. }
  destruct (drop n1 s) as [|c s1] eqn:Hs1.
  - rewrite app_nil_r in Hsplit.
    assert (Hz : (pre ++ s ++ rest) !!! (length pre + n1) = x00).
    { rewrite Hsplit in Hlen1. rewrite <- Hlen1, app_assoc.
      rewrite lookup_total_app_length. by apply nul_head_lookup. }
    rewrite Hz. rewrite decide_True by done. by eexists.
  - assert (Hc0 : c ≠ x00).
    { intros ->. apply Hs. rewrite <- Hsplit. apply elem_of_app. right. by left. }
    assert (Hmem : pre ++ s ++ rest = (pre ++ take n1 s) ++ (c :: s1) ++ rest).
    { rewrite <- Hsplit at 1. by rewrite <- !app_assoc. }
    rewrite Hmem. rewrite <- Hlen1.
    rewrite lookup_total_app_length. cbn [app]. 
    change ((c :: s1 ++ rest) !!! 0) with c.
    rewrite decide_False by done.
    rewrite drop_app_length.
    change (c :: s1 ++ rest) with ((c :: s1) ++ rest).
    rewrite strcspn_sp_app by done.
    pose proof (strcspn_sp_le (c :: s1)) as Hn2.
    assert (Hs1nul : x00 ∉ c :: s1).
    { rewrite <- Hs1. by apply not_elem_of_drop. }
    set (n2 := strcspn_sp (c :: s1)) in *.
    pose proof (take_drop n2 (c :: s1)) as Hsplit2.
    set (tok := take n2 (c :: s1)) in *.
    assert (Hlen2 : length ((pre ++ take n1 s) ++ tok) = length (pre ++ take n1 s) + n2).
    { rewrite length_app. unfold tok. rewrite length_take. lia. }
    set (A := pre ++ take n1 s) in *.
    destruct (drop n2 (c :: s1)) as [|d s2] eqn:Hs2.
    + rewrite app_nil_r in Hsplit2.
      assert (Hdrop : drop (S n2) (c :: s1) = []).
      { apply drop_ge. apply (f_equal length) in Hsplit2.
        unfold tok in Hsplit2. rewrite length_take in Hsplit2. lia. }
      rewrite Hdrop.
      assert (Hm : A ++ (c :: s1) ++ rest = (A ++ tok) ++ rest).
      { rewrite Hsplit2. by rewrite <- !app_assoc. }
      assert (Hz : (A ++ (c :: s1) ++ rest) !!! (length A + n2) = x00).
      { rewrite Hm, <- Hlen2, lookup_total_app_length. by apply nul_head_lookup. }
      rewrite Hz, decide_True by done.
      exists (A ++ tok), rest. split_and!; [|by rewrite <- !app_assoc, drop_app_length|done].
      rewrite Hm, Hlen2. by rewrite <- !app_assoc.
    + assert (Hd : d = x20) by (by eapply strcspn_sp_stop).
      assert (Hdrop : drop (S n2) (c :: s1) = s2).
      { rewrite <- (Nat.add_1_r n2), <- drop_drop, Hs2. done. }
      rewrite Hdrop.
      assert (Hm : A ++ (c :: s1) ++ rest = (A ++ tok) ++ d :: s2 ++ rest).
      { rewrite <- Hsplit2. by rewrite <- !app_assoc. }
      assert (Hz : (A ++ (c :: s1) ++ rest) !!! (length A + n2) = d).
      { by rewrite Hm, <- Hlen2, lookup_total_app_length. }
      rewrite Hz, decide_False by (by subst d).
      rewrite Hm, <- Hlen2, insert_middle.
      exists ((A ++ tok) ++ [x00]), (x00 :: s2 ++ rest).
      split_and!.
      * f_equal; [f_equal|].
        -- by rewrite <- (app_assoc (A ++ tok)).
        -- rewrite (length_app (A ++ tok)). cbn. done.
      * rewrite <- !app_assoc. by rewrite drop_app_length.
      * right. by eexists.
Qed.

Lemma tokens_cons_sep (sep : byte → bool) (c : byte) (s : list byte) :
  sep c = true → tokens sep (c :: s) = tokens sep s.
Proof.
  intros Hc. unfold tokens. cbn [fields]. rewrite Hc.
  by rewrite filter_cons_False by (by intros ?).
Qed.

Lemma fields_app_token (sep : byte → bool) (tok r : list byte) :
  Forall (λ c, sep c = false) tok →
  ∃ f fs, fields sep r = f :: fs ∧ fields sep (tok ++ r) = (tok ++ f) :: fs.
Proof.
  intros Htok. induction Htok as [|c tok Hc Htok (f & fs & Hr & IH)].
  - destruct r as [|x r]; cbn [app fields]; [by eexists _, _|].
    destruct (sep x); [by eexists _, _|].
    destruct (fields sep r); by eexists _, _.
  - exists f, fs. split; [done|]. cbn [app fields]. by rewrite Hc, IH.
Qed.

Lemma tokens_token_end (sep : byte → bool) (tok : list byte) :
  tok ≠ [] → Forall (λ c, sep c = false) tok → tokens sep tok = [tok].
Proof.
  intros Hne Htok.
  destruct (fields_app_token sep tok [] Htok) as (f & fs & Hr & Hf).
  cbn [fields] in Hr. injection Hr as <- <-.
  rewrite !app_nil_r in Hf. unfold tokens. rewrite Hf.
  by rewrite filter_cons_True by done.
Qed.

Lemma tokens_token_more (sep : byte → bool) (tok s2 : list byte) (d : byte) :
  tok ≠ [] → Forall (λ c, sep c = false) tok → sep d = true →
  tokens sep (tok ++ d :: s2) = tok :: tokens sep s2.
Proof.
  intros Hne Htok Hd.
  destruct (fields_app_token sep tok (d :: s2) Htok) as (f & fs & Hr & Hf).
  cbn [fields] in Hr. rewrite Hd in Hr. injection Hr as <- <-.
  rewrite app_nil_r in Hf. unfold tokens. rewrite Hf.
  by rewrite filter_cons_True by done.
Qed.

Lemma tokens_drop_strspn (s : list byte) :
  tokens is_space s = tokens is_space (drop (strspn_sp s) s).
Proof.
  induction s as [|c s IH]; cbn [strspn_sp]; [done|].
  case_decide as Hc; [|done]. cbn [drop]. rewrite <- IH.
  apply tokens_cons_sep. unfold is_space. by apply bool_decide_eq_true.
Qed.

(** The tokens of a NUL-free string are the ones [strtok] finds. *)
Lemma tokens_next_token (s : list byte) :
  x00 ∉ s →
  tokens is_space s =
    match next_token s with
    | None => []
    | Some (tok, s2) => tok :: tokens is_space s2
    end.
Proof.
  intros Hs. rewrite tokens_drop_strspn.
  pose proof (next_token_nul_free s) as Hfree.
  unfold next_token in *.
  destruct (drop (strspn_sp s) s) as [|c s1] eqn:Hs1; [done|].
  destruct (Hfree _ _ Hs eq_refl) as (_ & _ & Hne).
  assert (Hnul : x00 ∉ c :: s1) by (rewrite <- Hs1; by apply not_elem_of_drop).
  pose proof (strcspn_sp_token (c :: s1)) as Htok.
  pose proof (take_drop (strcspn_sp (c :: s1)) (c :: s1)) as Hsplit.
  destruct (drop (strcspn_sp (c :: s1)) (c :: s1)) as [|d s2] eqn:Hs2.
  - rewrite app_nil_r in Hsplit.
    assert (Hdrop : drop (S (strcspn_sp (c :: s1))) (c :: s1) = []).
    { apply drop_ge. apply (f_equal length) in Hsplit.
      rewrite length_take in Hsplit. lia. }
    rewrite Hdrop. rewrite <- Hsplit at 1.
    by apply tokens_token_end.
  - assert (Hd : d = x20) by (by eapply strcspn_sp_stop).
    assert (Hdrop : drop (S (strcspn_sp (c :: s1))) (c :: s1) = s2).
    { rewrite <- (Nat.add_1_r (strcspn_sp (c :: s1))), <- drop_drop, Hs2. done. }
    rewrite Hdrop. rewrite <- Hsplit at 1.
    apply tokens_token_more; [done|done|by subst d].
Qed.

Lemma has_query_index (res tail : list byte) :
  x00 ∉ res → nul_head tail →
  has_query res =
    match index (res ++ tail) x3f with
    | Some q => bool_decide ((res ++ tail) !!! (q + 1) ≠ x00)
    | None => false
    end.
Proof.
  intros Hres Htail. induction res as [|c res IH].
  - cbn [app has_query]. by destruct Htail as [->|[r ->]].
  - apply not_elem_of_cons in Hres as [Hc Hres].
    specialize (IH Hres). cbn [app index].
    destruct (decide (c = x3f)) as [->|Hq].
    + cbn [has_query]. destruct res as [|c' res'].
      * cbn [app]. change (0 + 1) with 1.
        change ((x3f :: tail) !!! 1) with (tail !!! 0).
        rewrite nul_head_lookup by done. by rewrite bool_decide_eq_false_2 by auto.
      * apply not_elem_of_cons in Hres as [Hc' _].
        cbn. rewrite (bool_decide_eq_true_2 (c' ≠ x00)) by done.
        by rewrite (bool_decide_eq_true_2 (x3f = x3f)) by done.
    + rewrite decide_False by done.
      assert (Hhq : has_query (c :: res) = has_query res).
      { cbn [has_query]. destruct res; [done|].
        by rewrite bool_decide_eq_false_2 by done. }
      rewrite Hhq, IH.
      destruct (index (res ++ tail) x3f) as [q|]; [|done]. cbn [fmap option_fmap option_map].
      done.
Qed.

Lemma lookup_total_drop_byte (l : list byte) (n i : nat) :
  drop n l !!! i = l !!! (n + i).
Proof. by rewrite !list_lookup_total_alt, lookup_drop. Qed.

Lemma send_request_log (o : byte_order) (nc : nat) (req : list byte) (st : state) :
  let sd := (fd (conn_items st !!! nc) mod 2 ^ 32)%Z in
  let line := cstring (heap st !!! buf (buffers st !!! nc)) in
  log (send_request o nc req st) =
    log st ++
    (if forwards is_space line then forward_events o sd req else reject_events sd).
Proof.
  intros sd line. subst line.
  set (mem := heap st !!! buf (buffers st !!! nc)).
  destruct (cstring_split mem) as (Hmem & Hnul & Hrest).
  set (line := cstring mem) in *. set (rest := drop (strlen mem) mem) in *.
  pose proof (strtok_spec [] line rest Hnul Hrest) as H1.
  cbn [app length] in H1. rewrite <- Hmem in H1.
  unfold forwards. rewrite tokens_next_token by done.
  unfold send_request, send_request_cleanup. fold mem sd.
  destruct (next_token line) as [[tok s2]|] eqn:Hnt.
  2:{ destruct H1 as (save & ->). done. }
  destruct H1 as (pre' & tail & -> & Hdrop & Htail).
  destruct (next_token_nul_free _ _ _ Hnul Hnt) as (Htok0 & Hs2 & _).
  rewrite Hdrop, cstring_app_nul_head by done.
  pose proof (strtok_spec pre' s2 rest Hs2 Hrest) as H2.
  rewrite (tokens_next_token s2) by done.
  destruct (decide (tok = bytes "GET")) as [Hget|Hget].
  2:{ destruct (next_token s2) as [[res s3]|]; [|done].
      by rewrite bool_decide_eq_false_2 by done. }
  rewrite bool_decide_eq_true_2 by done. cbn [andb].
  destruct (next_token s2) as [[res s3]|] eqn:Hnt2.
  2:{ destruct H2 as (save & ->). done. }
  destruct H2 as (pre'' & tail2 & -> & Hdrop2 & Htail2).
  destruct (next_token_nul_free _ _ _ Hs2 Hnt2) as (Hres0 & _ & _).
  rewrite (has_query_index res tail2) by done.
  rewrite Hdrop2.
  destruct (index (res ++ tail2) x3f) as [q|]; [|done].
  rewrite <- Hdrop2, lookup_total_drop_byte, Nat.add_assoc.
  case_decide as Hz.
  - by rewrite bool_decide_eq_false_2 by auto.
  - by rewrite bool_decide_eq_true_2 by done.
Qed.

(** C6, as amended.  [send_request] forwards exactly when the first token
    of the request line is GET and the second holds a question mark with a
    byte after it, the tokens being those that the space character, and no
    other white space, separates.  When it forwards it sends the broker
    message (descriptor frame, then the request) and does not close the
    descriptor; otherwise it sends the 404 reply and closes the descriptor.
    Either way it enqueues the connection once and leaves the table alone.
    The four request lines of the specification come out as stated. *)
Theorem send_request_dispatch
    (o : byte_order) (nc : nat) (req : list byte) (st : state) :
  conn_remove_n st < length (conn_remove_queue st) →
  let sd := (fd (conn_items st !!! nc) mod 2 ^ 32)%Z in
  let line := cstring (heap st !!! buf (buffers st !!! nc)) in
  let st' := send_request o nc req st in
  log st' =
    log st ++
    (if forwards is_space line then forward_events o sd req else reject_events sd) ∧
  pending st' = pending st ++ [nc] ∧
  conn_items st' = conn_items st ∧
  n_conn st' = n_conn st ∧
  buffers st' = buffers st ∧
  forwards is_space (bytes "GET /plan?from=A&to=B HTTP/1.0") = true ∧
  forwards is_space (bytes "POST /plan?x HTTP/1.0") = false ∧
  forwards is_space (bytes "GET /plan HTTP/1.0") = false ∧
  forwards is_space (bytes "GET /plan? HTTP/1.0") = false.
Proof.
  intros Hroom sd line st'.
  split; [apply send_request_log|].
  destruct (send_request_effect o nc req st) as (evs & mem' & Heq & _).
  subst st'. rewrite Heq.
  split_and!; try done.
  apply (pending_remove_conn_later nc
    (emit evs (set_heap (λ h, <[buf (buffers st !!! nc):=mem']> h) st))).
  done.
Qed.

(** C6 (counterexample).  In "GET<tab>/plan?x HTTP/1.0" the first
    white-space-separated token is GET and the second, "/plan?x", has a
    query, yet [send_request] rejects the line: [strtok] splits on the space
    character only, so it sees the verb "GET<tab>/plan?x". *)
Lemma send_request_tab_separated :
  cstring (heap tab_line_ready !!! 0) = tab_line ∧
  tokens is_whitespace tab_line = [bytes "GET"; bytes "/plan?x"; bytes "HTTP/1.0"] ∧
  forwards is_whitespace tab_line = true ∧
  log (send_request LittleEndian 0 (bytes "REQ") tab_line_ready) =
    log tab_line_ready ++ reject_events 7.
Proof. vm_compute. split_and!; done. Qed.

(** ** The theorems at work on concrete runs *)

Lemma three_conns_ok : table_ok three_conns.
Proof. unfold three_conns. auto with table. Qed.

Lemma one_conn_ok : table_ok one_conn.
Proof. unfold one_conn. auto with table. Qed.

(** Removing slot 0 of three moves the connection with descriptor 12 into
    it. *)
Lemma remove_conn_swap_delete_witness :
  table_ok three_conns ∧
  0 < n_conn three_conns ∧
  (remove_conn 0 three_conns).1 = true ∧
  n_conn three_conns = S (n_conn (remove_conn 0 three_conns).2) ∧
  conn_items (remove_conn 0 three_conns).2 !! 0 = conn_items three_conns !! 2.
Proof.
  pose proof (remove_conn_swap_delete 0 three_conns three_conns_ok) as [_ H].
  assert (Hlt : 0 < n_conn three_conns) by (vm_compute; lia).
  destruct (H Hlt) as (H1 & H2 & H3 & _).
  split_and!; [apply three_conns_ok|done|done|done|exact H3].
Defined.

(** Two accepts and a removal from the initial state. *)
Lemma table_count_within_capacity_witness :
  table_ok (initial_state x00) ∧
  n_conn (foldl apply_op (initial_state x00) [OpAdd 5; OpRemove 0; OpAdd 6]) < MAX_CONN ∧
  0 ≤ n_conn (foldl apply_op (initial_state x00) [OpAdd 5; OpRemove 0; OpAdd 6]) ≤ MAX_CONN ∧
  n_conn (add_conn 9 (foldl apply_op (initial_state x00) [OpAdd 5; OpRemove 0; OpAdd 6])) =
    n_conn (foldl apply_op (initial_state x00) [OpAdd 5; OpRemove 0; OpAdd 6]) + 1.
Proof.
  pose proof (table_count_within_capacity [OpAdd 5; OpRemove 0; OpAdd 6]
                (initial_state x00) 9 (initial_state_ok x00)) as (H1 & H2 & _).
  assert (Hlt : n_conn (foldl apply_op (initial_state x00)
                          [OpAdd 5; OpRemove 0; OpAdd 6]) < MAX_CONN)
    by (vm_compute; lia).
  destruct (H2 Hlt) as (H3 & _).
  split_and!; [apply initial_state_ok|done|apply H1|apply H1|exact H3].
Defined.

(** A complete line on the only connection: one enqueue, by
    [send_request]. *)
Lemma read_phase_enqueues_each_index_once_witness :
  let env := env_data 0 (get_line ++ [x0d; x0a]) in
  table_ok one_conn ∧
  conn_remove_n one_conn = 0 ∧
  conn_remove_n one_conn < length (conn_remove_queue one_conn) ∧
  pending (conn_event LittleEndian 0 (incoming env 0) (request env 0) one_conn) =
    pending one_conn ++
    (if decide ((read_input 0 (incoming env 0) one_conn).1.1 = PeerClosed ∨
                (read_input 0 (incoming env 0) one_conn).1.1 = LineComplete)
     then [0] else []) ∧
  NoDup (pending (handlers LittleEndian env one_conn)).
Proof.
  intros env.
  assert (H0 : conn_remove_n one_conn = 0) by reflexivity.
  assert (Hroom : conn_remove_n one_conn < length (conn_remove_queue one_conn))
    by (vm_compute; lia).
  pose proof (read_phase_enqueues_each_index_once LittleEndian env one_conn one_conn 0
                one_conn_ok H0 Hroom) as [(_ & _ & H1) (H2 & _)].
  split_and!; [apply one_conn_ok|done|done|exact H1|exact H2].
Defined.

(** A line feed after eleven bytes, in an empty buffer. *)
Lemma read_input_line_accumulation_witness :
  let incoming := bytes "GET /plan?0" ++ [x0a] in
  let mem := replicate BUFLEN x00 in
  buffers one_conn !! 0 = Some (Buffer 0 0%Z) ∧
  heap one_conn !! 0 = Some mem ∧
  (read_input 0 (Delivers incoming) one_conn).1.1 = LineComplete ∧
  cstring (take 0 mem ++ bytes "GET /plan?0" ++
           x00 :: [] ++ drop (0 + length incoming) mem) = take 0 mem ++ bytes "GET /plan?0".
Proof.
  intros incoming mem.
  assert (Hb : buffers one_conn !! 0 = Some (Buffer 0 0%Z)) by reflexivity.
  assert (Hm : heap one_conn !! buf (Buffer 0 0%Z) = Some mem) by reflexivity.
  assert (Hlen : length mem = BUFLEN) by apply length_replicate.
  assert (Hsz : (0 ≤ size (Buffer 0 0%Z) < BUFLEN)%Z) by (vm_compute; split; done).
  assert (Hne : incoming ≠ []) by done.
  pose proof (read_input_line_accumulation 0 incoming one_conn (Buffer 0 0%Z) mem
                Hb Hm Hlen Hsz Hne) as [_ H].
  assert (Hpre : Forall (λ c, is_eol c = false) (bytes "GET /plan?0"))
    by (repeat constructor).
  assert (Hfit : (size (Buffer 0 0%Z) + length incoming < BUFLEN)%Z)
    by (vm_compute; done).
  destruct (H (bytes "GET /plan?0") x0a [] eq_refl Hpre eq_refl Hfit)
    as (H1 & _ & _ & H4).
  split_and!; [done|done|exact H1|].
  rewrite app_assoc. apply H4.
  apply (bool_decide_unpack _). by vm_compute.
Defined.

(** The well-formed line of the specification is forwarded. *)
Lemma send_request_dispatch_witness :
  conn_remove_n get_line_ready < length (conn_remove_queue get_line_ready) ∧
  log (send_request LittleEndian 0 (bytes "REQ") get_line_ready) =
    log get_line_ready ++
    (if forwards is_space
          (cstring (heap get_line_ready !!! buf (buffers get_line_ready !!! 0)))
     then forward_events LittleEndian
            (fd (conn_items get_line_ready !!! 0%nat) mod 2 ^ 32)%Z (bytes "REQ")
     else reject_events (fd (conn_items get_line_ready !!! 0%nat) mod 2 ^ 32)%Z) ∧
  pending (send_request LittleEndian 0 (bytes "REQ") get_line_ready) =
    pending get_line_ready ++ [0].
Proof.
  assert (Hroom : conn_remove_n get_line_ready < length (conn_remove_queue get_line_ready))
    by (vm_compute; lia).
  pose proof (send_request_dispatch LittleEndian 0 (bytes "REQ") get_line_ready Hroom)
    as (H1 & H2 & _).
  split_and!; [done|exact H1|exact H2].
Defined.

(** A turn on three connections in which the broker replies, a client is
    accepted and connection 0 completes its line: reply, accept, read and
    dispatch, and only then the removal of slot 0; four connections are in
    the table when the handlers are done, three after the turn. *)
Lemma iteration_order_witness :
  let h := handlers LittleEndian busy_turn three_conns in
  (1 ≤ n_waiting busy_turn)%Z ∧
  ∃ st', iteration LittleEndian busy_turn three_conns = Some st' ∧
         log st' =
           [EvBrokerRecv [uint32_bytes LittleEndian 9; bytes "route"];
            EvSend 9 OK_TEXT_PLAIN; EvSend 9 (bytes "route"); EvClose 9;
            EvAccept 13;
            EvRecv 10 (length get_line + 1);
            EvBrokerSend [uint32_bytes LittleEndian 10; bytes "REQ"];
            EvRemove 0 true] ∧
         pending h = [0] ∧
         n_conn three_conns ≤ n_conn h ∧
         n_conn h = 4 ∧
         buf <$> buffers h = buf <$> buffers three_conns ∧
         fd (conn_items h !!! 0) = fd (conn_items three_conns !!! 0) ∧
         n_conn st' = 3 ∧
         conn_remove_n st' = 0.
Proof.
  intros h.
  assert (Hnw : (1 ≤ n_waiting busy_turn)%Z) by (vm_compute; discriminate).
  destruct (iteration_order LittleEndian busy_turn three_conns Hnw)
    as (st' & tb & ta & tr & tq & Hit & _ & _ & _ & _ & _ & _ & _ & _ & Hq & Hst' &
        Hn & Hfd & Hbuf & _).
  assert (H0 : 0 < n_conn three_conns) by (vm_compute; lia).
  split; [done|]. exists st'.
  split_and!; [done| | |exact Hn| |exact Hbuf|exact (Hfd 0 H0)| |exact Hq].
  - rewrite Hst'. vm_compute. reflexivity.
  - vm_compute. reflexivity.
  - vm_compute. reflexivity.
  - rewrite Hst'. vm_compute. reflexivity.
Defined.

(** * Further properties *)

(** ** The table as a list of connections *)

Lemma active_lookup (st : state) (j : nat) :
  active st !! j =
    if decide (j < n_conn st)
    then conn_items st !! j ≫= λ it, buffers st !! j ≫= λ b, Some (it, b)
    else None.
Proof. unfold active. rewrite lookup_take. by rewrite lookup_zip_with. Qed.

Lemma active_length (st : state) : table_ok st → length (active st) = n_conn st.
Proof.
  intros [Hi Hb Hq Hn]. unfold active.
  rewrite length_take, length_zip_with. lia.
Qed.

Lemma active_lookup_total (st : state) (j : nat) :
  table_ok st → j < n_conn st →
  active st !!! j = (conn_items st !!! j, buffers st !!! j).
Proof.
  intros [Hi Hb Hq Hn] Hj. apply list_lookup_total_correct.
  rewrite active_lookup, decide_True by done.
  rewrite (list_lookup_lookup_total_lt (conn_items st)) by lia.
  rewrite (list_lookup_lookup_total_lt (buffers st)) by lia. done.
Qed.

Lemma active_remove_conn (nc : nat) (st : state) :
  table_ok st → nc < n_conn st →
  active (remove_conn nc st).2 =
    take (n_conn st - 1) (<[nc := active st !!! (n_conn st - 1)]> (active st)).
Proof.
  intros Hok Hnc. pose proof Hok as [Hi Hb Hq Hn].
  apply list_eq. intros j.
  rewrite lookup_take, active_lookup.
  unfold remove_conn. rewrite (decide_False (P := n_conn st ≤ nc)) by lia.
  cbn [snd n_conn conn_items buffers].
  destruct (decide (j < n_conn st - 1)) as [Hj|Hj]; [|done].
  rewrite (list_lookup_insert (active st)). rewrite active_length by done.
  rewrite active_lookup_total; [|done|lia].
  rewrite !(list_lookup_insert_ne _ (n_conn st - 1) j) by lia.
  rewrite !list_lookup_insert.
  destruct (decide (nc = j)) as [->|Hne].
  - rewrite !decide_True by (split; [done|lia]). done.
  - rewrite !decide_False by (intros [? _]; done).
    rewrite active_lookup, decide_True by lia. done.
Qed.

Lemma swap_delete_perm {A} `{Inhabited A} (l : list A) (nc : nat) :
  nc < length l →
  take (length l - 1) (<[nc := l !!! (length l - 1)]> l) ≡ₚ delete nc l.
Proof.
  destruct l as [|y l' _] using rev_ind; [cbn; lia|].
  rewrite length_app. cbn [length]. intros Hnc.
  replace (length l' + 1 - 1) with (length l') by lia.
  replace ((l' ++ [y]) !!! length l') with y
    by (symmetry; apply list_lookup_total_middle; done).
  destruct (decide (nc = length l')) as [->|Hne].
  - rewrite insert_app_r_alt, Nat.sub_diag by lia. cbn [insert list_insert].
    rewrite take_app_length.
    rewrite delete_take_drop, take_app_length.
    rewrite drop_app_ge by lia.
    replace (S (length l') - length l') with 1 by lia. cbn. by rewrite app_nil_r.
  - assert (Hlt : nc < length l') by lia.
    rewrite insert_app_l by done.
    rewrite take_app_length' by (by rewrite length_insert).
    rewrite delete_take_drop.
    rewrite take_app_le, drop_app_le by lia.
    rewrite insert_take_drop by done.
    rewrite app_assoc. rewrite <- Permutation_cons_append.
    by rewrite Permutation_middle.
Qed.

(** What the table holds after [add_conn] and after [remove_conn]. *)
Theorem table_add_remove_contents (nc : nat) (sd : Z) (st : state) :
  table_ok st →
  (n_conn st < MAX_CONN →
     active (add_conn sd st) =
       active st ++
       [(PollItem 0 sd POLLIN (revents (conn_items st !!! n_conn st)),
         buffers st !!! n_conn st)]) ∧
  (nc < n_conn st → active (remove_conn nc st).2 ≡ₚ delete nc (active st)).
Proof.
  intros Hok. pose proof Hok as [Hi Hb Hq Hn]. split.
  - intros Hlt. apply list_eq. intros j.
    unfold add_conn. rewrite decide_True by done.
    rewrite active_lookup.
    cbn [n_conn conn_items buffers set_n_conn set_conn_items].
    destruct (decide (j < n_conn st)) as [Hj|Hj].
    + rewrite decide_True by lia. rewrite list_lookup_insert_ne by lia.
      rewrite lookup_app_l by (by rewrite active_length).
      by rewrite active_lookup, decide_True.
    + destruct (decide (j = n_conn st)) as [->|Hne].
      * rewrite decide_True by lia.
        rewrite list_lookup_insert_eq by lia.
        rewrite (list_lookup_lookup_total_lt (buffers st)) by lia.
        rewrite lookup_app_r by (by rewrite active_length).
        rewrite active_length, Nat.sub_diag by done. done.
      * rewrite decide_False by lia.
        rewrite lookup_app_r by (rewrite active_length by done; lia).
        rewrite active_length by done.
        destruct (j - n_conn st) as [|m] eqn:Hm; [lia|done].
  - intros Hnc. rewrite active_remove_conn by done.
    rewrite <- (active_length st Hok).
    apply swap_delete_perm. by rewrite active_length.
Qed.

(** ** Applying the removal queue *)

Lemma active_emit (es : list event) (st : state) : active (emit es st) = active st.
Proof. done. Qed.

(** Deleting positions below [a] leaves the part of the list from [a] on
    as it is. *)
Lemma foldl_delete_below {A} (q : list nat) (a : nat) (l : list A) :
  StronglySorted (λ x y, y < x) q →
  Forall (λ x, x < a) q →
  a ≤ length l →
  foldl (λ l nc, delete nc l) l q =
    foldl (λ l nc, delete nc l) (take a l) q ++ drop a l.
Proof.
  revert a l. induction q as [|b q IH]; intros a l Hsorted Hall Ha; cbn [foldl].
  - by rewrite take_drop.
  - apply StronglySorted_inv in Hsorted as [Hsorted Hb].
    apply Forall_cons in Hall as [Hba Hall].
    assert (Hdel : delete b l = delete b (take a l) ++ drop a l).
    { rewrite <- (take_drop a l) at 1.
      rewrite delete_take_drop, (delete_take_drop (take a l)).
      rewrite take_app_le by (rewrite length_take; lia).
      rewrite drop_app_le by (rewrite length_take; lia).
      by rewrite <- app_assoc. }
    assert (Hlen : length (delete b (take a l)) = a - 1).
    { rewrite length_delete by (apply lookup_lt_is_Some; rewrite length_take; lia).
      rewrite length_take. lia. }
    rewrite (IH (a - 1) (delete b l)); [|done| |].
    + rewrite Hdel.
      rewrite take_app_length' by done.
      by rewrite drop_app_length' by done.
    + eapply Forall_impl; [apply Hb|]. cbn beta. lia.
    + rewrite Hdel, length_app, Hlen. lia.
Qed.

Lemma remove_each_active (q : list nat) (st : state) :
  table_ok st →
  StronglySorted (λ a b, b < a) q →
  Forall (λ nc, nc < n_conn st) q →
  active (remove_each q st) ≡ₚ foldl (λ l nc, delete nc l) (active st) q.
Proof.
  revert st. induction q as [|a q IH]; intros st Hok Hsorted Hvalid;
    cbn [remove_each foldl]; [done|].
  apply StronglySorted_inv in Hsorted as [Hsorted Ha].
  apply Forall_cons in Hvalid as [Han Hvalid].
  pose proof (remove_conn_ok a st Hok) as Hok1.
  pose proof (active_remove_conn a st Hok Han) as Hact.
  pose proof (active_length st Hok) as Hlen.
  assert (Hn1 : n_conn (remove_conn a st).2 = n_conn st - 1).
  { unfold remove_conn. by rewrite decide_False by lia. }
  destruct (remove_conn a st) as [ok st1]. cbn [snd] in *.
  set (L := active st) in *. set (L1 := active st1) in *.
  assert (Hperm : L1 ≡ₚ delete a L).
  { rewrite Hact, <- Hlen. apply swap_delete_perm. lia. }
  assert (Hpre1 : take a L1 = take a L).
  { rewrite Hact, take_take, Nat.min_l by lia. by rewrite take_insert_ge. }
  assert (Hpre2 : take a (delete a L) = take a L).
  { rewrite delete_take_drop. apply take_app_length'. rewrite length_take. lia. }
  assert (Hlen1 : length L1 = n_conn st - 1).
  { unfold L1. rewrite active_length by done. done. }
  assert (Hlen2 : length (delete a L) = n_conn st - 1).
  { rewrite length_delete by (apply lookup_lt_is_Some; lia). lia. }
  assert (Hsuf : drop a L1 ≡ₚ drop a (delete a L)).
  { apply (Permutation_app_inv_l (take a L)).
    assert (H1 : take a L ++ drop a L1 = L1)
      by (rewrite <- Hpre1; apply take_drop).
    assert (H2 : take a L ++ drop a (delete a L) = delete a L)
      by (rewrite <- Hpre2; apply take_drop).
    by rewrite H1, H2. }
  rewrite IH; [|by apply emit_ok|done|].
  2:{ cbn [n_conn emit]. rewrite Hn1.
      eapply Forall_impl; [apply Ha|]. cbn beta. lia. }
  rewrite active_emit. fold L1.
  rewrite (foldl_delete_below q a L1) by (done || lia).
  rewrite (foldl_delete_below q a (delete a L)) by (done || lia).
  rewrite Hpre1, Hpre2. by f_equiv.
Qed.

(** Enqueued from the highest index down, every entry is removed, and
    nothing else: the count drops by the length of the queue, and the
    connections left are those that were open, less the ones at the queued
    positions (deleting from the highest position down does not move the
    positions still to be deleted). *)
Theorem remove_conn_enqueued_descending (st : state) :
  table_ok st →
  StronglySorted (λ a b, b < a) (pending st) →
  Forall (λ nc, nc < n_conn st) (pending st) →
  n_conn (remove_conn_enqueued st) + length (pending st) = n_conn st ∧
  conn_remove_n (remove_conn_enqueued st) = 0 ∧
  active (remove_conn_enqueued st) ≡ₚ
    foldl (λ l nc, delete nc l) (active st) (pending st).
Proof.
  intros Hok Hsorted Hvalid. split_and!; [|done|].
  - unfold remove_conn_enqueued. cbn [n_conn].
    by apply remove_each_n_conn_descending.
  - change (active (remove_conn_enqueued st))
      with (active (remove_each (pending st) st)).
    by apply remove_each_active.
Qed.

Lemma remove_each_keeps_unenqueued
    (q : list nat) (st : state) (i : nat) (s : zmq_pollitem_t * buffer) :
  table_ok st →
  StronglySorted lt q →
  i ∉ q →
  active st !! i = Some s →
  s ∈ active (remove_each q st).
Proof.
  revert st i. induction q as [|nc q IH]; intros st i Hok Hsorted Hi Hs.
  - cbn [remove_each]. by eapply list_elem_of_lookup_2.
  - apply StronglySorted_inv in Hsorted as [Hsorted Hall].
    apply not_elem_of_cons in Hi as [Hne Hi].
    cbn [remove_each].
    pose proof (remove_conn_ok nc st Hok) as Hok'.
    pose proof (active_remove_conn nc st Hok) as Hact.
    assert (Hilt : i < n_conn st).
    { apply lookup_lt_Some in Hs. by rewrite active_length in Hs. }
    destruct (decide (nc < n_conn st)) as [Hnc|Hnc].
    + specialize (Hact Hnc).
      destruct (remove_conn nc st) as [ok st1]. cbn [snd] in *.
      destruct (decide (i < n_conn st - 1)) as [Hlt|Hlast].
      * apply (IH _ i); [by apply emit_ok|done|done|].
        rewrite active_emit, Hact, lookup_take_lt by done.
        by rewrite list_lookup_insert_ne.
      * assert (i = n_conn st - 1) as -> by lia.
        apply (IH _ nc); [by apply emit_ok|done| |].
        -- intros Hin. rewrite Forall_forall in Hall.
           apply Hall in Hin. lia.
        -- rewrite active_emit, Hact, lookup_take_lt by lia.
           rewrite list_lookup_insert_eq by (rewrite active_length by done; lia).
           f_equal. by apply list_lookup_total_correct.
    + unfold remove_conn. rewrite decide_True by lia.
      apply (IH _ i); [by apply emit_ok|done|done|done].
Qed.

Lemma StronglySorted_lt_snoc (l : list nat) (c : nat) :
  StronglySorted lt l → Forall (λ x, x < c) l → StronglySorted lt (l ++ [c]).
Proof.
  induction 1 as [|x l Hs IH Hx]; intros Hall; cbn.
  - repeat constructor.
  - apply Forall_cons in Hall as [Hxc Hall].
    constructor; [by apply IH|].
    apply Forall_app. split; [done|]. by repeat constructor.
Qed.

Lemma read_loop_pending_sorted
    (o : byte_order) (env : poll_env) (k c : nat) (nw : Z) (st : state) :
  length (conn_remove_queue st) = MAX_CONN →
  n_conn st ≤ MAX_CONN →
  conn_remove_n st ≤ c →
  Forall (λ x, x < c) (pending st) →
  StronglySorted lt (pending st) →
  StronglySorted lt (pending (read_loop o env k c nw st)).
Proof.
  revert c nw st. induction k as [|k IH]; intros c nw st Hlen Hn Hq Hall Hs;
    cbn [read_loop]; [done|].
  case_decide as Hguard; [|done]. destruct Hguard as [Hc Hnw].
  case_decide as Hready.
  2:{ apply IH; try done; [lia|].
      eapply Forall_impl; [apply Hall|]. cbn beta. lia. }
  pose proof (conn_event_effect o c (incoming env c) (request env c) st)
    as (_ & Hn' & Hlen' & _ & Hpend).
  destruct Hpend as (_ & Hpend & Hcount); [lia|].
  apply IH; try lia.
  - rewrite Hpend. apply Forall_app. split.
    + eapply Forall_impl; [apply Hall|]. cbn beta. lia.
    + case_decide; repeat constructor; lia.
  - rewrite Hpend. case_decide; [by apply StronglySorted_lt_snoc|].
    by rewrite app_nil_r.
Qed.

Lemma handlers_ok (o : byte_order) (env : poll_env) (st : state) :
  table_ok st → conn_remove_n st = 0 →
  table_ok (handlers o env st) ∧ StronglySorted lt (pending (handlers o env st)).
Proof.
  intros Hst Hq.
  destruct (handlers_entry o env st) as (nw2 & st2 & Hh & Hok & Hn & Hqq).
  specialize (Hok Hst). pose proof Hok as [Hi Hb Hql Hnc].
  assert (Hnil : pending st2 = []) by (unfold pending; by rewrite Hn, Hq).
  destruct (read_loop_invariant o env (n_conn st2) 0 nw2 st2)
    as (Hitems & Hn' & Hlen & _); try done; try lia.
  { rewrite Hnil. constructor. }
  { rewrite Hnil. constructor. }
  rewrite Hh. split.
  - split; [by rewrite Hitems|by rewrite read_loop_buffers_length|done|lia].
  - apply read_loop_pending_sorted; try done; try lia.
    + rewrite Hnil. constructor.
    + rewrite Hnil. constructor.
Qed.

(** A turn removes no connection that its handlers did not enqueue. *)
Theorem turn_keeps_unenqueued
    (o : byte_order) (env : poll_env) (st st' : state) (i : nat)
    (s : zmq_pollitem_t * buffer) :
  table_ok st →
  conn_remove_n st = 0 →
  iteration o env st = Some st' →
  active (handlers o env st) !! i = Some s →
  i ∉ pending (handlers o env st) →
  s ∈ active st'.
Proof.
  intros Hst Hq Hit Hs Hi.
  unfold iteration in Hit. case_decide; [done|]. injection Hit as <-.
  destruct (handlers_ok o env st Hst Hq) as [Hok Hsorted].
  change (active (remove_conn_enqueued (handlers o env st)))
    with (active (remove_each (pending (handlers o env st)) (handlers o env st))).
  by eapply remove_each_keeps_unenqueued.
Qed.

(** ** The buffer pool *)

Lemma strtok_length (mem : list byte) (p : nat) :
  length (strtok mem p).1.2 = length mem.
Proof.
  unfold strtok. repeat case_decide; cbn [fst snd]; by rewrite ?length_insert.
Qed.

(** [send_request] writes to the block of its connection only, and keeps
    its length. *)
Lemma send_request_store (o : byte_order) (nc : nat) (req : list byte) (st : state) :
  buffers (send_request o nc req st) = buffers st ∧
  n_conn (send_request o nc req st) = n_conn st ∧
  ∃ mem', heap (send_request o nc req st) =
            <[buf (buffers st !!! nc) := mem']> (heap st) ∧
          length mem' = length (heap st !!! buf (buffers st !!! nc)).
Proof.
  unfold send_request, send_request_cleanup.
  set (mem := heap st !!! buf (buffers st !!! nc)).
  pose proof (strtok_length mem 0) as H1.
  destruct (strtok mem 0) as [[tok mem1] save1]. cbn [fst snd] in H1.
  destruct tok as [token|]; [|split_and!; [done..|by exists mem1]].
  case_decide; [|split_and!; [done..|by exists mem1]].
  pose proof (strtok_length mem1 save1) as H2.
  destruct (strtok mem1 save1) as [[tok2 mem2] save2]. cbn [fst snd] in H2.
  assert (Hlen : length mem2 = length mem) by congruence.
  destruct tok2 as [resource|]; [|split_and!; [done..|by exists mem2]].
  destruct (index (drop resource mem2) x3f) as [q|];
    [|split_and!; [done..|by exists mem2]].
  case_decide; split_and!; try done; by exists mem2.
Qed.

(** [read_input] rewrites the struct and the block of its connection only. *)
Lemma length_poke (mem : list byte) (p : Z) (v : byte) :
  length (poke mem p v) = length mem.
Proof. unfold poke. case_decide; [apply length_insert|done]. Qed.

Lemma read_input_store (nc : nat) (input : recv_outcome) (st : state) :
  let b := buffers st !!! nc in
  let r := read_input nc input st in
  ∃ sz mem',
    buffers r.2 = <[nc := Buffer (buf b) sz]> (buffers st) ∧
    heap r.2 = <[buf b := mem']> (heap st) ∧
    (input ≠ Fails → size b ≤ sz)%Z ∧
    (size b ≤ BUFLEN → sz ≤ BUFLEN)%Z ∧
    ((size b ≤ BUFLEN)%Z → length (heap st !!! buf b) = BUFLEN →
     length mem' = BUFLEN).
Proof.
  intros b r. subst r. unfold read_input. cbv zeta. fold b.
  set (data := match input with
               | Delivers incoming => take (Z.to_nat (BUFLEN - size b)) incoming
               | Fails => []
               end).
  set (received := match input with
                   | Delivers _ => Z.of_nat (length data)
                   | Fails => (-1)%Z
                   end).
  assert (Hrec : (size b ≤ BUFLEN → size b + received ≤ BUFLEN)%Z).
  { unfold received, data. destruct input; [rewrite length_take|]; lia. }
  assert (Hdata : (size b ≤ BUFLEN → size b + length data ≤ BUFLEN)%Z).
  { unfold data. destruct input; [rewrite length_take|cbn]; lia. }
  assert (Hpos : (input ≠ Fails → 0 ≤ received)%Z).
  { unfold received. destruct input; [lia|done]. }
  set (mem := heap st !!! buf b).
  set (mem1 := store mem (size b) data).
  assert (Hmem1 : (size b ≤ BUFLEN)%Z → length mem = BUFLEN → length mem1 = BUFLEN).
  { intros Hsz Hlen. unfold mem1. rewrite length_store; [done|].
    rewrite Hlen. auto. }
  assert (Hid : <[nc := Buffer (buf b) (size b)]> (buffers st) = buffers st).
  { destruct (buffers st !! nc) as [b0|] eqn:Hb.
    - apply list_insert_id. rewrite Hb. f_equal.
      unfold b. rewrite (list_lookup_total_correct _ _ _ Hb). by destruct b0.
    - apply list_insert_ge. by apply lookup_ge_None. }
  case_decide as Hzero.
  - exists (size b), mem1.
    cbn [fst snd buffers heap remove_conn_later emit set_heap].
    rewrite Hid. split_and!; auto; lia.
  - case_decide.
    + exists (size b + received)%Z, mem1.
      cbn [fst snd buffers heap set_buffers emit set_heap].
      split_and!; auto. intros Hne. specialize (Hpos Hne). lia.
    + destruct (scan_eol mem1 (size b) (Z.to_nat (received + 1))).1 as [e|].
      * exists (size b + received)%Z, (poke mem1 e x00).
        cbn [fst snd buffers heap set_buffers emit set_heap].
        rewrite list_insert_insert_eq.
        split_and!; auto.
        -- intros Hne. specialize (Hpos Hne). lia.
        -- intros ? ?. rewrite length_poke. auto.
      * exists (size b + received)%Z, mem1.
        cbn [fst snd buffers heap set_buffers emit set_heap].
        split_and!; auto. intros Hne. specialize (Hpos Hne). lia.
Qed.

Lemma buf_lookup_total_insert (bs : list buffer) (nc : nat) (b0 : nat) (sz : Z) :
  b0 = buf (bs !!! nc) →
  buf (<[nc := Buffer b0 sz]> bs !!! nc) = buf (bs !!! nc).
Proof.
  intros ->. destruct (decide (nc < length bs)).
  - by rewrite list_lookup_total_insert_eq.
  - by rewrite list_insert_ge by lia.
Qed.

(** One read event: the struct and the block of connection [c], nothing
    else. *)
Lemma conn_event_store
    (o : byte_order) (c : nat) (data : recv_outcome) (req : list byte) (st : state) :
  let b := buffers st !!! c in
  let st2 := conn_event o c data req st in
  ∃ sz mem',
    buffers st2 = <[c := Buffer (buf b) sz]> (buffers st) ∧
    heap st2 = <[buf b := mem']> (heap st) ∧
    (data ≠ Fails → size b ≤ sz)%Z ∧
    (size b ≤ BUFLEN → sz ≤ BUFLEN)%Z ∧
    ((size b ≤ BUFLEN)%Z → length (heap st !!! buf b) = BUFLEN →
     length mem' = BUFLEN).
Proof.
  intros b st2. subst st2. unfold conn_event.
  destruct (read_input_store c data st) as (sz & mem' & Hb & Hh & Hsz & Hle & Hlen).
  fold b in Hb, Hh, Hsz, Hle, Hlen.
  destruct (read_status_ret _); [|by exists sz, mem'].
  destruct (send_request_store o c req (read_input c data st).2)
    as (Hb2 & _ & mem2 & Hh2 & Hlen2).
  rewrite Hb in Hh2, Hlen2.
  assert (Hbuf : buf (<[c := Buffer (buf b) sz]> (buffers st) !!! c) = buf b)
    by (by apply buf_lookup_total_insert).
  rewrite Hbuf in Hh2, Hlen2. rewrite Hh in Hh2, Hlen2.
  rewrite list_insert_insert_eq in Hh2.
  exists sz, mem2. rewrite Hb2, Hb, Hh2. split_and!; auto.
  intros Hs Hl. rewrite Hlen2.
  destruct (decide (buf b < length (heap st))) as [Hlt|Hge].
  - rewrite list_lookup_total_insert_eq by done. auto.
  - rewrite list_insert_ge by lia. done.
Qed.

Lemma initial_state_store (fill : byte) :
  store_ok (initial_state fill) ∧ inactive_empty (initial_state fill).
Proof.
  split.
  - unfold initial_state. split; cbn [heap buffers].
    + apply length_replicate.
    + apply Forall_replicate, length_replicate.
    + rewrite map_map. cbn [buf]. rewrite map_id. apply NoDup_seq.
    + apply Forall_forall. intros b Hb.
      apply list_elem_of_fmap in Hb as (i & -> & Hi).
      apply elem_of_seq in Hi. cbn. lia.
  - intros i b _ Hb. unfold initial_state in Hb. cbn [buffers] in Hb.
    apply list_lookup_fmap_Some in Hb as (j & -> & _). done.
Qed.

Lemma NoDup_swap (l : list nat) (i j : nat) :
  i < length l → j < length l → NoDup l →
  NoDup (<[j := l !!! i]> (<[i := l !!! j]> l)).
Proof.
  intros Hi Hj Hnd. rewrite NoDup_alt in Hnd. apply NoDup_alt.
  pose proof (list_lookup_lookup_total_lt l i Hi) as Hli.
  pose proof (list_lookup_lookup_total_lt l j Hj) as Hlj.
  assert (Hlook : ∀ a, <[j := l !!! i]> (<[i := l !!! j]> l) !! a =
                       if decide (a = j) then l !! i
                       else if decide (a = i) then l !! j else l !! a).
  { intros a. rewrite !list_lookup_insert, length_insert.
    destruct (decide (a = j)) as [->|Haj].
    - by rewrite decide_True.
    - rewrite decide_False by (intros [? _]; done).
      destruct (decide (a = i)) as [->|Hai].
      + by rewrite decide_True.
      + by rewrite decide_False by (intros [? _]; done). }
  intros a b x. rewrite !Hlook. intros Ha Hb.
  repeat case_decide; subst; try done;
    match goal with
    | H1 : l !! ?u = Some x, H2 : l !! ?v = Some x |- _ =>
        pose proof (Hnd u v x H1 H2)
    end; congruence.
Qed.

Lemma remove_conn_store (nc : nat) (st : state) :
  table_ok st → store_ok st → inactive_empty st →
  store_ok (remove_conn nc st).2 ∧ inactive_empty (remove_conn nc st).2.
Proof.
  intros [Hi Hb Hq Hn] [Hh Hbl Hown Hbufs] Hin.
  unfold remove_conn. case_decide as Hge; [by split|].
  cbn [snd]. set (last := n_conn st - 1).
  assert (Hlast : last < length (buffers st)) by (unfold last; lia).
  assert (Hnc : nc < length (buffers st)) by lia.
  assert (Hbs : <[last := Buffer (buf (<[last := buffers st !!! nc]>
                   (<[nc := buffers st !!! last]> (buffers st)) !!! last)) 0%Z]>
                 (<[last := buffers st !!! nc]>
                   (<[nc := buffers st !!! last]> (buffers st))) =
                <[last := Buffer (buf (buffers st !!! nc)) 0%Z]>
                   (<[nc := buffers st !!! last]> (buffers st))).
  { rewrite list_lookup_total_insert_eq by (by rewrite length_insert).
    by rewrite list_insert_insert_eq. }
  split.
  - split; cbn [heap buffers]; [done|done| |].
    + rewrite Hbs. rewrite !list_fmap_insert. cbn [buf].
      assert (E1 : buf (buffers st !!! last) = (buf <$> buffers st) !!! last)
        by (symmetry; by apply list_lookup_total_fmap).
      assert (E2 : buf (buffers st !!! nc) = (buf <$> buffers st) !!! nc)
        by (symmetry; by apply list_lookup_total_fmap).
      rewrite E1, E2.
      apply NoDup_swap; by rewrite ?length_fmap.
    + rewrite Hbs.
      apply Forall_insert; [apply Forall_insert; [done|]|].
      * by apply (Forall_lookup_total_1 _ _ last Hbufs).
      * cbn. split; [|lia].
        by apply (Forall_lookup_total_1 _ _ nc Hbufs).
  - intros i b Hige. cbn [n_conn buffers] in *. fold last. rewrite Hbs.
    rewrite list_lookup_insert, length_insert.
    destruct (decide (last = i)) as [<-|Hne].
    + rewrite decide_True by done. by intros [= <-].
    + rewrite decide_False by (intros [? _]; done).
      assert (Hgt : n_conn st ≤ i) by (unfold last in *; lia).
      rewrite list_lookup_insert_ne by lia.
      by apply Hin.
Qed.

Lemma conn_event_pool (o : byte_order) (c : nat) (data : recv_outcome) (req : list byte) (st : state) :
  store_ok st →
  store_ok (conn_event o c data req st) ∧
  (c < n_conn st → inactive_empty st → inactive_empty (conn_event o c data req st)).
Proof.
  intros [Hh Hbl Hown Hbufs].
  destruct (conn_event_store o c data req st) as (sz & mem' & Hb & Hhp & Hsz & Hle & Hlen).
  pose proof (conn_event_effect o c data req st) as (_ & Hn & _).
  set (b := buffers st !!! c) in *.
  assert (Hbok : buf b < MAX_CONN ∧ (size b ≤ BUFLEN)%Z).
  { destruct (decide (c < length (buffers st))) as [Hlt|Hge].
    - by apply (Forall_lookup_total_1 _ _ c Hbufs).
    - unfold b. rewrite list_lookup_total_alt, lookup_ge_None_2 by lia.
      cbn. unfold MAX_CONN. lia. }
  destruct Hbok as [Hbuf Hsize].
  split.
  - split.
    + by rewrite Hhp, length_insert.
    + rewrite Hhp. apply Forall_insert; [done|]. apply Hlen; [done|].
      apply (Forall_lookup_total_1 _ _ (buf b) Hbl). lia.
    + rewrite Hb, list_fmap_insert. cbn [buf].
      destruct (decide (c < length (buffers st))) as [Hlt|Hge].
      * rewrite list_insert_id; [done|].
        rewrite list_lookup_fmap.
        by rewrite (list_lookup_lookup_total_lt (buffers st)) by done.
      * by rewrite list_insert_ge by (rewrite length_map; lia).
    + rewrite Hb. apply Forall_insert; [done|]. cbn. auto.
  - intros Hc Hin i b0 Hi. rewrite Hn in Hi. rewrite Hb.
    rewrite list_lookup_insert_ne by lia. by apply Hin.
Qed.

Lemma read_loop_pool
    (o : byte_order) (env : poll_env) (k c : nat) (nw : Z) (st : state) :
  store_ok st → inactive_empty st →
  store_ok (read_loop o env k c nw st) ∧ inactive_empty (read_loop o env k c nw st).
Proof.
  revert c nw st. induction k as [|k IH]; intros c nw st Hs Hin;
    cbn [read_loop]; [done|].
  case_decide as Hguard; [|done]. destruct Hguard as [Hc _].
  case_decide; [|by apply IH].
  destruct (conn_event_pool o c (incoming env c) (request env c) st Hs) as [Hs' Hin'].
  apply IH; auto.
Qed.

Lemma store_ok_same (st st' : state) :
  heap st' = heap st → buffers st' = buffers st → store_ok st → store_ok st'.
Proof. intros Hh Hb [? ? ? ?]. split; by rewrite ?Hh, ?Hb. Qed.

Lemma inactive_empty_mono (st st' : state) :
  buffers st' = buffers st → n_conn st ≤ n_conn st' →
  inactive_empty st → inactive_empty st'.
Proof.
  intros Hb Hn Hin i b Hi. rewrite Hb. apply Hin. lia.
Qed.

Lemma accept_conn_pool (sd : Z) (st : state) :
  heap (accept_conn sd st) = heap st ∧
  buffers (accept_conn sd st) = buffers st ∧
  n_conn st ≤ n_conn (accept_conn sd st).
Proof.
  unfold accept_conn. destruct (decide (sd < 0)%Z); [done|].
  unfold add_conn. destruct (decide _); cbn; split_and!; try done. lia.
Qed.

Lemma handlers_pool (o : byte_order) (env : poll_env) (st : state) :
  store_ok st → inactive_empty st →
  store_ok (handlers o env st) ∧ inactive_empty (handlers o env st).
Proof.
  intros Hs Hin. unfold handlers.
  set (st0 := set_conn_items _ st).
  assert (H0 : store_ok st0 ∧ inactive_empty st0).
  { split; [by apply (store_ok_same st)|by apply (inactive_empty_mono st)]. }
  destruct H0 as [Hs0 Hin0].
  destruct (broker_step env (n_waiting env) st0) as [nw1 st1] eqn:Hb.
  assert (H1 : store_ok st1 ∧ inactive_empty st1).
  { unfold broker_step in Hb.
    destruct (decide (Z.land (broker_revents env) ZMQ_POLLIN ≠ 0%Z));
      inversion Hb; subst; [|done].
    split; [by apply (store_ok_same st0)|by apply (inactive_empty_mono st0)]. }
  destruct H1 as [Hs1 Hin1].
  destruct (http_step env _ nw1 st1) as [nw2 st2] eqn:Hhs.
  assert (H2 : store_ok st2 ∧ inactive_empty st2).
  { unfold http_step in Hhs.
    match type of Hhs with (if ?d then _ else _) = _ => destruct d end;
      inversion Hhs; subst; [|done].
    destruct (accept_conn_pool (client_socket env) st1) as (Hh & Hbf & Hn).
    split; [by apply (store_ok_same st1)|by apply (inactive_empty_mono st1)]. }
  destruct H2. by apply read_loop_pool.
Qed.

Lemma remove_each_pool (q : list nat) (st : state) :
  table_ok st → store_ok st → inactive_empty st →
  store_ok (remove_each q st) ∧ inactive_empty (remove_each q st).
Proof.
  revert st. induction q as [|nc q IH]; intros st Hok Hs Hin; cbn [remove_each];
    [done|].
  pose proof (remove_conn_ok nc st Hok) as Hok'.
  destruct (remove_conn_store nc st Hok Hs Hin) as [Hs' Hin'].
  destruct (remove_conn nc st) as [ok st1]. cbn [snd] in *.
  apply IH; [by apply emit_ok| |done]. by apply (store_ok_same st1).
Qed.

Lemma iteration_pool (o : byte_order) (env : poll_env) (st st' : state) :
  table_ok st → conn_remove_n st = 0 → store_ok st → inactive_empty st →
  iteration o env st = Some st' →
  store_ok st' ∧ inactive_empty st'.
Proof.
  intros Hok Hq Hs Hin Hit.
  unfold iteration in Hit. case_decide; [done|]. injection Hit as <-.
  destruct (handlers_ok o env st Hok Hq) as [Hok' _].
  destruct (handlers_pool o env st Hs Hin) as [Hs' Hin'].
  destruct (remove_each_pool (pending (handlers o env st)) _ Hok' Hs' Hin')
    as [Hs2 Hin2].
  split; [by apply (store_ok_same (remove_each (pending (handlers o env st))
                                     (handlers o env st)))|done].
Qed.

Lemma run_pool (o : byte_order) (envs : list poll_env) (st st' : state) :
  table_ok st → conn_remove_n st = 0 → store_ok st → inactive_empty st →
  run o envs st = Some st' →
  store_ok st' ∧ inactive_empty st'.
Proof.
  revert st. induction envs as [|env envs IH]; intros st Hok Hq Hs Hin; cbn [run].
  - by intros [= <-].
  - destruct (iteration o env st) as [st1|] eqn:Hit; [|done].
    destruct (iteration_ok o env st st1 Hok Hq Hit).
    destruct (iteration_pool o env st st1 Hok Hq Hs Hin Hit). by apply IH.
Qed.

(** ** The descriptor that comes back from the broker *)

Lemma Z_of_byte_of_Z_mod (z : Z) : Z_of_byte (byte_of_Z z) = (z mod 256)%Z.
Proof.
  unfold Z_of_byte, byte_of_Z.
  pose proof (Z.mod_pos_bound z 256 eq_refl) as Hb.
  destruct (Byte.of_N (Z.to_N (z mod 256))) as [b|] eqn:Hof.
  - simpl. apply Byte.to_of_N in Hof. rewrite Hof. lia.
  - apply Byte.of_N_None_iff in Hof. lia.
Qed.

(** The byte the router reads from the frame built for descriptor [d]. *)
Lemma descriptor_first_byte (o : byte_order) (d : Z) :
  (0 ≤ d < 2 ^ 32)%Z →
  Z_of_byte (([uint32_bytes o d] !!! 0) !!! 0) =
    match o with
    | LittleEndian => (d mod 256)%Z
    | BigEndian => (d / 2 ^ 24)%Z
    end.
Proof.
  intros Hd. destruct o; cbn.
  - apply Z_of_byte_of_Z_mod.
  - rewrite Z_of_byte_of_Z_mod. apply Z.mod_small.
    split; [apply Z.div_pos; lia|].
    apply Z.div_lt_upper_bound; lia.
Qed.

(** The descriptor the reply router writes to, for the frame that
    [send_request] builds from descriptor [d]: its low byte on a
    little-endian machine, its high byte on a big-endian one.  It is [d]
    itself only for [d] below 256 on the former and for 0 on the latter. *)
Theorem route_reply_descriptor (o : byte_order) (d : Z) (p : list byte) (st : state) :
  (0 ≤ d < 2 ^ 32)%Z →
  let sd := match o with
            | LittleEndian => (d mod 256)%Z
            | BigEndian => (d / 2 ^ 24)%Z
            end in
  log (route_reply [uint32_bytes o d; p] st) =
    log st ++ [EvBrokerRecv [uint32_bytes o d; p];
               EvSend sd OK_TEXT_PLAIN; EvSend sd (cstring p); EvClose sd] ∧
  (sd = d ↔ o = LittleEndian ∧ (d < 256)%Z ∨ d = 0%Z).
Proof.
  intros Hd sd. split.
  - unfold route_reply. cbn [log emit].
    change (([uint32_bytes o d; p] !!! 0) !!! 0)
      with (([uint32_bytes o d] !!! 0) !!! 0).
    by rewrite (descriptor_first_byte o d Hd).
  - subst sd. destruct o.
    + split.
      * intros Hmod. assert (d < 256)%Z; [|by auto].
        pose proof (Z.mod_pos_bound d 256 eq_refl). lia.
      * intros [[_ Hlt]| ->]; [apply Z.mod_small; lia|done].
    + split.
      * intros Hdiv. right.
        assert (Hle : (d / 2 ^ 24 * 2 ^ 24 ≤ d)%Z).
        { rewrite Z.mul_comm. apply Z.mul_div_le. lia. }
        rewrite Hdiv in Hle. lia.
      * intros [[? _]| ->]; [done|done].
Qed.

(** ** The other ways out of [read_input] *)

Lemma read_input_closed_iff
    (nc : nat) (input : recv_outcome) (st : state) (b : buffer) :
  buffers st !! nc = Some b →
  (read_input nc input st).1.1 = PeerClosed ↔
    ∃ incoming, input = Delivers incoming ∧ (incoming = [] ∨ (BUFLEN ≤ size b)%Z).
Proof.
  intros Hb. destruct input as [incoming|].
  - unfold read_input. cbv zeta.
    rewrite (list_lookup_total_correct _ _ _ Hb).
    assert (Hzero :
      Z.of_nat (length (take (Z.to_nat (BUFLEN - size b)) incoming)) = 0%Z ↔
      incoming = [] ∨ (BUFLEN ≤ size b)%Z).
    { rewrite length_take. destruct incoming as [|x l]; cbn [length].
      - split; [by left|lia].
      - split; [right; lia|]. intros [?|?]; [done|lia]. }
    case_decide as Hrec.
    + cbn [fst]. split; [|done].
      intros _. exists incoming. split; [done|by apply Hzero].
    + split.
      * intros Hst. exfalso. revert Hst.
        case_decide; [done|]. by destruct (scan_eol _ _ _).1.
      * intros (inc & [= <-] & Hz). exfalso. apply Hrec. by apply Hzero.
  - rewrite read_input_fails. cbv zeta. split.
    + by destruct (decide _).
    + by intros (? & ? & _).
Qed.

Lemma heap_insert_same (st : state) (k : nat) :
  <[k := heap st !!! k]> (heap st) = heap st.
Proof.
  destruct (decide (k < length (heap st))) as [Hlt|Hge].
  - apply list_insert_id. by apply list_lookup_lookup_total_lt.
  - apply list_insert_ge. lia.
Qed.

(** The read is taken for a closed peer exactly when [recv] returns 0:
    it has not failed, and the socket delivers nothing or the buffer has
    no room left.  The connection is then enqueued and neither its buffer
    nor any block changes.  A failing [recv] is never taken for a closed
    peer. *)
Theorem read_input_peer_closed
    (nc : nat) (input : recv_outcome) (st : state) (b : buffer) :
  buffers st !! nc = Some b →
  let r := read_input nc input st in
  (r.1.1 = PeerClosed ↔
     ∃ incoming, input = Delivers incoming ∧
                 (incoming = [] ∨ (BUFLEN ≤ size b)%Z)) ∧
  (r.1.1 = PeerClosed →
     conn_remove_queue r.2 = <[conn_remove_n st := nc]> (conn_remove_queue st) ∧
     conn_remove_n r.2 = conn_remove_n st + 1 ∧
     buffers r.2 = buffers st ∧
     heap r.2 = heap st ∧
     log r.2 = log st ++ [EvRecv (fd (conn_items st !!! nc)) 0]).
Proof.
  intros Hb r. split; [by apply read_input_closed_iff|].
  intros Hpc. pose proof Hpc as Hin.
  apply (read_input_closed_iff nc input st b Hb) in Hin as (incoming & -> & Hz).
  subst r. revert Hpc. unfold read_input. cbv zeta.
  rewrite (list_lookup_total_correct _ _ _ Hb).
  assert (Hrec : length (take (Z.to_nat (BUFLEN - size b)) incoming) = 0).
  { rewrite length_take. destruct Hz as [->|Hz]; [cbn; lia|lia]. }
  case_decide as Hd; [|lia]. intros _.
  cbn [fst snd conn_remove_queue conn_remove_n buffers heap log remove_conn_later
       emit set_heap].
  rewrite Hrec. split_and!; try done.
  apply length_zero_iff_nil in Hrec. rewrite Hrec, store_nil.
  apply heap_insert_same.
Qed.

(** A failing [recv] is not taken for a closed peer and ends no line: the
    call returns false on the path of an incomplete line, nothing is
    enqueued, stored or scanned, and [size] goes down by one.  On an empty
    buffer that leaves [size] at -1, and the next [recv] that delivers
    bytes is handed the offset before the block, with room for
    [BUFLEN + 1] bytes: its first byte is stored outside the block. *)
Theorem read_input_recv_fails (nc : nat) (st : state) (b : buffer) :
  buffers st !! nc = Some b →
  (size b ≤ BUFLEN)%Z →
  let r := read_input nc Fails st in
  r.1.1 = NeedMore ∧
  read_status_ret r.1.1 = false ∧
  pending r.2 = pending st ∧
  conn_remove_n r.2 = conn_remove_n st ∧
  heap r.2 = heap st ∧
  buffers r.2 = <[nc := Buffer (buf b) (size b - 1)]> (buffers st) ∧
  log r.2 = log st ++ [EvRecvFailed (fd (conn_items st !!! nc))] ∧
  filled r.1.2 = [] ∧ seen r.1.2 = [] ∧
  (size b = 0%Z → ∀ data,
     let r2 := read_input nc (Delivers data) r.2 in
     filled r2.1.2 = seqZ (-1) (length (take (BUFLEN + 1) data)) ∧
     (data ≠ [] → ¬ Forall (λ p, 0 ≤ p)%Z (filled r2.1.2))).
Proof.
  intros Hb Hsize r. subst r. rewrite read_input_fails. cbv zeta.
  rewrite (list_lookup_total_correct _ _ _ Hb).
  rewrite decide_False by lia.
  cbn [fst snd conn_remove_queue conn_remove_n buffers heap log set_buffers
       emit set_heap filled seen].
  split_and!; try done.
  - by rewrite heap_insert_same.
  - intros Hzero data.
    assert (Hnc : nc < length (buffers st)) by (by eapply lookup_lt_Some).
    assert (Hfill : filled (read_input nc (Delivers data)
                      (set_buffers (λ bs, <[nc := Buffer (buf b) (size b - 1)]> bs)
                         (emit [EvRecvFailed (fd (conn_items st !!! nc))]
                            (set_heap (λ h, <[buf b := heap st !!! buf b]> h) st)))).1.2 =
                    seqZ (-1) (length (take (BUFLEN + 1) data))).
    { unfold read_input. cbv zeta.
      cbn [buffers set_buffers emit set_heap].
      rewrite list_lookup_total_insert_eq by done. cbn [size buf].
      rewrite Hzero.
      replace (Z.to_nat (BUFLEN - (0 - 1))) with (BUFLEN + 1) by lia.
      repeat case_decide; try destruct (scan_eol _ _ _).1; done. }
    split; [done|].
    intros Hne Hall. rewrite Hfill in Hall.
    assert (Hlen : 0 < length (take (BUFLEN + 1) data)).
    { rewrite length_take. destruct data; [done|cbn; lia]. }
    rewrite Forall_forall in Hall.
    assert (Hneg : (0 ≤ -1)%Z); [|lia].
    apply Hall. apply elem_of_seqZ. lia.
Qed.

(** After an [Overflow] the connection is still in the table, not enqueued,
    and nothing was sent; its buffer is full.  At the next read of that
    connection [recv] is asked for 0 bytes: when it returns, that is 0,
    whatever the socket holds, and the connection is taken for closed and
    enqueued; when it fails, the connection is not enqueued and its buffer
    counts one byte less. *)
Theorem read_input_after_overflow
    (nc : nat) (incoming : list byte) (next : recv_outcome) (st : state) (b : buffer) :
  buffers st !! nc = Some b →
  conn_remove_n st < length (conn_remove_queue st) →
  let r := read_input nc (Delivers incoming) st in
  r.1.1 = Overflow →
  pending r.2 = pending st ∧
  log r.2 =
    log st ++ [EvRecv (fd (conn_items st !!! nc)) (Z.to_nat (BUFLEN - size b))] ∧
  buffers r.2 !! nc = Some (Buffer (buf b) BUFLEN) ∧
  let r2 := read_input nc next r.2 in
  match next with
  | Delivers _ =>
      r2.1.1 = PeerClosed ∧ pending r2.2 = pending st ++ [nc]
  | Fails =>
      r2.1.1 = NeedMore ∧ pending r2.2 = pending st ∧
      buffers r2.2 !! nc = Some (Buffer (buf b) (BUFLEN - 1))
  end.
Proof.
  intros Hb Hroom r Hover.
  assert (Hnc : nc < length (buffers st)) by (by eapply lookup_lt_Some).
  set (got := Z.to_nat (BUFLEN - size b)).
  assert (Hshape : (size b < BUFLEN)%Z ∧
                   r.2 = set_buffers (λ bs, <[nc := Buffer (buf b) BUFLEN]> bs)
                           (emit [EvRecv (fd (conn_items st !!! nc)) got]
                              (set_heap (λ h, <[buf b :=
                                 store (heap st !!! buf b) (size b)
                                   (take got incoming)]> h) st))).
  { subst r. revert Hover. unfold read_input. cbv zeta.
    rewrite (list_lookup_total_correct _ _ _ Hb). fold got.
    pose proof (length_take_le incoming got) as Hle.
    case_decide as Hrec; [done|].
    case_decide as Hfull; [|by destruct (scan_eol _ _ _).1].
    intros _.
    assert (Hlen : length (take got incoming) = got).
    { rewrite length_take in *. lia. }
    rewrite Hlen. split; [lia|]. cbn [snd].
    by replace (size b + got)%Z with (Z.of_nat BUFLEN) by lia. }
  destruct Hshape as (Hsz & Hr2).
  assert (Hb2 : buffers r.2 !! nc = Some (Buffer (buf b) BUFLEN)).
  { rewrite Hr2. cbn [buffers set_buffers emit set_heap].
    by apply list_lookup_insert_eq. }
  assert (Hp2 : pending r.2 = pending st) by (by rewrite Hr2).
  assert (Hq2 : conn_remove_n r.2 < length (conn_remove_queue r.2))
    by (by rewrite Hr2).
  split_and!; [done|by rewrite Hr2|done|].
  intros r2. subst r2. destruct next as [data|].
  - assert (Hpc : (read_input nc (Delivers data) r.2).1.1 = PeerClosed).
    { apply (read_input_closed_iff nc (Delivers data) r.2 _ Hb2).
      exists data. split; [done|]. right. cbn. lia. }
    split; [done|].
    destruct (read_input_effect nc (Delivers data) r.2) as (_ & _ & _ & _ & _ & _ & Hq).
    rewrite decide_True in Hq by done. destruct Hq as [Hq1 Hq3].
    unfold pending at 1. rewrite Hq1, Hq3, <- Hp2.
    by apply (pending_remove_conn_later nc r.2).
  - rewrite read_input_fails. cbv zeta.
    rewrite (list_lookup_total_correct _ _ _ Hb2). cbn [size buf].
    rewrite decide_False by lia.
    cbn [fst snd].
    split_and!; [done|by rewrite <- Hp2|].
    cbn [buffers set_buffers emit set_heap].
    apply list_lookup_insert_eq. by eapply lookup_lt_Some.
Qed.

Lemma scan_eol_none (a pre rest : list byte) (k : nat) :
  Forall (λ c, is_eol c = false) pre →
  k ≤ length pre →
  (scan_eol (a ++ pre ++ rest) (length a) k).1 = None.
Proof.
  revert a k. induction pre as [|x pre IH]; intros a k Hpre Hk.
  - destruct k; [done|cbn in Hk; lia].
  - destruct k as [|k]; [done|].
    apply Forall_cons in Hpre as [Hx Hpre]. cbn [scan_eol].
    change (a ++ (x :: pre) ++ rest) with (a ++ x :: pre ++ rest).
    rewrite byte_at_nat, list_lookup_total_middle by done. rewrite Hx.
    specialize (IH (a ++ [x]) k Hpre).
    rewrite length_app in IH. cbn [length] in IH.
    rewrite <- app_assoc in IH. cbn [app] in IH.
    replace (Z.of_nat (length a) + 1)%Z with (Z.of_nat (length a + 1)) by lia.
    destruct (scan_eol (a ++ x :: pre ++ rest) (length a + 1)%nat k) as [found seen].
    cbn [fst] in *. apply IH. cbn in Hk. lia.
Qed.

(** When the delivered bytes hold no terminator and leave room, the scan
    still inspects the byte after them, which [recv] did not write: the read
    completes a line exactly when that stale byte is a line feed or a
    carriage return.  Either way the delivered bytes are appended. *)
Theorem read_input_without_terminator
    (nc : nat) (incoming : list byte) (st : state) (b : buffer) (mem : list byte) :
  buffers st !! nc = Some b →
  heap st !! buf b = Some mem →
  length mem = BUFLEN →
  incoming ≠ [] →
  Forall (λ c, is_eol c = false) incoming →
  (0 ≤ size b)%Z →
  (size b + length incoming < BUFLEN)%Z →
  let r := read_input nc (Delivers incoming) st in
  let sz := Z.to_nat (size b) in
  let stale := mem !!! (sz + length incoming) in
  r.1.1 = (if is_eol stale then LineComplete else NeedMore) ∧
  buffers r.2 !! nc = Some (Buffer (buf b) (size b + length incoming)) ∧
  heap r.2 !! buf b =
    Some (take sz mem ++ incoming ++
          (if is_eol stale then x00 else stale) ::
          drop (S (sz + length incoming)) mem) ∧
  pending r.2 = pending st.
Proof.
  intros Hb Hmem Hlen Hne Hnoeol Hpos0 Hfit r sz stale. subst r.
  assert (Hnc : nc < length (buffers st)) by (by eapply lookup_lt_Some).
  assert (Hblk : buf b < length (heap st)) by (by eapply lookup_lt_Some).
  assert (Hstale : mem !! (sz + length incoming) = Some stale).
  { apply list_lookup_lookup_total_lt. lia. }
  assert (Hdrop : drop (sz + length incoming) mem =
                  stale :: drop (S (sz + length incoming)) mem).
  { by apply drop_S. }
  assert (Hacc : length (take sz mem) = sz).
  { rewrite length_take. lia. }
  pose proof (buffers_lookup_total _ _ _ Hb) as Hbt.
  assert (Hsz : size (buffers st !!! nc) = sz) by (rewrite Hbt; lia).
  rewrite (read_input_delivers nc incoming st sz Hsz), Hbt. cbv zeta.
  rewrite (list_lookup_total_correct _ _ _ Hmem).
  rewrite take_ge by lia.
  assert (Hpos : length incoming ≠ 0) by (by destruct incoming).
  rewrite decide_False by done. rewrite decide_False by lia.
  rewrite Hdrop.
  assert (Hsize' : Z.of_nat (sz + length incoming) = (size b + length incoming)%Z)
    by lia.
  rewrite Hsize'.
  destruct (is_eol stale) eqn:Heol.
  - pose proof (scan_eol_first (take sz mem) incoming
       (drop (S (sz + length incoming)) mem) stale (length incoming + 1)
       Hnoeol Heol) as Hs.
    rewrite Hacc in Hs. rewrite Hs by lia.
    cbn [fst snd buffers heap set_heap set_buffers emit].
    rewrite poke_nat.
    split_and!; [done|by apply list_lookup_insert_eq| |done].
    rewrite list_insert_insert_eq, list_lookup_insert_eq by done. f_equal.
    rewrite (app_assoc (take sz mem) incoming (stale :: _)).
    rewrite (app_assoc (take sz mem) incoming (x00 :: _)).
    rewrite <- Hacc at 1. rewrite <- length_app. apply insert_middle.
  - pose proof (scan_eol_none (take sz mem) (incoming ++ [stale])
       (drop (S (sz + length incoming)) mem) (length incoming + 1)) as Hs.
    rewrite Hacc, <- app_assoc in Hs. cbn [app] in Hs. rewrite Hs.
    + cbn [fst snd buffers heap set_heap set_buffers emit].
      split_and!; [done|by apply list_lookup_insert_eq| |done].
      by rewrite list_lookup_insert_eq.
    + apply Forall_app. split; [done|]. by repeat constructor.
    + rewrite length_app. cbn. lia.
Qed.

(** ** The readiness budget of a turn *)

Lemma recv_count_app (l1 l2 : list event) :
  recv_count (l1 ++ l2) = recv_count l1 + recv_count l2.
Proof. induction l1 as [|e l1 IH]; cbn; [done|]. rewrite IH. lia. Qed.

(** One read event is one [recv]. *)
Lemma conn_event_log
    (o : byte_order) (c : nat) (data : recv_outcome) (req : list byte) (st : state) :
  ∃ evs, log (conn_event o c data req st) = log st ++ evs ∧ recv_count evs = 1.
Proof.
  unfold conn_event.
  destruct (read_input_effect c data st) as (ev & Hlog & Hev & _).
  assert (Hrecv : is_recv ev = true).
  { destruct data; [by destruct Hev as [? ->]|by rewrite Hev]. }
  destruct (send_request_effect o c req (read_input c data st).2)
    as (evs & mem' & Hsend & Hevs).
  destruct (read_status_ret _).
  - rewrite Hsend. cbn [log remove_conn_later emit set_heap]. rewrite Hlog.
    eexists. rewrite <- app_assoc. split; [done|].
    cbn [app recv_count]. rewrite Hrecv.
    by destruct Hevs as [-> | ->].
  - eexists. split; [done|]. cbn [recv_count]. by rewrite Hrecv.
Qed.

Lemma read_loop_recv_budget
    (o : byte_order) (env : poll_env) (k c : nat) (nw : Z) (st : state) :
  ∃ evs, log (read_loop o env k c nw st) = log st ++ evs ∧
         (Z.of_nat (recv_count evs) ≤ Z.max 0 nw)%Z.
Proof.
  revert c nw st. induction k as [|k IH]; intros c nw st; cbn [read_loop].
  - exists []. rewrite app_nil_r. split; [done|cbn; lia].
  - case_decide as Hguard; [|exists []; rewrite app_nil_r; split; [done|cbn; lia]].
    destruct Hguard as [_ Hnw].
    case_decide.
    + destruct (conn_event_log o c (incoming env c) (request env c) st)
        as (evs1 & Hlog1 & Hc1).
      destruct (IH (c + 1) (nw - 1)%Z
        (conn_event o c (incoming env c) (request env c) st)) as (evs2 & Hlog2 & Hc2).
      exists (evs1 ++ evs2). rewrite Hlog2, Hlog1, <- app_assoc. split; [done|].
      rewrite recv_count_app. lia.
    + destruct (IH (c + 1) nw st) as (evs & Hlog & Hc). exists evs. split; [done|lia].
Qed.

(** The reads of a turn stay within what [zmq_poll] reported, less what
    the broker reply and the accept have used. *)
Theorem turn_recv_budget (o : byte_order) (env : poll_env) (st : state) :
  ∃ evs, log (handlers o env st) = log st ++ evs ∧
         (Z.of_nat (recv_count evs) ≤
          Z.max 0 (n_waiting env - broker_share env - http_share env st))%Z.
Proof.
  unfold handlers, broker_share, http_share.
  set (st0 := set_conn_items _ st).
  set (http_events := if decide (n_conn st < MAX_CONN) then ZMQ_POLLIN else 0%Z).
  unfold broker_step, http_step.
  destruct (decide (Z.land (broker_revents env) ZMQ_POLLIN ≠ 0%Z));
    destruct (decide (Z.land (Z.land (http_revents env) http_events) ZMQ_POLLIN ≠ 0%Z)).
  - destruct (read_loop_recv_budget o env
      (n_conn (accept_conn (client_socket env) (route_reply (reply env) st0))) 0
      (n_waiting env - 1 - 1)
      (accept_conn (client_socket env) (route_reply (reply env) st0)))
      as (evs & Hlog & Hc).
    assert (Hacc : ∃ s, log (accept_conn (client_socket env) (route_reply (reply env) st0))
               = log st ++ s ∧ recv_count s = 0).
    { unfold accept_conn. destruct (decide (client_socket env < 0)%Z).
      - eexists. cbn [log emit route_reply]. rewrite <- app_assoc. done.
      - unfold add_conn. destruct (decide _); eexists; cbn [log emit route_reply
          set_n_conn set_conn_items]; rewrite <- app_assoc; done. }
    destruct Hacc as (s & Hs & Hs0).
    exists (s ++ evs). rewrite Hlog, Hs, <- app_assoc. split; [done|].
    rewrite recv_count_app. lia.
  - destruct (read_loop_recv_budget o env (n_conn (route_reply (reply env) st0)) 0
      (n_waiting env - 1) (route_reply (reply env) st0)) as (evs & Hlog & Hc).
    eexists (_ ++ evs). rewrite Hlog. cbn [log emit route_reply].
    rewrite <- app_assoc. split; [done|]. rewrite recv_count_app. cbn. lia.
  - destruct (read_loop_recv_budget o env
      (n_conn (accept_conn (client_socket env) st0)) 0
      (n_waiting env - 1) (accept_conn (client_socket env) st0))
      as (evs & Hlog & Hc).
    assert (Hacc : ∃ s, log (accept_conn (client_socket env) st0)
               = log st ++ s ∧ recv_count s = 0).
    { unfold accept_conn. destruct (decide (client_socket env < 0)%Z).
      - eexists. cbn [log emit]. done.
      - unfold add_conn. destruct (decide _); eexists; cbn [log emit
          set_n_conn set_conn_items]; done. }
    destruct Hacc as (s & Hs & Hs0).
    exists (s ++ evs). rewrite Hlog, Hs, <- app_assoc. split; [done|].
    rewrite recv_count_app. lia.
  - destruct (read_loop_recv_budget o env (n_conn st0) 0 (n_waiting env) st0)
      as (evs & Hlog & Hc).
    exists evs. split; [done|lia].
Qed.

Lemma ready_count_nonneg (rs : list Z) : (0 ≤ ready_count rs)%Z.
Proof. induction rs as [|r rs IH]; cbn; [lia|]. case_decide; lia. Qed.

(** When the count left is the number of ready connections among the [j]
    from index [c] on, the loop goes no further than these. *)
Lemma read_loop_within
    (o : byte_order) (env : poll_env) (k c j : nat) (nw : Z) (st : state) :
  length (conn_remove_queue st) = MAX_CONN →
  n_conn st ≤ MAX_CONN →
  conn_remove_n st ≤ c →
  Forall (λ x, x < c) (pending st) →
  nw = ready_count (map revents (take j (drop c (conn_items st)))) →
  let st' := read_loop o env k c nw st in
  (∀ i, c + j ≤ i → buffers st' !! i = buffers st !! i) ∧
  Forall (λ x, x < c + j) (pending st').
Proof.
  revert c j nw st. induction k as [|k IH]; intros c j nw st Hlen Hn Hq Hall Hnw;
    cbn [read_loop].
  - split; [done|]. eapply Forall_impl; [apply Hall|]. cbn beta. lia.
  - case_decide as Hguard.
    2:{ split; [done|]. eapply Forall_impl; [apply Hall|]. cbn beta. lia. }
    destruct Hguard as [Hc Hpos].
    destruct j as [|j].
    { rewrite Hnw, take_0 in Hpos. cbn [map ready_count] in Hpos. lia. }
    destruct (drop c (conn_items st)) as [|it rest] eqn:Hdrop.
    { rewrite Hnw, take_nil in Hpos. cbn [map ready_count] in Hpos. lia. }
    assert (Hit : conn_items st !!! c = it).
    { apply list_lookup_total_correct.
      rewrite <- (Nat.add_0_r c), <- lookup_drop, Hdrop. done. }
    assert (Hrest : drop (c + 1) (conn_items st) = rest).
    { rewrite <- drop_drop, Hdrop. done. }
    cbn [take map ready_count] in Hnw. rewrite Hit.
    case_decide as Hready.
    + pose proof (conn_event_effect o c (incoming env c) (request env c) st)
        as (Hitems & Hn' & Hlen' & _ & Hpend).
      destruct Hpend as (_ & Hpend & Hcount); [lia|].
      destruct (conn_event_store o c (incoming env c) (request env c) st)
        as (sz & mem' & Hb & _).
      set (st2 := conn_event o c (incoming env c) (request env c) st) in *.
      destruct (IH (c + 1) j (nw - 1)%Z st2) as [Hbuf Hp]; try lia.
      * rewrite Hpend. apply Forall_app. split.
        -- eapply Forall_impl; [apply Hall|]. cbn beta. lia.
        -- case_decide; repeat constructor; lia.
      * rewrite Hitems, Hrest. lia.
      * split.
        -- intros i Hi. rewrite Hbuf by lia. rewrite Hb.
           apply list_lookup_insert_ne. lia.
        -- eapply Forall_impl; [apply Hp|]. cbn beta. lia.
    + destruct (IH (c + 1) j nw st) as [Hbuf Hp]; try lia.
      * eapply Forall_impl; [apply Hall|]. cbn beta. lia.
      * rewrite Hrest. lia.
      * split.
        -- intros i Hi. apply Hbuf. lia.
        -- eapply Forall_impl; [apply Hp|]. cbn beta. lia.
Qed.

Lemma store_revents_take (rs : list Z) (items : list zmq_pollitem_t) :
  length rs ≤ length items →
  map revents (take (length rs) (store_revents rs items)) = rs.
Proof.
  revert items. induction rs as [|r rs IH]; intros [|it items] Hlen; cbn in *;
    try done; try lia.
  f_equal. apply IH. lia.
Qed.

(** The state and the count with which the read loop of a turn starts. *)
Lemma handlers_entry_count (o : byte_order) (env : poll_env) (st : state) :
  ∃ st2,
    handlers o env st =
      read_loop o env (n_conn st2) 0
        (n_waiting env - broker_share env - http_share env st) st2 ∧
    take (n_conn st) (conn_items st2) =
      take (n_conn st)
        (store_revents (resize (n_conn st) 0%Z (conn_revents env)) (conn_items st)) ∧
    buffers st2 = buffers st ∧
    conn_remove_n st2 = conn_remove_n st ∧
    conn_remove_queue st2 = conn_remove_queue st ∧
    (table_ok st → table_ok st2).
Proof.
  unfold handlers, broker_share, http_share, broker_step, http_step.
  set (st0 := set_conn_items _ st).
  set (http_events := if decide (n_conn st < MAX_CONN) then ZMQ_POLLIN else 0%Z).
  assert (Hok0 : table_ok st → table_ok st0) by apply store_revents_ok.
  assert (Hacc : ∀ s, conn_items s = conn_items st0 → n_conn s = n_conn st →
            buffers s = buffers st → conn_remove_n s = conn_remove_n st →
            conn_remove_queue s = conn_remove_queue st →
            (table_ok st → table_ok s) →
            let s2 := accept_conn (client_socket env) s in
            take (n_conn st) (conn_items s2) = take (n_conn st) (conn_items st0) ∧
            buffers s2 = buffers st ∧ conn_remove_n s2 = conn_remove_n st ∧
            conn_remove_queue s2 = conn_remove_queue st ∧
            (table_ok st → table_ok s2)).
  { intros s Hi Hn Hb Hqn Hq Hok s2. subst s2.
    destruct (accept_conn_pool (client_socket env) s) as (_ & Hb2 & _).
    destruct (accept_conn_queue (client_socket env) s) as [Hqn2 Hq2].
    split_and!; [|congruence|congruence|congruence|
                 intros Hst; by apply accept_conn_ok, Hok].
    unfold accept_conn. destruct (decide (client_socket env < 0)%Z);
      [cbn [conn_items emit]; by rewrite Hi|].
    unfold add_conn.
    destruct (decide (n_conn (emit [EvAccept (client_socket env)] s) < MAX_CONN));
      [|cbn [conn_items emit]; by rewrite Hi].
    cbn [conn_items set_n_conn set_conn_items emit n_conn].
    rewrite Hn, take_insert_ge by lia. by rewrite Hi. }
  destruct (decide (Z.land (broker_revents env) ZMQ_POLLIN ≠ 0%Z));
    destruct (decide (Z.land (Z.land (http_revents env) http_events) ZMQ_POLLIN ≠ 0%Z)).
  - eexists. split; [reflexivity|].
    apply Hacc; try done. intros Hst. by apply emit_ok, Hok0.
  - eexists. rewrite Z.sub_0_r. split; [reflexivity|].
    split_and!; try done. intros Hst. by apply emit_ok, Hok0.
  - eexists. rewrite Z.sub_0_r. split; [reflexivity|].
    apply Hacc; done.
  - eexists. rewrite !Z.sub_0_r. split; [reflexivity|]. split_and!; done.
Qed.

(** When [zmq_poll] returns the number of items it flagged, the read loop
    has used up its count before it reaches a connection accepted in the
    same turn, even if the slot still carries the [revents] of an earlier
    connection: that slot's buffer is not touched and no index from it on
    is enqueued. *)
Theorem accepted_connection_not_read (o : byte_order) (env : poll_env) (st : state) :
  table_ok st →
  conn_remove_n st = 0 →
  n_waiting env =
    (broker_share env + http_share env st +
     ready_count (resize (n_conn st) 0 (conn_revents env)))%Z →
  let h := handlers o env st in
  (∀ i, n_conn st ≤ i → buffers h !! i = buffers st !! i) ∧
  Forall (λ nc, nc < n_conn st) (pending h).
Proof.
  intros Hok Hq Hpoll h. subst h.
  destruct (handlers_entry_count o env st)
    as (st2 & -> & Hitems & Hb & Hqn & Hqq & Hok2).
  destruct (Hok2 Hok) as [Hi2 Hb2 Hq2 Hn2]. pose proof Hok as [Hi Hbb Hql Hn].
  assert (Hnil : pending st2 = []) by (unfold pending; by rewrite Hqn, Hq).
  destruct (read_loop_within o env (n_conn st2) 0 (n_conn st)
              (n_waiting env - broker_share env - http_share env st) st2)
    as [Hbuf Hp]; try done; try lia.
  - rewrite Hnil. constructor.
  - rewrite drop_0, Hitems.
    replace (n_conn st) with (length (resize (n_conn st) 0%Z (conn_revents env))) at 1
      by apply length_resize.
    rewrite store_revents_take by (rewrite length_resize; lia). lia.
  - split; [|done]. intros i Hi'. rewrite Hbuf by lia. by rewrite Hb.
Qed.

(** ** Connections and their buffers *)

Lemma reachable_invariants (o : byte_order) (envs : list poll_env) (fill : byte)
    (st : state) :
  run o envs (initial_state fill) = Some st →
  table_ok st ∧ conn_remove_n st = 0 ∧ store_ok st ∧ inactive_empty st.
Proof.
  intros Hrun.
  destruct (initial_state_store fill) as [Hs Hin].
  destruct (run_ok o envs _ st (initial_state_ok fill) eq_refl Hrun) as [Hok Hq].
  destruct (run_pool o envs _ st (initial_state_ok fill) eq_refl Hs Hin Hrun).
  by split_and!.
Qed.

(** However long the loop has run, the table is well formed when a turn
    ends: the arrays keep their sizes, at most [MAX_CONN] connections are
    open, and the removal queue is empty. *)
Theorem reachable_table_ok (o : byte_order) (envs : list poll_env) (fill : byte)
    (st : state) :
  run o envs (initial_state fill) = Some st →
  table_ok st ∧ conn_remove_n st = 0.
Proof.
  intros Hrun. by destruct (reachable_invariants o envs fill st Hrun) as (? & ? & _).
Qed.

(** However long the loop has run, there are [MAX_CONN] blocks of [BUFLEN]
    bytes, no two buffer structs point to the same block, and no size
    exceeds [BUFLEN]. *)
Theorem reachable_buffer_pool (o : byte_order) (envs : list poll_env) (fill : byte)
    (st : state) :
  run o envs (initial_state fill) = Some st →
  length (heap st) = MAX_CONN ∧
  Forall (λ m, length m = BUFLEN) (heap st) ∧
  NoDup (map buf (buffers st)) ∧
  Forall (λ b, buf b < MAX_CONN ∧ (size b ≤ BUFLEN)%Z) (buffers st).
Proof.
  intros Hrun.
  by destruct (reachable_invariants o envs fill st Hrun) as (_ & _ & [? ? ? ?] & _).
Qed.

(** A connection accepted after any number of turns gets a buffer of size
    zero, whatever the connection that used the slot before had received. *)
Theorem accepted_connection_starts_empty
    (o : byte_order) (envs : list poll_env) (fill : byte) (st : state) (sd : Z) :
  run o envs (initial_state fill) = Some st →
  n_conn st < MAX_CONN →
  ∃ it b, active (add_conn sd st) !! n_conn st = Some (it, b) ∧
          fd it = sd ∧ events it = POLLIN ∧ size b = 0%Z.
Proof.
  intros Hrun Hlt.
  destruct (reachable_invariants o envs fill st Hrun) as ([Hi Hb Hq Hn] & _ & _ & Hin).
  unfold add_conn. rewrite decide_True by done.
  rewrite active_lookup.
  cbn [n_conn conn_items buffers set_n_conn set_conn_items].
  rewrite decide_True by lia.
  rewrite list_lookup_insert_eq by lia.
  rewrite (list_lookup_lookup_total_lt (buffers st)) by lia.
  eexists _, _. split; [reflexivity|]. split_and!; [done|done|].
  apply (Hin (n_conn st)); [done|]. apply list_lookup_lookup_total_lt. lia.
Qed.

(** *** Sizes below zero come from failing reads only *)

Lemma conn_event_nonneg
    (o : byte_order) (c : nat) (data : recv_outcome) (req : list byte) (st : state) :
  data ≠ Fails → sizes_nonneg st → sizes_nonneg (conn_event o c data req st).
Proof.
  intros Hdata Hall. unfold sizes_nonneg in *.
  destruct (conn_event_store o c data req st) as (sz & mem' & -> & _ & Hsz & _).
  assert (Hb : (0 ≤ size (buffers st !!! c))%Z).
  { destruct (decide (c < length (buffers st))) as [Hlt|Hge].
    - by apply (Forall_lookup_total_1 _ _ c Hall).
    - by rewrite list_lookup_total_alt, lookup_ge_None_2 by lia. }
  apply Forall_insert; [done|]. cbn [size]. specialize (Hsz Hdata). lia.
Qed.

Lemma read_loop_nonneg
    (o : byte_order) (env : poll_env) (k c : nat) (nw : Z) (st : state) :
  delivering env → sizes_nonneg st → sizes_nonneg (read_loop o env k c nw st).
Proof.
  intros Hdel. revert c nw st.
  induction k as [|k IH]; intros c nw st Hall; cbn [read_loop]; [done|].
  case_decide; [|done]. case_decide; [|by apply IH].
  apply IH. by apply conn_event_nonneg.
Qed.

Lemma handlers_nonneg (o : byte_order) (env : poll_env) (st : state) :
  delivering env → sizes_nonneg st → sizes_nonneg (handlers o env st).
Proof.
  intros Hdel Hall.
  destruct (handlers_entry_count o env st) as (st2 & -> & _ & Hbufs & _).
  apply read_loop_nonneg; [done|]. unfold sizes_nonneg. by rewrite Hbufs.
Qed.

Lemma remove_each_nonneg (q : list nat) (st : state) :
  sizes_nonneg st → sizes_nonneg (remove_each q st).
Proof.
  revert st. induction q as [|nc q IH]; intros st Hall; cbn [remove_each]; [done|].
  assert (H1 : sizes_nonneg (remove_conn nc st).2).
  { unfold remove_conn, sizes_nonneg in *. case_decide; [done|]. cbn [snd buffers].
    assert (Hany : ∀ i, (0 ≤ size (buffers st !!! i))%Z).
    { intros i. destruct (decide (i < length (buffers st))) as [Hlt|Hge].
      - by apply (Forall_lookup_total_1 _ _ i Hall).
      - by rewrite list_lookup_total_alt, lookup_ge_None_2 by lia. }
    repeat apply Forall_insert; auto. done. }
  destruct (remove_conn nc st) as [ok st1]. by apply IH.
Qed.

Lemma run_nonneg (o : byte_order) (envs : list poll_env) (st st' : state) :
  Forall delivering envs → sizes_nonneg st →
  run o envs st = Some st' → sizes_nonneg st'.
Proof.
  revert st. induction envs as [|env envs IH]; intros st Hdel Hall; cbn [run].
  - by intros [= <-].
  - apply Forall_cons in Hdel as [Hd Hdel].
    unfold iteration. case_decide; [done|].
    apply IH; [done|].
    change (sizes_nonneg (remove_each (pending (handlers o env st))
                            (handlers o env st))).
    by apply remove_each_nonneg, handlers_nonneg.
Qed.

(** In every state the loop reaches without a failing [recv], whatever
    the next [recv] on a slot comes to, the bytes it stores and the offsets
    the terminator scan inspects or overwrites lie inside the block. *)
Theorem reachable_fill_and_scan_in_bounds
    (o : byte_order) (envs : list poll_env) (fill : byte) (st : state)
    (nc : nat) (input : recv_outcome) :
  Forall delivering envs →
  run o envs (initial_state fill) = Some st →
  nc < MAX_CONN →
  let t := (read_input nc input st).1.2 in
  Forall (λ p, 0 ≤ p < BUFLEN)%Z (filled t ++ seen t).
Proof.
  intros Hdel Hrun Hnc t.
  destruct (reachable_invariants o envs fill st Hrun)
    as ([_ Hb _ _] & _ & [_ _ _ Hbufs] & _).
  assert (Hpos : sizes_nonneg st).
  { apply (run_nonneg o envs (initial_state fill)); [done| |done].
    unfold sizes_nonneg, initial_state. cbn [buffers].
    apply Forall_fmap, Forall_forall. by intros. }
  apply read_input_fill_and_scan_in_bounds. split.
  - apply (Forall_lookup_total_1 _ _ nc Hpos). lia.
  - apply (Forall_lookup_total_1 _ _ nc Hbufs). lia.
Qed.


(** ** The listening socket *)


(** ** One client on an idle server *)

Lemma read_loop_no_budget (o : byte_order) (env : poll_env) (k c : nat) (nw : Z)
    (st : state) :
  (nw ≤ 0)%Z → read_loop o env k c nw st = st.
Proof.
  intros Hnw. destruct k; cbn [read_loop]; [done|].
  rewrite decide_False; [done|]. intros [_ ?]. lia.
Qed.

Lemma read_loop_no_conn (o : byte_order) (env : poll_env) (k c : nat) (nw : Z)
    (st : state) :
  n_conn st ≤ c → read_loop o env k c nw st = st.
Proof.
  intros Hn. destruct k; cbn [read_loop]; [done|].
  rewrite decide_False; [done|]. intros [? _]. lia.
Qed.

(** The handlers of a turn in which only the listening socket is ready. *)
Lemma handlers_accept (o : byte_order) (sd : Z) (st : state) :
  n_conn st < MAX_CONN → (0 ≤ sd)%Z →
  handlers o (env_accept sd) st =
    add_conn sd
      (emit [EvAccept sd]
         (set_conn_items (store_revents (resize (n_conn st) 0%Z [])) st)).
Proof.
  intros Hn Hsd. unfold handlers, broker_step, http_step.
  cbn [n_waiting broker_revents http_revents conn_revents client_socket env_accept].
  rewrite (decide_True (P := n_conn st < MAX_CONN)) by done.
  rewrite (decide_False (P := Z.land 0 ZMQ_POLLIN ≠ 0%Z)) by (intros H; by apply H).
  rewrite (decide_True (P := Z.land (Z.land ZMQ_POLLIN ZMQ_POLLIN) ZMQ_POLLIN ≠ 0%Z))
    by done.
  cbv beta iota zeta.
  rewrite read_loop_no_budget by lia.
  unfold accept_conn. by rewrite decide_False by lia.
Qed.

(** The handlers of a turn in which only the broker socket is ready. *)
Lemma handlers_reply (o : byte_order) (msg : list (list byte)) (st : state) :
  handlers o (env_reply msg) st =
    route_reply msg
      (set_conn_items (store_revents (resize (n_conn st) 0%Z [])) st).
Proof.
  unfold handlers, broker_step, http_step.
  cbn [n_waiting broker_revents http_revents conn_revents reply env_reply].
  rewrite (decide_True (P := Z.land ZMQ_POLLIN ZMQ_POLLIN ≠ 0%Z)) by done.
  rewrite (decide_False (P := Z.land (Z.land 0 _) ZMQ_POLLIN ≠ 0%Z))
    by (intros H; by apply H).
  cbv beta iota zeta.
  by rewrite read_loop_no_budget by lia.
Qed.

(** The handlers of a turn in which the only open connection is ready. *)
Lemma handlers_line (o : byte_order) (data req : list byte) (st : state) :
  n_conn st = 1 → conn_items st ≠ [] →
  handlers o (env_line data req) st =
    conn_event o 0 (Delivers data) req
      (set_conn_items (store_revents [ZMQ_POLLIN]) st).
Proof.
  intros Hn Hne. unfold handlers, broker_step, http_step.
  cbn [n_waiting broker_revents http_revents conn_revents env_line].
  rewrite (decide_False (P := Z.land 0 ZMQ_POLLIN ≠ 0%Z)) by (intros H; by apply H).
  rewrite (decide_False (P := Z.land (Z.land 0 _) ZMQ_POLLIN ≠ 0%Z))
    by (intros H; by apply H).
  cbv beta iota zeta. rewrite Hn.
  change (resize 1 0%Z [ZMQ_POLLIN]) with [ZMQ_POLLIN].
  cbn [n_conn set_conn_items]. rewrite Hn.
  cbn [read_loop]. cbn [n_conn set_conn_items conn_items].
  rewrite Hn. rewrite decide_True by (split; lia).
  destruct (conn_items st) as [|it items]; [done|].
  cbn [store_revents]. 
  rewrite decide_True by done.
  cbn [incoming request env_line]. done.
Qed.

(** A read that delivers a terminator and leaves room, in full. *)
Lemma read_input_line_complete
    (nc : nat) (pre post : list byte) (t : byte) (st : state) (b : buffer)
    (mem : list byte) :
  buffers st !! nc = Some b →
  heap st !! buf b = Some mem →
  length mem = BUFLEN →
  Forall (λ c, is_eol c = false) pre →
  is_eol t = true →
  (0 ≤ size b)%Z →
  (size b + length (pre ++ t :: post) < BUFLEN)%Z →
  let incoming := pre ++ t :: post in
  let r := read_input nc (Delivers incoming) st in
  let sz := Z.to_nat (size b) in
  let mem' := (take sz mem ++ pre) ++ x00 :: post ++
              drop (sz + length incoming) mem in
  r.1.1 = LineComplete ∧
  conn_items r.2 = conn_items st ∧ n_conn r.2 = n_conn st ∧
  conn_remove_n r.2 = conn_remove_n st ∧
  conn_remove_queue r.2 = conn_remove_queue st ∧
  buffers r.2 = <[nc := Buffer (buf b) (size b + length incoming)]> (buffers st) ∧
  heap r.2 = <[buf b := mem']> (heap st) ∧
  log r.2 = log st ++ [EvRecv (fd (conn_items st !!! nc)) (length incoming)].
Proof.
  intros Hb Hmem Hlen Hpre Ht Hpos0 Hfit incoming r sz mem'. subst r mem' incoming.
  assert (Hnc : nc < length (buffers st)) by (by eapply lookup_lt_Some).
  assert (Hblk : buf b < length (heap st)) by (by eapply lookup_lt_Some).
  pose proof (buffers_lookup_total _ _ _ Hb) as Hbt.
  assert (Hsz : size (buffers st !!! nc) = sz) by (rewrite Hbt; lia).
  rewrite (read_input_delivers nc _ st sz Hsz), Hbt. cbv zeta.
  rewrite (list_lookup_total_correct _ _ _ Hmem).
  rewrite take_ge by lia.
  assert (Hpos : length (pre ++ t :: post) ≠ 0).
  { rewrite length_app. cbn. lia. }
  rewrite decide_False by done. rewrite decide_False by lia.
  assert (Hacc : length (take sz mem) = sz) by (rewrite length_take; lia).
  rewrite <- (app_assoc pre (t :: post)). cbn [app].
  pose proof (scan_eol_first (take sz mem) pre
    (post ++ drop (sz + length (pre ++ t :: post)) mem) t
    (length (pre ++ t :: post) + 1) Hpre Ht) as Hs.
  rewrite Hacc in Hs. rewrite Hs.
  2:{ rewrite length_app. cbn. lia. }
  cbn [fst snd conn_items n_conn conn_remove_n conn_remove_queue buffers heap log
       set_heap set_buffers emit].
  rewrite poke_nat.
  split_and!; try done.
  - do 2 f_equal. lia.
  - rewrite list_insert_insert_eq. f_equal.
    rewrite app_assoc. rewrite <- Hacc at 1. rewrite <- length_app.
    apply insert_middle.
Qed.

(** Applying a queue that holds the only open connection. *)
Lemma remove_conn_enqueued_single (s : state) :
  n_conn s = 1 → conn_remove_n s = 1 → conn_remove_queue s !! 0 = Some 0 →
  let s' := remove_conn_enqueued s in
  log s' = log s ++ [EvRemove 0 true] ∧ n_conn s' = 0 ∧ conn_remove_n s' = 0 ∧
  length (conn_items s') = length (conn_items s) ∧
  length (buffers s') = length (buffers s) ∧
  length (conn_remove_queue s') = length (conn_remove_queue s).
Proof.
  intros Hn Hq Hq0 s'. subst s'. unfold remove_conn_enqueued.
  rewrite Hq. erewrite take_S_r by done. rewrite take_0. cbn [app remove_each].
  unfold remove_conn. rewrite Hn. rewrite (decide_False (P := 1 ≤ 0)) by lia.
  cbn [log n_conn conn_remove_n conn_items buffers conn_remove_queue emit].
  rewrite !length_insert. done.
Qed.

(** The first two turns of a client's visit to a server with no open
    connection: it is accepted, then its request line arrives whole. *)
Lemma single_request_dispatched
    (o : byte_order) (st0 : state) (sd : Z) (line req : list byte) :
  table_ok st0 → conn_remove_n st0 = 0 → store_ok st0 → inactive_empty st0 →
  n_conn st0 = 0 →
  (0 ≤ sd < 2 ^ 32)%Z →
  x00 ∉ line →
  Forall (λ c, is_eol c = false) line →
  length line + 1 < BUFLEN →
  ∃ st, run o [env_accept sd; env_line (line ++ [x0a]) req] st0 = Some st ∧
        log st =
          log st0 ++
          [EvAccept sd; EvRecv sd (length line + 1)] ++
          (if forwards is_space line then forward_events o sd req
           else reject_events sd) ++
          [EvRemove 0 true] ∧
        n_conn st = 0 ∧ conn_remove_n st = 0.
Proof.
  intros [Hi0 Hb0 Hq0 _] Hqn0 [Hh0 Hbl0 _ Hbufs0] Hin0 Hn0 Hsd Hnul Hnoeol Hfit.
  cbn [run]. unfold iteration at 1. cbn [n_waiting env_accept].
  rewrite (decide_False (P := (1 < 1)%Z)) by lia.
  rewrite handlers_accept by (rewrite ?Hn0; unfold MAX_CONN; lia).
  set (st1 := remove_conn_enqueued _).
  assert (H1 : n_conn st1 = 1 ∧
               conn_items st1 =
                 <[0 := PollItem 0 sd POLLIN (revents (conn_items st0 !!! 0))]>
                   (conn_items st0) ∧
               buffers st1 = buffers st0 ∧
               heap st1 = heap st0 ∧
               conn_remove_n st1 = 0 ∧
               conn_remove_queue st1 = conn_remove_queue st0 ∧
               log st1 = log st0 ++ [EvAccept sd]).
  { subst st1. unfold add_conn. cbn [n_conn emit set_conn_items].
    rewrite Hn0.
    rewrite (decide_True (P := 0 < MAX_CONN)) by (unfold MAX_CONN; lia).
    unfold remove_conn_enqueued.
    cbn [conn_remove_n conn_remove_queue set_n_conn set_conn_items emit].
    rewrite Hqn0, take_0. cbn [remove_each].
    unfold set_n_conn, set_conn_items, emit.
    cbn [n_conn conn_items buffers heap conn_remove_n conn_remove_queue log].
    change (resize 0 0%Z []) with (@nil Z). cbn [store_revents].
    done. }
  destruct H1 as (Hn1 & Hi1 & Hb1 & Hh1 & Hqn1 & Hq1 & Hl1).
  unfold iteration. cbn [n_waiting env_line].
  rewrite (decide_False (P := (1 < 1)%Z)) by lia.
  rewrite handlers_line; [|done|].
  2:{ rewrite Hi1. intros Hnil. apply (f_equal length) in Hnil.
      rewrite length_insert, Hi0 in Hnil. unfold MAX_CONN in Hnil.
      cbn in Hnil. lia. }
  set (st1' := set_conn_items (store_revents [ZMQ_POLLIN]) st1).
  assert (Hfd : fd (conn_items st1' !!! 0) = sd).
  { subst st1'. cbn [conn_items set_conn_items]. rewrite store_revents_fd, Hi1.
    rewrite list_lookup_total_insert_eq; [done|].
    rewrite Hi0. unfold MAX_CONN. lia. }
  set (b := buffers st0 !!! 0).
  assert (Hbuf0 : buffers st0 !! 0 = Some b).
  { apply list_lookup_lookup_total_lt. rewrite Hb0. unfold MAX_CONN. lia. }
  assert (Hsize : size b = 0%Z) by (apply (Hin0 0 b); [lia|done]).
  assert (Hblk : buf b < MAX_CONN).
  { by apply (Forall_lookup_1 _ _ 0 b Hbufs0). }
  set (mem := heap st0 !!! buf b).
  assert (Hmem0 : heap st0 !! buf b = Some mem).
  { apply list_lookup_lookup_total_lt. by rewrite Hh0. }
  assert (Hlen : length mem = BUFLEN).
  { by apply (Forall_lookup_1 _ _ (buf b) mem Hbl0). }
  assert (Hbuf : buffers st1' !! 0 = Some b).
  { subst st1'. cbn [buffers set_conn_items]. by rewrite Hb1. }
  assert (Hmem : heap st1' !! buf b = Some mem).
  { subst st1'. cbn [heap set_conn_items]. by rewrite Hh1. }
  pose proof (read_input_line_complete 0 line [] x0a st1' b mem
                Hbuf Hmem Hlen Hnoeol eq_refl) as Hread.
  rewrite Hsize in Hread. rewrite length_app in Hread. cbn [length] in Hread.
  specialize (Hread ltac:(lia) ltac:(lia)).
  cbv zeta in Hread. change (Z.to_nat 0) with 0 in Hread.
  destruct Hread as (Hst & Hci & Hnc & Hqn & Hq & Hbs & Hhp & Hlog).
  unfold conn_event. rewrite Hst. cbn [read_status_ret].
  set (r2 := (read_input 0 (Delivers (line ++ [x0a])) st1').2) in *.
  pose proof (send_request_log o 0 req r2) as Hslog.
  destruct (send_request_effect o 0 req r2) as (evs & mem2 & Hseq & _).
  assert (Hline : cstring (heap r2 !!! buf (buffers r2 !!! 0)) = line).
  { assert (E1 : buf (buffers r2 !!! 0) = buf b).
    { rewrite Hbs. rewrite list_lookup_total_insert_eq; [done|].
      by eapply lookup_lt_Some. }
    rewrite E1, Hhp.
    rewrite list_lookup_total_insert_eq by (by eapply lookup_lt_Some).
    rewrite take_0. cbn [app]. by apply cstring_app_nul. }
  cbv zeta in Hslog. rewrite Hline, Hci, Hfd in Hslog.
  rewrite (Z.mod_small sd) in Hslog by lia.
  set (sent := send_request o 0 req r2) in *.
  assert (Hs : n_conn sent = 1 ∧ conn_remove_n sent = 1 ∧
               conn_remove_queue sent !! 0 = Some 0).
  { rewrite Hseq. cbn [n_conn conn_remove_n conn_remove_queue remove_conn_later
      emit set_heap]. rewrite Hnc, Hqn, Hq. subst st1'.
    cbn [n_conn conn_remove_n conn_remove_queue set_conn_items].
    rewrite Hn1, Hqn1, Hq1. split_and!; [done|done|].
    apply list_lookup_insert_eq. rewrite Hq0. unfold MAX_CONN. lia. }
  destruct Hs as (Hsn & Hsq & Hs0).
  destruct (remove_conn_enqueued_single sent Hsn Hsq Hs0) as (Hflog & Hfn & Hfq & _).
  eexists. split; [reflexivity|]. split; [|done].
  rewrite Hflog, Hslog, Hlog. subst st1'. cbn [log set_conn_items].
  rewrite Hl1, Hfd.
  rewrite length_app. cbn [length].
  by rewrite <- !app_assoc.
Qed.

Lemma run_app (o : byte_order) (e1 e2 : list poll_env) (st : state) :
  run o (e1 ++ e2) st = run o e1 st ≫= run o e2.
Proof.
  revert st. induction e1 as [|env e1 IH]; intros st; cbn [app run]; [done|].
  destruct (iteration o env st); [apply IH|done].
Qed.

(** A malformed request on a server with no open connection, whatever
    its blocks and poll items hold from earlier clients (the table and the
    pool are as every turn leaves them: arrays of their declared sizes, an
    empty queue, blocks of [BUFLEN] bytes, free slots of size zero): the
    client is accepted, its line arrives, it gets the 404 reply and its
    socket is closed, its slot is freed, and nothing goes to the broker. *)
Theorem single_request_rejected
    (o : byte_order) (st0 : state) (sd : Z) (line req : list byte) :
  table_ok st0 → conn_remove_n st0 = 0 → store_ok st0 → inactive_empty st0 →
  n_conn st0 = 0 →
  (0 ≤ sd < 2 ^ 32)%Z →
  x00 ∉ line →
  Forall (λ c, is_eol c = false) line →
  length line + 1 < BUFLEN →
  forwards is_space line = false →
  ∃ st, run o [env_accept sd; env_line (line ++ [x0a]) req] st0 = Some st ∧
        log st = log st0 ++
                 [EvAccept sd; EvRecv sd (length line + 1);
                  EvSend sd ERROR_404; EvClose sd; EvRemove 0 true] ∧
        n_conn st = 0.
Proof.
  intros Hok Hq Hs Hin Hidle Hsd Hnul Hnoeol Hfit Hfw.
  destruct (single_request_dispatched o st0 sd line req Hok Hq Hs Hin Hidle
              Hsd Hnul Hnoeol Hfit)
    as (st & Hrun & Hlog & Hn & _).
  exists st. rewrite Hfw in Hlog. by split_and!.
Qed.

(** A well-formed request on a server with no open connection, whatever
    its blocks and poll items hold from earlier clients, start to end:
    accept, read, broker message carrying the descriptor, slot freed; then
    the broker's reply (the descriptor frame echoed) is written out after
    the fixed header and the socket is closed.  The reply goes to the first
    byte of the descriptor frame. *)
Theorem single_request_served
    (o : byte_order) (st0 : state) (sd : Z) (line req p : list byte) :
  table_ok st0 → conn_remove_n st0 = 0 → store_ok st0 → inactive_empty st0 →
  n_conn st0 = 0 →
  (0 ≤ sd < 2 ^ 32)%Z →
  x00 ∉ line →
  Forall (λ c, is_eol c = false) line →
  length line + 1 < BUFLEN →
  forwards is_space line = true →
  let sd' := match o with
             | LittleEndian => (sd mod 256)%Z
             | BigEndian => (sd / 2 ^ 24)%Z
             end in
  ∃ st, run o [env_accept sd; env_line (line ++ [x0a]) req;
               env_reply [uint32_bytes o sd; p]] st0 = Some st ∧
        log st = log st0 ++
                 [EvAccept sd; EvRecv sd (length line + 1);
                  EvBrokerSend [uint32_bytes o sd; req]; EvRemove 0 true;
                  EvBrokerRecv [uint32_bytes o sd; p];
                  EvSend sd' OK_TEXT_PLAIN; EvSend sd' (cstring p); EvClose sd'] ∧
        n_conn st = 0.
Proof.
  intros Hok Hq0 Hs Hin Hidle Hsd Hnul Hnoeol Hfit Hfw sd'.
  destruct (single_request_dispatched o st0 sd line req Hok Hq0 Hs Hin Hidle
              Hsd Hnul Hnoeol Hfit)
    as (st & Hrun & Hlog & Hn & Hq).
  rewrite Hfw in Hlog.
  change [env_accept sd; env_line (line ++ [x0a]) req; env_reply [uint32_bytes o sd; p]]
    with ([env_accept sd; env_line (line ++ [x0a]) req] ++
          [env_reply [uint32_bytes o sd; p]]).
  rewrite run_app, Hrun. cbn [mbind option_bind run].
  unfold iteration. cbn [n_waiting env_reply].
  rewrite (decide_False (P := (1 < 1)%Z)) by lia.
  rewrite handlers_reply.
  eexists. split; [reflexivity|].
  unfold remove_conn_enqueued, route_reply.
  cbn [conn_remove_n conn_remove_queue emit set_conn_items].
  rewrite Hq, take_0. cbn [remove_each log n_conn emit set_conn_items].
  split; [|done]. rewrite Hlog.
  change (([uint32_bytes o sd; p] !!! 0) !!! 0)
    with (([uint32_bytes o sd] !!! 0) !!! 0).
  rewrite (descriptor_first_byte o sd Hsd).
  by rewrite <- !app_assoc.
Qed.

(** ** Further instances *)


Lemma reuse_turns_run :
  run LittleEndian reuse_turns (initial_state x00) = Some reused_slot.
Proof. vm_compute. reflexivity. Qed.

Lemma reuse_turns_delivering : Forall delivering reuse_turns.
Proof. repeat constructor; intros c; discriminate. Qed.

Lemma served_turns_run :
  run LittleEndian served_turns (initial_state x00) = Some idle_again.
Proof. vm_compute. reflexivity. Qed.

Lemma idle_again_invariants :
  table_ok idle_again ∧ conn_remove_n idle_again = 0 ∧
  store_ok idle_again ∧ inactive_empty idle_again.
Proof. exact (reachable_invariants _ _ _ _ served_turns_run). Qed.

(** Removing the middle one of three connections. *)
Lemma table_add_remove_contents_witness :
  table_ok three_conns ∧
  1 < n_conn three_conns ∧
  active (remove_conn 1 three_conns).2 ≡ₚ delete 1 (active three_conns).
Proof.
  pose proof (table_add_remove_contents 1 13 three_conns three_conns_ok) as [_ H].
  assert (Hlt : 1 < n_conn three_conns) by (vm_compute; lia).
  split_and!; [apply three_conns_ok|done|exact (H Hlt)].
Defined.

(** The queue 2, 0 on three connections: both are removed, and the
    connection that was in slot 1 is the one left. *)
Lemma remove_conn_enqueued_descending_witness :
  let st := enqueue_all [2; 0] three_conns in
  table_ok st ∧
  StronglySorted (λ a b, b < a) (pending st) ∧
  Forall (λ nc, nc < n_conn st) (pending st) ∧
  n_conn (remove_conn_enqueued st) + length (pending st) = n_conn st ∧
  active (remove_conn_enqueued st) ≡ₚ
    foldl (λ l nc, delete nc l) (active st) (pending st) ∧
  foldl (λ l nc, delete nc l) (active st) (pending st) =
    [(PollItem 0 11 POLLIN 0, Buffer 1 0%Z)].
Proof.
  intros st.
  assert (Hok : table_ok st).
  { destruct three_conns_ok as [Hi Hb Hq Hn].
    split; [exact Hi|exact Hb| |exact Hn].
    subst st. cbn [enqueue_all foldl remove_conn_later conn_remove_queue].
    by rewrite !length_insert. }
  assert (Hs : StronglySorted (λ a b, b < a) (pending st))
    by (vm_compute; repeat constructor).
  assert (Hv : Forall (λ nc, nc < n_conn st) (pending st))
    by (vm_compute; repeat constructor).
  destruct (remove_conn_enqueued_descending st Hok Hs Hv) as (H1 & _ & H2).
  split_and!; [done|done|done|exact H1|exact H2|].
  vm_compute. reflexivity.
Defined.

(** The peer of connection 0 of three has closed: connection 1 is still
    there after the turn. *)
Lemma turn_keeps_unenqueued_witness :
  let env := env_data 0 [] in
  let h := handlers LittleEndian env three_conns in
  table_ok three_conns ∧
  conn_remove_n three_conns = 0 ∧
  pending h = [0] ∧
  active h !! 1 = Some (PollItem 0 11 POLLIN 0, Buffer 1 0%Z) ∧
  (PollItem 0 11 POLLIN 0, Buffer 1 0%Z) ∈ active (remove_conn_enqueued h).
Proof.
  intros env h.
  assert (H0 : conn_remove_n three_conns = 0) by reflexivity.
  assert (Hp : pending h = [0]) by (vm_compute; reflexivity).
  assert (Hs : active h !! 1 = Some (PollItem 0 11 POLLIN 0, Buffer 1 0%Z))
    by (vm_compute; reflexivity).
  assert (Hit : iteration LittleEndian env three_conns = Some (remove_conn_enqueued h))
    by reflexivity.
  assert (Hni : 1 ∉ pending h).
  { rewrite Hp. intros Hin. apply list_elem_of_singleton in Hin. lia. }
  split_and!; [apply three_conns_ok|done|done|done|].
  exact (turn_keeps_unenqueued LittleEndian env three_conns _ 1 _
           three_conns_ok H0 Hit Hs Hni).
Defined.

(** Descriptor 300 on a little-endian machine: the reply goes to 44. *)
Lemma route_reply_descriptor_witness :
  (0 ≤ 300 < 2 ^ 32)%Z ∧
  log (route_reply [uint32_bytes LittleEndian 300; bytes "route"] (initial_state x00)) =
    log (initial_state x00) ++
    [EvBrokerRecv [uint32_bytes LittleEndian 300; bytes "route"];
     EvSend 44 OK_TEXT_PLAIN; EvSend 44 (cstring (bytes "route")); EvClose 44].
Proof.
  assert (Hd : (0 ≤ 300 < 2 ^ 32)%Z) by lia.
  destruct (route_reply_descriptor LittleEndian 300 (bytes "route")
              (initial_state x00) Hd) as [H _].
  split; [done|exact H].
Defined.

(** A read of zero bytes on the only connection. *)
Lemma read_input_peer_closed_witness :
  buffers one_conn !! 0 = Some (Buffer 0 0%Z) ∧
  (read_input 0 (Delivers []) one_conn).1.1 = PeerClosed ∧
  (read_input 0 Fails one_conn).1.1 ≠ PeerClosed ∧
  conn_remove_n (read_input 0 (Delivers []) one_conn).2 = 1.
Proof.
  assert (Hb : buffers one_conn !! 0 = Some (Buffer 0 0%Z)) by reflexivity.
  destruct (read_input_peer_closed 0 (Delivers []) one_conn _ Hb) as [Hiff Heff].
  destruct (read_input_peer_closed 0 Fails one_conn _ Hb) as [Hiff' _].
  assert (Hc : (read_input 0 (Delivers []) one_conn).1.1 = PeerClosed).
  { apply Hiff. exists []. split; [done|by left]. }
  destruct (Heff Hc) as (_ & Hn & _).
  split_and!; [done|done| |exact Hn].
  intros Hpc. apply Hiff' in Hpc as (incoming & Habs & _). discriminate.
Defined.

(** A failing [recv] on the empty buffer of the only connection: the size
    is -1 afterwards, and the byte the next [recv] delivers goes to offset
    -1. *)
Lemma read_input_recv_fails_witness :
  let r := read_input 0 Fails one_conn in
  buffers one_conn !! 0 = Some (Buffer 0 0%Z) ∧
  (size (Buffer 0 0%Z) ≤ BUFLEN)%Z ∧
  r.1.1 = NeedMore ∧
  pending r.2 = pending one_conn ∧
  buffers r.2 !! 0 = Some (Buffer 0 (-1)%Z) ∧
  filled (read_input 0 (Delivers [x62]) r.2).1.2 = [(-1)%Z].
Proof.
  intros r.
  assert (Hb : buffers one_conn !! 0 = Some (Buffer 0 0%Z)) by reflexivity.
  assert (Hsz : (size (Buffer 0 0%Z) ≤ BUFLEN)%Z) by (vm_compute; discriminate).
  destruct (read_input_recv_fails 0 one_conn _ Hb Hsz)
    as (H1 & _ & H2 & _ & _ & H3 & _ & _ & _ & H4).
  destruct (H4 eq_refl [x62]) as [H5 _].
  split_and!; [done|done|exact H1|exact H2| |exact H5].
  fold r in H3. rewrite H3. reflexivity.
Defined.

(** A buffer filled by one read: the next read of that connection is taken
    for a closed peer, whatever its socket holds, unless [recv] fails. *)
Lemma read_input_after_overflow_witness :
  let r := read_input 0 (Delivers (replicate BUFLEN x61)) one_conn in
  buffers one_conn !! 0 = Some (Buffer 0 0%Z) ∧
  conn_remove_n one_conn < length (conn_remove_queue one_conn) ∧
  r.1.1 = Overflow ∧
  (read_input 0 (Delivers (bytes "GET /plan?0" ++ [x0a])) r.2).1.1 = PeerClosed ∧
  (read_input 0 Fails r.2).1.1 = NeedMore ∧
  pending (read_input 0 Fails r.2).2 = pending one_conn.
Proof.
  intros r.
  assert (Hb : buffers one_conn !! 0 = Some (Buffer 0 0%Z)) by reflexivity.
  assert (Hroom : conn_remove_n one_conn < length (conn_remove_queue one_conn))
    by (vm_compute; lia).
  assert (Ho : r.1.1 = Overflow) by (vm_compute; reflexivity).
  destruct (read_input_after_overflow 0 (replicate BUFLEN x61)
              (Delivers (bytes "GET /plan?0" ++ [x0a])) one_conn _ Hb Hroom Ho)
    as (_ & _ & _ & H1 & _).
  destruct (read_input_after_overflow 0 (replicate BUFLEN x61) Fails one_conn _
              Hb Hroom Ho)
    as (_ & _ & _ & H2 & H3 & _).
  split_and!; [done|done|done|exact H1|exact H2|exact H3].
Defined.

(** A line feed left behind by the previous client of the slot ends the
    line of the next one, who sent two bytes and no terminator. *)
Lemma read_input_without_terminator_witness :
  let mem := heap stale_slot !!! 0 in
  buffers stale_slot !! 0 = Some (Buffer 0 0%Z) ∧
  heap stale_slot !! 0 = Some mem ∧
  length mem = BUFLEN ∧
  is_eol (mem !!! 2) = true ∧
  (read_input 0 (Delivers (bytes "xy")) stale_slot).1.1 = LineComplete.
Proof.
  intros mem.
  assert (Hb : buffers stale_slot !! 0 = Some (Buffer 0 0%Z))
    by (vm_compute; reflexivity).
  assert (Hm : heap stale_slot !! buf (Buffer 0 0%Z) = Some mem)
    by (vm_compute; reflexivity).
  assert (Hlen : length mem = BUFLEN) by (vm_compute; reflexivity).
  assert (Heol : is_eol (mem !!! 2) = true) by (vm_compute; reflexivity).
  assert (Hne : bytes "xy" ≠ []) by done.
  assert (Hno : Forall (λ c, is_eol c = false) (bytes "xy")) by (repeat constructor).
  assert (Hpos : (0 ≤ size (Buffer 0 0%Z))%Z) by (vm_compute; discriminate).
  assert (Hfit : (size (Buffer 0 0%Z) + length (bytes "xy") < BUFLEN)%Z)
    by (vm_compute; reflexivity).
  destruct (read_input_without_terminator 0 (bytes "xy") stale_slot _ mem
              Hb Hm Hlen Hne Hno Hpos Hfit) as (H & _).
  split_and!; [done|done|done|done|].
  rewrite H.
  change (Z.to_nat (size (Buffer 0 0%Z)) + length (bytes "xy")) with 2.
  by rewrite Heol.
Defined.

(** The listening socket and connection 0 are both ready: the accepted
    connection, in slot 1, is not read in that turn. *)
Lemma accepted_connection_not_read_witness :
  let env := PollEnv 2 0 ZMQ_POLLIN [ZMQ_POLLIN] [] 8
               (λ _, Delivers (bytes "GET")) (λ _, []) in
  let h := handlers LittleEndian env one_conn in
  table_ok one_conn ∧
  conn_remove_n one_conn = 0 ∧
  n_waiting env =
    (broker_share env + http_share env one_conn +
     ready_count (resize (n_conn one_conn) 0 (conn_revents env)))%Z ∧
  buffers h !! 1 = buffers one_conn !! 1 ∧
  Forall (λ nc, nc < n_conn one_conn) (pending h).
Proof.
  intros env h.
  assert (H0 : conn_remove_n one_conn = 0) by reflexivity.
  assert (Hw : n_waiting env =
                 (broker_share env + http_share env one_conn +
                  ready_count (resize (n_conn one_conn) 0 (conn_revents env)))%Z)
    by (vm_compute; reflexivity).
  destruct (accepted_connection_not_read LittleEndian env one_conn one_conn_ok H0 Hw)
    as [Hbuf Hpend].
  assert (Hle : n_conn one_conn ≤ 1) by (vm_compute; lia).
  split_and!; [apply one_conn_ok|done|done|exact (Hbuf 1 Hle)|exact Hpend].
Defined.

(** The state after the four turns of [reuse_turns]. *)
Lemma reachable_table_ok_witness :
  run LittleEndian reuse_turns (initial_state x00) = Some reused_slot ∧
  table_ok reused_slot ∧ conn_remove_n reused_slot = 0.
Proof.
  split; [apply reuse_turns_run|].
  exact (reachable_table_ok LittleEndian reuse_turns x00 reused_slot reuse_turns_run).
Defined.

Lemma reachable_buffer_pool_witness :
  run LittleEndian reuse_turns (initial_state x00) = Some reused_slot ∧
  NoDup (map buf (buffers reused_slot)) ∧
  Forall (λ b, buf b < MAX_CONN ∧ (size b ≤ BUFLEN)%Z) (buffers reused_slot).
Proof.
  destruct (reachable_buffer_pool LittleEndian reuse_turns x00 reused_slot
              reuse_turns_run) as (_ & _ & H1 & H2).
  split_and!; [apply reuse_turns_run|exact H1|exact H2].
Defined.

Lemma accepted_connection_starts_empty_witness :
  run LittleEndian reuse_turns (initial_state x00) = Some reused_slot ∧
  n_conn reused_slot < MAX_CONN ∧
  ∃ it b, active (add_conn 9 reused_slot) !! n_conn reused_slot = Some (it, b) ∧
          fd it = 9%Z ∧ events it = POLLIN ∧ size b = 0%Z.
Proof.
  assert (Hn : n_conn reused_slot < MAX_CONN) by (vm_compute; lia).
  split_and!; [apply reuse_turns_run|done|].
  exact (accepted_connection_starts_empty LittleEndian reuse_turns x00 reused_slot 9
           reuse_turns_run Hn).
Defined.

Lemma reachable_fill_and_scan_in_bounds_witness :
  Forall delivering reuse_turns ∧
  run LittleEndian reuse_turns (initial_state x00) = Some reused_slot ∧
  0 < MAX_CONN ∧
  Forall (λ p, 0 ≤ p < BUFLEN)%Z
    (filled (read_input 0 (Delivers [x62]) reused_slot).1.2 ++
     seen (read_input 0 (Delivers [x62]) reused_slot).1.2).
Proof.
  assert (Hnc : 0 < MAX_CONN) by (vm_compute; lia).
  split_and!; [apply reuse_turns_delivering|apply reuse_turns_run|done|].
  exact (reachable_fill_and_scan_in_bounds LittleEndian reuse_turns x00 reused_slot
           0 (Delivers [x62]) reuse_turns_delivering reuse_turns_run Hnc).
Defined.



(** A POST line on a server that has served one client before, whose
    block still holds that client's second line feed: 404, close, slot
    freed. *)
Lemma single_request_rejected_witness :
  let line := bytes "POST /plan?x HTTP/1.0" in
  run LittleEndian served_turns (initial_state x00) = Some idle_again ∧
  (heap idle_again !!! 0) !! 2 = Some x0a ∧
  table_ok idle_again ∧ conn_remove_n idle_again = 0 ∧
  store_ok idle_again ∧ inactive_empty idle_again ∧
  n_conn idle_again = 0 ∧
  (0 ≤ 8 < 2 ^ 32)%Z ∧
  (x00 ∉ line) ∧
  Forall (λ c, is_eol c = false) line ∧
  length line + 1 < BUFLEN ∧
  forwards is_space line = false ∧
  ∃ st, run LittleEndian [env_accept 8; env_line (line ++ [x0a]) []] idle_again
          = Some st ∧
        log st = log idle_again ++
                 [EvAccept 8; EvRecv 8 (length line + 1);
                  EvSend 8 ERROR_404; EvClose 8; EvRemove 0 true] ∧
        n_conn st = 0.
Proof.
  intros line.
  destruct idle_again_invariants as (Hok & Hq & Hs & Hin).
  assert (Hdirty : (heap idle_again !!! 0) !! 2 = Some x0a)
    by (vm_compute; reflexivity).
  assert (Hidle : n_conn idle_again = 0) by (vm_compute; reflexivity).
  assert (Hsd : (0 ≤ 8 < 2 ^ 32)%Z) by lia.
  assert (Hnul : x00 ∉ line) by (refine (bool_decide_unpack _ _); vm_compute; exact I).
  assert (Hno : Forall (λ c, is_eol c = false) line) by (repeat constructor).
  assert (Hfit : length line + 1 < BUFLEN) by (vm_compute; lia).
  assert (Hfw : forwards is_space line = false) by reflexivity.
  split_and!;
    [apply served_turns_run|done|done|done|done|done|done|lia|lia|done|done|done|done|].
  exact (single_request_rejected LittleEndian idle_again 8 line []
           Hok Hq Hs Hin Hidle Hsd Hnul Hno Hfit Hfw).
Defined.

(** A well-formed line from the client with descriptor 300, on a
    little-endian machine and a server that has served one client before:
    the reply is written to descriptor 44. *)
Lemma single_request_served_witness :
  run LittleEndian served_turns (initial_state x00) = Some idle_again ∧
  table_ok idle_again ∧ conn_remove_n idle_again = 0 ∧
  store_ok idle_again ∧ inactive_empty idle_again ∧
  n_conn idle_again = 0 ∧
  (0 ≤ 300 < 2 ^ 32)%Z ∧
  (x00 ∉ get_line) ∧
  Forall (λ c, is_eol c = false) get_line ∧
  length get_line + 1 < BUFLEN ∧
  forwards is_space get_line = true ∧
  ∃ st, run LittleEndian
          [env_accept 300; env_line (get_line ++ [x0a]) (bytes "REQ");
           env_reply [uint32_bytes LittleEndian 300; bytes "route"]]
          idle_again = Some st ∧
        log st = log idle_again ++
                 [EvAccept 300; EvRecv 300 (length get_line + 1);
                  EvBrokerSend [uint32_bytes LittleEndian 300; bytes "REQ"];
                  EvRemove 0 true;
                  EvBrokerRecv [uint32_bytes LittleEndian 300; bytes "route"];
                  EvSend 44 OK_TEXT_PLAIN; EvSend 44 (cstring (bytes "route"));
                  EvClose 44] ∧
        n_conn st = 0.
Proof.
  destruct idle_again_invariants as (Hok & Hq & Hs & Hin).
  assert (Hidle : n_conn idle_again = 0) by (vm_compute; reflexivity).
  assert (Hsd : (0 ≤ 300 < 2 ^ 32)%Z) by lia.
  assert (Hnul : x00 ∉ get_line)
    by (refine (bool_decide_unpack _ _); vm_compute; exact I).
  assert (Hno : Forall (λ c, is_eol c = false) get_line) by (repeat constructor).
  assert (Hfit : length get_line + 1 < BUFLEN) by (vm_compute; lia).
  assert (Hfw : forwards is_space get_line = true) by reflexivity.
  split_and!;
    [apply served_turns_run|done|done|done|done|done|lia|lia|done|done|done|done|].
  exact (single_request_served LittleEndian idle_again 300 get_line
           (bytes "REQ") (bytes "route") Hok Hq Hs Hin Hidle Hsd Hnul Hno Hfit Hfw).
Defined.
